(** * RelayNetworkClient.py: the relay client's transaction cache and block codec

    A shallow embedding of [src/RelayNetworkClient.py] (Python 3 semantics):
    the [FlaggedArraySet] cache, [decode_varint], and the send and receive
    paths of [RelayNetworkClient].  Python integers are [Z], [bytes] objects
    are [list byte], the [OrderedDict] is an insertion-ordered association
    list, the plain [dict] is a [gmap], and a method that mutates [self] is a
    state transformer that either returns or raises, in both cases together
    with the state it leaves behind. *)

From Stdlib Require Import ZArith Lia String.
From Stdlib.Strings Require Import Byte.
From stdpp Require Import base option list gmap.

Local Open Scope Z_scope.

(** ** Bytes *)

Abbreviation bytes := (list byte).

#[global] Instance byte_eq_decision : EqDecision byte := Byte.byte_eq_dec.

Definition byte_to_Z (b : byte) : Z := Z.of_N (Byte.to_N b).

Definition byte_of_Z (z : Z) : byte :=
  match Byte.of_N (Z.to_N (z mod 256)) with
  | Some b => b
  | None => x00
  end.

(** [len(data)] *)
Definition blen (data : bytes) : Z := Z.of_nat (length data).

(** ** Exceptions and the two monads *)

(** The Python exceptions the modelled code can raise.  [OutOfFuel] is not a
    Python exception: it marks a [while] loop of the model that ran out of
    its iteration budget. *)
Inductive exn : Type :=
| ProtocolError (msg : string)
| NameError (name : string)
| AttributeError (attr : string)
| KeyError
| IndexError
| StructError
| OSError
| OutOfFuel.

(** Pure fallible code. *)
Inductive result (A : Type) : Type :=
| Ok (a : A)
| Err (e : exn).
Arguments Ok {A} a.
Arguments Err {A} e.

Definition rbind {A B} (r : result A) (k : A -> result B) : result B :=
  match r with
  | Ok a => k a
  | Err e => Err e
  end.

(** Code that mutates an object of type [St]: the state after the call is
    kept in both cases, because a Python exception does not undo the
    assignments made before it. *)
Inductive outcome (St A : Type) : Type :=
| Returns (a : A) (s : St)
| Raises (e : exn) (s : St).
Arguments Returns {St A} a s.
Arguments Raises {St A} e s.

Definition state_of {St A} (o : outcome St A) : St :=
  match o with
  | Returns _ s => s
  | Raises _ s => s
  end.

Definition M (St A : Type) : Type := St -> outcome St A.

Definition ret {St A} (a : A) : M St A := fun s => Returns a s.
Definition raise {St A} (e : exn) : M St A := fun s => Raises e s.
Definition bind {St A B} (m : M St A) (k : A -> M St B) : M St B :=
  fun s => match m s with
           | Returns a s' => k a s'
           | Raises e s' => Raises e s'
           end.
Definition get {St} : M St St := fun s => Returns s s.
Definition modify {St} (f : St -> St) : M St unit := fun s => Returns tt (f s).
Definition lift {St A} (r : result A) : M St A :=
  fun s => match r with
           | Ok a => Returns a s
           | Err e => Raises e s
           end.

Declare Scope py_scope.
Delimit Scope py_scope with py.
Local Open Scope py_scope.
Notation "'let!' x := m 'in' k" := (bind m (fun x => k))
  (at level 10, x pattern, m at level 100, k at level 200) : py_scope.
Notation "m ;;; k" := (bind m (fun _ => k))
  (at level 100, k at level 200, right associativity) : py_scope.
Notation "'let?' x := r 'in' k" := (rbind r (fun x => k))
  (at level 10, x pattern, r at level 100, k at level 200) : py_scope.

(** [for x in l: body(x)] *)
Fixpoint for_each {St A} (l : list A) (body : A -> M St unit) : M St unit :=
  match l with
  | [] => ret tt
  | x :: l' => bind (body x) (fun _ => for_each l' body)
  end.

(** [range(start, stop, -1)] as a list: start, start-1, ..., stop+1. *)
Definition range_down (start stop : Z) : list Z :=
  map (fun k => start - Z.of_nat k) (seq 0 (Z.to_nat (start - stop))).

(** ** OrderedDict

    An [OrderedDict] is the list of its items in insertion order.  Assigning
    to a key that is present keeps the item's position; assigning to a new
    key appends. *)
Section OrderedDict.
Context {K V : Type} `{EqDecision K}.

(** [k in d] *)
Fixpoint od_mem (k : K) (d : list (K * V)) : bool :=
  match d with
  | [] => false
  | (k', _) :: d' => if decide (k = k') then true else od_mem k d'
  end.

(** [d[k]] *)
Fixpoint od_get (k : K) (d : list (K * V)) : option V :=
  match d with
  | [] => None
  | (k', v) :: d' => if decide (k = k') then Some v else od_get k d'
  end.

(** [d[k] = v] *)
Fixpoint od_set (k : K) (v : V) (d : list (K * V)) : list (K * V) :=
  match d with
  | [] => [(k, v)]
  | (k', v') :: d' =>
      if decide (k = k') then (k', v) :: d' else (k', v') :: od_set k v d'
  end.

(** [del d[k]] for a key that is present *)
Fixpoint od_del (k : K) (d : list (K * V)) : list (K * V) :=
  match d with
  | [] => []
  | (k', v') :: d' => if decide (k = k') then d' else (k', v') :: od_del k d'
  end.

(** [d.popitem(last=False)] *)
Definition od_popitem_first (d : list (K * V)) : option ((K * V) * list (K * V)) :=
  match d with
  | [] => None
  | item :: d' => Some (item, d')
  end.
End OrderedDict.

(** ** FlaggedArraySet *)

Section FlaggedArraySet.
Context {E : Type} `{EqDecision E}.

Abbreviation key := (E * bool)%type.

(** The attributes set by [__init__].  [indexes_removed] is initialised to
    an empty set and never read or written again; it is left out. *)
Record FlaggedArraySet : Type := mkFlaggedArraySet {
  max_size : Z;
  backing_dict : list (key * Z);
  backing_reverse_dict : gmap Z key;
  offset : Z;
  total : Z;
  flag_count : Z
}.

Definition init (max_size : Z) : FlaggedArraySet :=
  {| max_size := max_size; backing_dict := []; backing_reverse_dict := ∅;
     offset := 0; total := 0; flag_count := 0 |}.

Definition set_backing_dict (d : list (key * Z)) (s : FlaggedArraySet) :=
  {| max_size := max_size s; backing_dict := d;
     backing_reverse_dict := backing_reverse_dict s;
     offset := offset s; total := total s; flag_count := flag_count s |}.
Definition set_backing_reverse_dict (r : gmap Z key) (s : FlaggedArraySet) :=
  {| max_size := max_size s; backing_dict := backing_dict s;
     backing_reverse_dict := r;
     offset := offset s; total := total s; flag_count := flag_count s |}.
Definition set_offset (o : Z) (s : FlaggedArraySet) :=
  {| max_size := max_size s; backing_dict := backing_dict s;
     backing_reverse_dict := backing_reverse_dict s;
     offset := o; total := total s; flag_count := flag_count s |}.
Definition set_total (t : Z) (s : FlaggedArraySet) :=
  {| max_size := max_size s; backing_dict := backing_dict s;
     backing_reverse_dict := backing_reverse_dict s;
     offset := offset s; total := t; flag_count := flag_count s |}.
Definition set_flag_count (c : Z) (s : FlaggedArraySet) :=
  {| max_size := max_size s; backing_dict := backing_dict s;
     backing_reverse_dict := backing_reverse_dict s;
     offset := offset s; total := total s; flag_count := c |}.

(** [len(self)] *)
Definition len (s : FlaggedArraySet) : Z := Z.of_nat (length (backing_dict s)).

Definition get_flag_count (s : FlaggedArraySet) : Z := flag_count s.

Definition contains (s : FlaggedArraySet) (e : E) : bool :=
  od_mem (e, false) (backing_dict s) || od_mem (e, true) (backing_dict s).

(** One pass of the renumbering loop of [removed_from_backing_dict]:
    [e = rev[i]; del rev[i]; self.backing_dict[e] = i+1; rev[i+1] = e]. *)
Definition renumber (i : Z) : M FlaggedArraySet unit := fun s =>
  match backing_reverse_dict s !! i with
  | None => Raises KeyError s
  | Some e =>
      let s1 := set_backing_reverse_dict (delete i (backing_reverse_dict s)) s in
      let s2 := set_backing_dict (od_set e (i + 1) (backing_dict s1)) s1 in
      Returns tt
        (set_backing_reverse_dict (<[i + 1 := e]> (backing_reverse_dict s2)) s2)
  end.

Definition removed_from_backing_dict (item_index_pair : key * Z)
  : M FlaggedArraySet unit := fun s =>
  let idx := item_index_pair.2 in
  match backing_reverse_dict s !! idx with
  | None => Raises KeyError s
  | Some _ =>
      let s1 := set_backing_reverse_dict (delete idx (backing_reverse_dict s)) s in
      let s2 := if item_index_pair.1.2
                then set_flag_count (flag_count s1 - 1) s1 else s1 in
      ((if bool_decide (offset s2 ≠ idx)
        then for_each (range_down (idx - 1) (offset s2 - 1)) renumber
        else ret tt) ;;;
       modify (fun s => set_offset (offset s + 1) s))%py s2
  end.

(** The [while self.len() >= self.max_size] loop of [add], with an
    iteration budget. *)
Fixpoint evict (fuel : nat) : M FlaggedArraySet unit := fun s =>
  if len s >=? max_size s then
    match fuel with
    | O => Raises OutOfFuel s
    | S fuel' =>
        match od_popitem_first (backing_dict s) with
        | None => Raises KeyError s
        | Some (item, d') =>
            (removed_from_backing_dict item ;;; evict fuel')%py
              (set_backing_dict d' s)
        end
    end
  else Returns tt s.

Definition add (e : E) (flag : bool) : M FlaggedArraySet unit := fun s =>
  if contains s e then Returns tt s
  else
    (evict (S (length (backing_dict s))) ;;;
     modify (fun s =>
       let s1 := set_backing_dict (od_set (e, flag) (total s) (backing_dict s)) s in
       let s2 := set_backing_reverse_dict
                   (<[total s1 := (e, flag)]> (backing_reverse_dict s1)) s1 in
       set_total (total s2 + 1) s2) ;;;
     (* [self.flalg_count += 1] reads an attribute that was never set *)
     if flag then raise (AttributeError "flalg_count") else ret tt)%py s.

Definition remove_key (k : key) : M FlaggedArraySet unit := fun s =>
  match od_get k (backing_dict s) with
  | None => Raises KeyError s
  | Some index =>
      removed_from_backing_dict (k, index)
        (set_backing_dict (od_del k (backing_dict s)) s)
  end.

Definition remove (e : E) : M FlaggedArraySet unit := fun s =>
  if od_mem (e, false) (backing_dict s) then remove_key (e, false) s
  else if od_mem (e, true) (backing_dict s) then remove_key (e, true) s
  else Returns tt s.

Definition get_index (s : FlaggedArraySet) (e : E) : option Z :=
  if od_mem (e, false) (backing_dict s)
  then (fun v => v - offset s) <$> od_get (e, false) (backing_dict s)
  else if od_mem (e, true) (backing_dict s)
  then (fun v => v - offset s) <$> od_get (e, true) (backing_dict s)
  else None.

Definition get_by_index (s : FlaggedArraySet) (index : Z) : option E :=
  fst <$> (backing_reverse_dict s !! (index + offset s)).

End FlaggedArraySet.

Arguments FlaggedArraySet E : clear implicits.

(** ** The [struct] module and byte strings *)

(** Unsigned integers of [n] bytes, least significant byte first. *)
Fixpoint le_encode (n : nat) (v : Z) : bytes :=
  match n with
  | O => []
  | S n' => byte_of_Z v :: le_encode n' (v / 256)
  end.

Fixpoint le_decode (bs : bytes) : Z :=
  match bs with
  | [] => 0
  | b :: bs' => byte_to_Z b + 256 * le_decode bs'
  end.

Inductive byte_order : Type := little_endian | big_endian.

(** The format characters the program uses: [B], [H], [I], [Q]. *)
Inductive fmt_code : Type := fmt_B | fmt_H | fmt_I | fmt_Q.

Definition code_size (c : fmt_code) : nat :=
  match c with
  | fmt_B => 1
  | fmt_H => 2
  | fmt_I => 4
  | fmt_Q => 8
  end.

Definition encode (o : byte_order) (n : nat) (v : Z) : bytes :=
  match o with
  | little_endian => le_encode n v
  | big_endian => rev (le_encode n v)
  end.

Definition decode (o : byte_order) (bs : bytes) : Z :=
  match o with
  | little_endian => le_decode bs
  | big_endian => le_decode (rev bs)
  end.

Definition calcsize (codes : list fmt_code) : nat :=
  fold_right (fun c n => (code_size c + n)%nat) 0%nat codes.

(** [struct.pack]: a value outside the range of its format character, or a
    wrong number of values, is a [struct.error]. *)
Fixpoint pack (o : byte_order) (codes : list fmt_code) (vals : list Z) : result bytes :=
  match codes, vals with
  | [], [] => Ok []
  | c :: codes', v :: vals' =>
      if (0 <=? v) && (v <? 256 ^ Z.of_nat (code_size c))
      then rbind (pack o codes' vals') (fun tl => Ok (encode o (code_size c) v ++ tl))
      else Err StructError
  | _, _ => Err StructError
  end.

Fixpoint decode_fields (o : byte_order) (codes : list fmt_code) (data : bytes) : list Z :=
  match codes with
  | [] => []
  | c :: codes' =>
      decode o (take (code_size c) data) :: decode_fields o codes' (drop (code_size c) data)
  end.

(** [struct.unpack]: the buffer must have exactly the size of the format. *)
Definition unpack (o : byte_order) (codes : list fmt_code) (data : bytes) : result (list Z) :=
  if decide (length data = calcsize codes)
  then Ok (decode_fields o codes data)
  else Err StructError.

(** [struct.unpack_from]: a negative offset counts from the end; the buffer
    must hold the whole format from the offset on. *)
Definition unpack_from (o : byte_order) (codes : list fmt_code) (data : bytes) (offset : Z)
  : result (list Z) :=
  let off := if offset <? 0 then offset + blen data else offset in
  if (0 <=? off) && (off + Z.of_nat (calcsize codes) <=? blen data)
  then Ok (decode_fields o codes (drop (Z.to_nat off) data))
  else Err StructError.

(** [t[i]] on the tuple a successful unpack returns *)
Definition item (t : list Z) (i : nat) : Z := nth i t 0.

(** [data[i]] *)
Definition getitem (data : bytes) (i : Z) : result Z :=
  let i' := if i <? 0 then i + blen data else i in
  if (0 <=? i') && (i' <? blen data)
  then match data !! Z.to_nat i' with
       | Some b => Ok (byte_to_Z b)
       | None => Err IndexError
       end
  else Err IndexError.

(** [data[start:stop]] *)
Definition slice (data : bytes) (start stop : Z) : bytes :=
  let clamp i := if i <? 0 then Z.max 0 (i + blen data) else Z.min i (blen data) in
  let a := clamp start in
  let b := clamp stop in
  take (Z.to_nat (b - a)) (drop (Z.to_nat a) data).

(** ** decode_varint *)

Definition decode_varint (data : bytes) (offset : Z) : result (Z * Z) :=
  let? first := unpack_from little_endian [fmt_B] data offset in
  if item first 0 <? 0xfd then
    let? v := unpack_from little_endian [fmt_B] data (offset + 0) in
    Ok (item v 0, offset + 1)
  else
    let? tag := getitem data offset in
    if tag =? 0xfd then
      let? v := unpack_from little_endian [fmt_H] data (offset + 1) in
      Ok (item v 0, offset + 3)
    else
      let? tag := getitem data offset in
      if tag =? 0xfe then
        let? v := unpack_from little_endian [fmt_I] data (offset + 1) in
        Ok (item v 0, offset + 5)
      else
        let? v := unpack_from little_endian [fmt_Q] data (offset + 1) in
        Ok (item v 0, offset + 9).

(** ** RelayNetworkClient *)

Definition MAGIC_BYTES : Z := 0xF2BEEF42.
Definition VERSION_TYPE : Z := 0.
Definition BLOCK_TYPE : Z := 1.
Definition TRANSACTION_TYPE : Z := 2.
Definition END_BLOCK_TYPE : Z := 3.
Definition MAX_VERSION_TYPE : Z := 4.
Definition VERSION_STRING : bytes := list_byte_of_string "prioritized panther".
Definition MAX_RELAY_TRANSACTION_BYTES : Z := 10000.
Definition MAX_RELAY_OVERSIZE_TRANSACTION_BYTES : Z := 250000.
Definition MAX_EXTRA_OVERSIZE_TRANSACTIONS : Z := 20.

(** A call the client makes on its [data_recipient]. *)
Inductive recipient_call : Type :=
| provide_block_header_call (header_data : bytes)
| provide_block_call (block_data : bytes)
| provide_transaction_call (transaction_data : bytes).

(** The client object together with its socket.  [sock_in] holds the bytes
    the peer has written and [recv] has not returned yet, [sock_out] the
    bytes handed to [sendall] so far, [sock_up] tells whether [sendall]
    succeeds, and [recipient_calls] lists the calls made on [data_recipient],
    oldest first; the recipient is taken not to raise.  The send lock, the
    reconnect timer and the [print] calls are not modelled; of the two
    settings of [deserialize_utils] the model follows the one where the
    optional import failed. *)
Record RelayNetworkClient : Type := mkRelayNetworkClient {
  recv_transaction_cache : FlaggedArraySet bytes;
  send_transaction_cache : FlaggedArraySet bytes;
  sock_in : bytes;
  sock_out : bytes;
  sock_up : bool;
  recipient_calls : list recipient_call
}.

Definition set_recv_transaction_cache (c : FlaggedArraySet bytes) (s : RelayNetworkClient) :=
  {| recv_transaction_cache := c; send_transaction_cache := send_transaction_cache s;
     sock_in := sock_in s; sock_out := sock_out s; sock_up := sock_up s;
     recipient_calls := recipient_calls s |}.
Definition set_send_transaction_cache (c : FlaggedArraySet bytes) (s : RelayNetworkClient) :=
  {| recv_transaction_cache := recv_transaction_cache s; send_transaction_cache := c;
     sock_in := sock_in s; sock_out := sock_out s; sock_up := sock_up s;
     recipient_calls := recipient_calls s |}.
Definition set_sock_in (d : bytes) (s : RelayNetworkClient) :=
  {| recv_transaction_cache := recv_transaction_cache s;
     send_transaction_cache := send_transaction_cache s;
     sock_in := d; sock_out := sock_out s; sock_up := sock_up s;
     recipient_calls := recipient_calls s |}.
Definition set_sock_out (d : bytes) (s : RelayNetworkClient) :=
  {| recv_transaction_cache := recv_transaction_cache s;
     send_transaction_cache := send_transaction_cache s;
     sock_in := sock_in s; sock_out := d; sock_up := sock_up s;
     recipient_calls := recipient_calls s |}.
Definition set_recipient_calls (l : list recipient_call) (s : RelayNetworkClient) :=
  {| recv_transaction_cache := recv_transaction_cache s;
     send_transaction_cache := send_transaction_cache s;
     sock_in := sock_in s; sock_out := sock_out s; sock_up := sock_up s;
     recipient_calls := l |}.

(** [self.relay_sock.recv(n, socket.MSG_WAITALL)]: the next [n] bytes, or
    what is left of the stream when the peer has closed it. *)
Definition recv (n : Z) : M RelayNetworkClient bytes := fun s =>
  Returns (take (Z.to_nat n) (sock_in s)) (set_sock_in (drop (Z.to_nat n) (sock_in s)) s).

(** [self.relay_sock.sendall(data)] *)
Definition sendall (data : bytes) : M RelayNetworkClient unit := fun s =>
  if sock_up s then Returns tt (set_sock_out (sock_out s ++ data) s)
  else Raises OSError s.

(** A call on [self.data_recipient]. *)
Definition call_recipient (c : recipient_call) : M RelayNetworkClient unit :=
  modify (fun s => set_recipient_calls (recipient_calls s ++ [c]) s).

(** A method call on [self.recv_transaction_cache]. *)
Definition on_recv_cache {A} (m : M (FlaggedArraySet bytes) A) : M RelayNetworkClient A :=
  fun s => match m (recv_transaction_cache s) with
           | Returns a c => Returns a (set_recv_transaction_cache c s)
           | Raises e c => Raises e (set_recv_transaction_cache c s)
           end.

(** A method call on [self.send_transaction_cache]. *)
Definition on_send_cache {A} (m : M (FlaggedArraySet bytes) A) : M RelayNetworkClient A :=
  fun s => match m (send_transaction_cache s) with
           | Returns a c => Returns a (set_send_transaction_cache c s)
           | Raises e c => Raises e (set_send_transaction_cache c s)
           end.

(** [try: body except (OSError, socket.error) as err: print(...)] *)
Definition except_OSError (body : M RelayNetworkClient unit) : M RelayNetworkClient unit :=
  fun s => match body s with
           | Raises OSError s' => Returns tt s'
           | o => o
           end.

(** *** The length of a transaction sent inside a block *)

(** [pack('>HB', len(transaction_data) >> 8, len(transaction_data) & 0xff)],
    with [n] for the length. *)
Definition inline_length_bytes (n : Z) : result bytes :=
  pack big_endian [fmt_H; fmt_B] [Z.shiftr n 8; Z.land n 0xff].

(** [data_length = unpack('>HB', raw)] followed by
    [data_length = data_length[0] << 8 | data_length[1]]. *)
Definition inline_length (raw : bytes) : result Z :=
  let? data_length := unpack big_endian [fmt_H; fmt_B] raw in
  Ok (Z.lor (Z.shiftl (item data_length 0) 8) (item data_length 1)).

(** *** The receive loop of [connect] *)

(** The [for i in range(0, msg_header[2])] loop of the BLOCK branch, with
    [n] passes left; [block_data] is the block rebuilt so far. *)
Fixpoint recv_block_transactions (n : nat) (block_data : bytes) : M RelayNetworkClient bytes :=
  match n with
  | O => ret block_data
  | S n' =>
      let! raw := recv 2 in
      let! index := lift (unpack big_endian [fmt_H] raw) in
      if item index 0 =? 0xffff then
        let! raw := recv 3 in
        let! data_length := lift (inline_length raw) in
        if data_length >? 1000000 then
          (* the message of the ProtocolError reads [dat_length], a name
             that is bound nowhere *)
          raise (NameError "dat_length")
        else
          let! transaction_data := recv data_length in
          recv_block_transactions n' (block_data ++ transaction_data)
      else
        let! s := get in
        match get_by_index (recv_transaction_cache s) (item index 0) with
        | None => raise (ProtocolError "Got index for a transaction we didn't have")
        | Some transaction_data =>
            on_recv_cache (remove transaction_data) ;;;
            recv_block_transactions n' (block_data ++ transaction_data)
        end
  end.

(** The BLOCK branch; [count] is [msg_header[2]]. *)
Definition recv_block (count : Z) : M RelayNetworkClient unit :=
  if count >? 10000 then
    raise (ProtocolError "Got a BLOCK message with far too many transactions")
  else
    let! header_data := recv 80 in
    call_recipient (provide_block_header_call header_data) ;;;
    let! block_data :=
      (if count <? 0xfd then
         let! c := lift (pack little_endian [fmt_B] [count]) in
         ret (header_data ++ c)
       else if count <? 0xffff then
         let! c := lift (pack little_endian [fmt_H] [count]) in
         ret (header_data ++ [xfd] ++ c)
       else if count <? 0xffffffff then
         let! c := lift (pack little_endian [fmt_I] [count]) in
         ret (header_data ++ [xfe] ++ c)
       else raise (ProtocolError "WTF?????")) in
    let! block_data := recv_block_transactions (Z.to_nat count) block_data in
    call_recipient (provide_block_call block_data) ;;;
    let! raw := recv (3 * 4) in
    let! trailer := lift (unpack big_endian [fmt_I; fmt_I; fmt_I] raw) in
    if decide (trailer = [MAGIC_BYTES; END_BLOCK_TYPE; 0]) then ret tt
    else raise (ProtocolError "Invalid END_BLOCK message after block").

(** The TRANSACTION branch; [length] is [msg_header[2]]. *)
Definition recv_transaction (length : Z) : M RelayNetworkClient unit :=
  let! s := get in
  if (length >? MAX_RELAY_TRANSACTION_BYTES)
     && ((get_flag_count (recv_transaction_cache s) >=? MAX_EXTRA_OVERSIZE_TRANSACTIONS)
         || (length >? MAX_RELAY_OVERSIZE_TRANSACTION_BYTES))
  then raise (ProtocolError "Got a freely relayed transaction too large")
  else
    let! transaction_data := recv length in
    on_recv_cache (add transaction_data (length >? MAX_RELAY_OVERSIZE_TRANSACTION_BYTES)) ;;;
    call_recipient (provide_transaction_call transaction_data).

(** One pass of the [while True] loop: read a frame header and dispatch. *)
Definition recv_message : M RelayNetworkClient unit :=
  let! raw := recv (3 * 4) in
  let! msg_header := lift (unpack big_endian [fmt_I; fmt_I; fmt_I] raw) in
  if negb (item msg_header 0 =? MAGIC_BYTES) then
    raise (ProtocolError "Invalid magic bytes")
  else if item msg_header 2 >? 1000000 then
    raise (ProtocolError "Got message too large")
  else if item msg_header 1 =? VERSION_TYPE then
    let! version := recv (item msg_header 2) in
    if decide (version = VERSION_STRING) then ret tt
    else raise (ProtocolError "Got back unknown version type")
  else if item msg_header 1 =? BLOCK_TYPE then
    recv_block (item msg_header 2)
  else if item msg_header 1 =? TRANSACTION_TYPE then
    recv_transaction (item msg_header 2)
  else if item msg_header 1 =? MAX_VERSION_TYPE then
    let! version := recv (item msg_header 2) in
    ret tt
  else raise (ProtocolError "Unknown message type").

(** The [except] clause of [connect] that catches an exception; each of the
    three ends in [self.reconnect()]. *)
Inductive except_clause : Type :=
| lost_connect          (* except (OSError, socket.error) *)
| error_processing      (* except ProtocolError *)
| unknown_error.        (* except Exception *)

Definition catching_clause (e : exn) : except_clause :=
  match e with
  | OSError => lost_connect
  | ProtocolError _ => error_processing
  | _ => unknown_error
  end.

(** What one pass of the loop leads to: the loop goes on, or the connection
    is given up and [reconnect] is called. *)
Inductive loop_step : Type :=
| next_message (s : RelayNetworkClient)
| reconnects (clause : except_clause) (s : RelayNetworkClient).

Definition connect_loop_step (s : RelayNetworkClient) : loop_step :=
  match recv_message s with
  | Returns _ s' => next_message s'
  | Raises e s' => reconnects (catching_clause e) s'
  end.

(** The state [connect] starts the loop in: two fresh caches of capacity
    1000 and the version message written to a socket that is up. *)
Definition connected (peer_data : bytes) : RelayNetworkClient :=
  {| recv_transaction_cache := init 1000; send_transaction_cache := init 1000;
     sock_in := peer_data;
     sock_out :=
       match pack big_endian [fmt_I; fmt_I; fmt_I]
               [MAGIC_BYTES; VERSION_TYPE; blen VERSION_STRING] with
       | Ok hdr => hdr ++ VERSION_STRING
       | Err _ => []
       end;
     sock_up := true; recipient_calls := [] |}.

(** *** The send path *)

Definition provide_transaction (transaction_data : bytes) : M RelayNetworkClient unit :=
  let! s := get in
  if contains (send_transaction_cache s) transaction_data then ret tt
  else
    let! rejected :=
      (if blen transaction_data >? MAX_RELAY_TRANSACTION_BYTES then
         if blen transaction_data >? MAX_RELAY_OVERSIZE_TRANSACTION_BYTES then ret true
         else
           (* [self.send_transaction_cache.get_flag_count() >=
              MAX_EXTRA_OVERSIZE_TRANSACTIONS]: the right operand is a bare
              name, and the module binds no such global *)
           let flag_count := get_flag_count (send_transaction_cache s) in
           raise (NameError "MAX_EXTRA_OVERSIZE_TRANSACTIONS")
       else ret false) in
    if rejected : bool then ret tt
    else
      except_OSError
        (let! hdr := lift (pack big_endian [fmt_I; fmt_I; fmt_I]
                             [MAGIC_BYTES; TRANSACTION_TYPE; blen transaction_data]) in
         let relay_data := hdr ++ transaction_data in
         sendall relay_data ;;;
         on_send_cache
           (add transaction_data
              (blen transaction_data >? MAX_RELAY_OVERSIZE_TRANSACTION_BYTES))).

(** The [for j in range(0, tx_in_count)] loop of [provide_block], with [n]
    passes left. *)
Fixpoint skip_inputs (n : nat) (block_data : bytes) (read_pos : Z) : result Z :=
  match n with
  | O => Ok read_pos
  | S n' =>
      let read_pos := read_pos + 36 in
      let? r := decode_varint block_data read_pos in
      let read_pos := r.2 + (r.1 + 4) in
      skip_inputs n' block_data read_pos
  end.

(** The [for j in range(0, tx_out_count)] loop. *)
Fixpoint skip_outputs (n : nat) (block_data : bytes) (read_pos : Z) : result Z :=
  match n with
  | O => Ok read_pos
  | S n' =>
      let read_pos := read_pos + 8 in
      let? r := decode_varint block_data read_pos in
      let read_pos := r.2 + r.1 in
      skip_outputs n' block_data read_pos
  end.

(** The walk over one transaction: from [tx_start] to the position after
    its lock time. *)
Definition skip_transaction (block_data : bytes) (tx_start : Z) : result Z :=
  let read_pos := tx_start + 4 in
  let? r := decode_varint block_data read_pos in
  let? read_pos := skip_inputs (Z.to_nat r.1) block_data r.2 in
  let? r := decode_varint block_data read_pos in
  let? read_pos := skip_outputs (Z.to_nat r.1) block_data r.2 in
  Ok (read_pos + 4).

(** What [provide_block] appends to [relay_data] for one transaction, and
    the removal from the send cache that goes with a cached one. *)
Definition send_block_transaction (transaction_data : bytes) : M RelayNetworkClient bytes :=
  let! s := get in
  match get_index (send_transaction_cache s) transaction_data with
  | None =>
      let! mark := lift (pack big_endian [fmt_H] [0xffff]) in
      let! size := lift (inline_length_bytes (blen transaction_data)) in
      ret (mark ++ size ++ transaction_data)
  | Some tx_index =>
      let! directive := lift (pack big_endian [fmt_H] [tx_index]) in
      on_send_cache (remove transaction_data) ;;;
      ret directive
  end.

(** The [for i in range(0, tx_count)] loop of [provide_block], with [n]
    passes left. *)
Fixpoint send_block_transactions (n : nat) (block_data : bytes) (read_pos : Z)
    (relay_data : bytes) : M RelayNetworkClient bytes :=
  match n with
  | O => ret relay_data
  | S n' =>
      let tx_start := read_pos in
      let! read_pos := lift (skip_transaction block_data tx_start) in
      let transaction_data := slice block_data tx_start read_pos in
      let! directive := send_block_transaction transaction_data in
      send_block_transactions n' block_data read_pos (relay_data ++ directive)
  end.

Definition provide_block (block_data : bytes) : M RelayNetworkClient unit :=
  let! r := lift (decode_varint block_data 80) in
  let tx_count := r.1 in
  let read_pos := r.2 in
  except_OSError
    (let! hdr := lift (pack big_endian [fmt_I; fmt_I; fmt_I]
                         [MAGIC_BYTES; BLOCK_TYPE; tx_count]) in
     let relay_data := hdr ++ slice block_data 0 80 in
     let! relay_data :=
       send_block_transactions (Z.to_nat tx_count) block_data read_pos relay_data in
     let! trailer := lift (pack big_endian [fmt_I; fmt_I; fmt_I]
                             [MAGIC_BYTES; END_BLOCK_TYPE; 0]) in
     sendall (relay_data ++ trailer)).

(** ** Canonical blocks *)

(** Modelled from the spec: the canonical block and transaction layout of
    section 4.2.  The repository holds no serializer (blocks arrive as bytes
    from the peer-to-peer node); this is the layout [provide_block] walks.
    The fields the walk does not interpret stay byte strings. *)
Record TxIn : Type := mkTxIn {
  prevout : bytes;          (* 36 bytes *)
  script_sig : bytes;
  sequence : bytes          (* 4 bytes *)
}.

Record TxOut : Type := mkTxOut {
  value : bytes;            (* 8 bytes *)
  script_pubkey : bytes
}.

Record Transaction : Type := mkTransaction {
  version : bytes;          (* 4 bytes *)
  vin : list TxIn;
  vout : list TxOut;
  lock_time : bytes         (* 4 bytes *)
}.

Record Block : Type := mkBlock {
  header : bytes;           (* 80 bytes *)
  vtx : list Transaction
}.

(** Modelled from the spec: compact size, 1/3/5/9 bytes, little-endian, in
    its shortest form. *)
Definition compact_size (n : Z) : bytes :=
  if n <? 0xfd then le_encode 1 n
  else if n <=? 0xffff then xfd :: le_encode 2 n
  else if n <=? 0xffffffff then xfe :: le_encode 4 n
  else xff :: le_encode 8 n.

Definition ser_txin (i : TxIn) : bytes :=
  prevout i ++ compact_size (blen (script_sig i)) ++ script_sig i ++ sequence i.

Definition ser_txout (o : TxOut) : bytes :=
  value o ++ compact_size (blen (script_pubkey o)) ++ script_pubkey o.

Definition ser_tx (t : Transaction) : bytes :=
  version t ++ compact_size (Z.of_nat (length (vin t))) ++ concat (map ser_txin (vin t))
  ++ compact_size (Z.of_nat (length (vout t))) ++ concat (map ser_txout (vout t))
  ++ lock_time t.

Definition ser_block (b : Block) : bytes :=
  header b ++ compact_size (Z.of_nat (length (vtx b))) ++ concat (map ser_tx (vtx b)).

(** The serialized transactions of a block, in order. *)
Definition block_txs (b : Block) : list bytes := map ser_tx (vtx b).

Definition canonical_txin (i : TxIn) : Prop :=
  length (prevout i) = 36%nat /\ length (sequence i) = 4%nat
  /\ blen (script_sig i) < 2 ^ 64.

Definition canonical_txout (o : TxOut) : Prop :=
  length (value o) = 8%nat /\ blen (script_pubkey o) < 2 ^ 64.

Definition canonical_tx (t : Transaction) : Prop :=
  length (version t) = 4%nat /\ length (lock_time t) = 4%nat
  /\ Z.of_nat (length (vin t)) < 2 ^ 64 /\ Z.of_nat (length (vout t)) < 2 ^ 64
  /\ Forall canonical_txin (vin t) /\ Forall canonical_txout (vout t).

Definition canonical_block (b : Block) : Prop :=
  length (header b) = 80%nat /\ Z.of_nat (length (vtx b)) < 2 ^ 64
  /\ Forall canonical_tx (vtx b).

(** ** The wire format of a block, as a function of the cache *)

(** The directive [provide_block] writes for the transaction [tx] when the
    send cache is [c]: the index of a cached transaction, or the mark 0xffff,
    three length bytes and the transaction. *)
Definition directive (c : FlaggedArraySet bytes) (tx : bytes) : bytes :=
  match get_index c tx with
  | Some i => encode big_endian 2 i
  | None => encode big_endian 2 0xffff ++ encode big_endian 3 (blen tx) ++ tx
  end.

(** The directives for each of [txs] in turn; a cached transaction is
    removed from the cache before the next one is looked up. *)
Fixpoint block_directives (c : FlaggedArraySet bytes) (txs : list bytes) : bytes :=
  match txs with
  | [] => []
  | tx :: txs' => directive c tx ++ block_directives (state_of (remove tx c)) txs'
  end.

(** The twelve bytes of a frame header: magic, type, length or count. *)
Definition frame_header (type length : Z) : bytes :=
  encode big_endian 4 MAGIC_BYTES ++ encode big_endian 4 type ++ encode big_endian 4 length.

(** What follows the BLOCK frame header and precedes the END_BLOCK frame. *)
Definition block_payload (c : FlaggedArraySet bytes) (b : Block) : bytes :=
  header b ++ block_directives c (block_txs b).

(** The bytes [provide_block] hands to [sendall] for the block [b] when the
    send cache is [c]. *)
Definition block_wire (c : FlaggedArraySet bytes) (b : Block) : bytes :=
  frame_header BLOCK_TYPE (Z.of_nat (length (vtx b)))
  ++ block_payload c b ++ frame_header END_BLOCK_TYPE 0.

(** The cache after [remove] has been called for each of [txs] in turn. *)
Definition remove_all (txs : list bytes) (c : FlaggedArraySet bytes) : FlaggedArraySet bytes :=
  fold_left (fun c tx => state_of (remove tx c)) txs c.

(** The transactions that are sent inline fit the receiver's limit. *)
Fixpoint inline_fits (c : FlaggedArraySet bytes) (txs : list bytes) : Prop :=
  match txs with
  | [] => True
  | tx :: txs' =>
      (contains c tx = false -> blen tx <= 1000000)
      /\ inline_fits (state_of (remove tx c)) txs'
  end.

(** [suffix] is what [data] holds from position [pos] on. *)
Definition at_pos (data : bytes) (pos : Z) (suffix : bytes) : Prop :=
  0 <= pos <= blen data /\ drop (Z.to_nat pos) data = suffix.

(** ** The cache seen as a list of keys

    The vocabulary the statements about [FlaggedArraySet] are written in. *)
Section FlaggedArraySetSpec.
Context {E : Type} `{EqDecision E}.

Abbreviation key := (E * bool)%type.
Implicit Types (s : FlaggedArraySet E) (e : E) (k : key) (ks : list key).

(** The keys of a cache in insertion order, oldest first. *)
Definition keys s : list key := (backing_dict s).*1.

(** [ks] numbered consecutively from [off], as items of the ordered
    dictionary and as the reverse dictionary. *)
Fixpoint number (off : Z) ks : list (key * Z) :=
  match ks with
  | [] => []
  | k :: ks' => (k, off) :: number (off + 1) ks'
  end.

Fixpoint index_map (off : Z) ks : gmap Z key :=
  match ks with
  | [] => ∅
  | k :: ks' => <[off := k]> (index_map (off + 1) ks')
  end.

(** The cache that holds [ks] at absolute indices [off], [off+1], ... *)
Definition mk (ms : Z) ks (off fc : Z) : FlaggedArraySet E :=
  {| max_size := ms; backing_dict := number off ks;
     backing_reverse_dict := index_map off ks;
     offset := off; total := off + Z.of_nat (length ks); flag_count := fc |}.

(** The representation invariant. *)
Record wf s : Prop := {
  wf_capacity : 0 < max_size s;
  wf_len : len s <= max_size s;
  wf_dict : backing_dict s = number (offset s) (keys s);
  wf_reverse : backing_reverse_dict s = index_map (offset s) (keys s);
  wf_total : total s = offset s + len s;
  wf_nodup : NoDup (keys s).*1
}.

(** The state inside the renumbering loop: [pre] still sits at its old
    indices, index [off + length pre] is free, [rest] follows it. *)
Definition hole (ms : Z) (pre rest : list key) (off fc tot : Z) : FlaggedArraySet E :=
  let i := off + Z.of_nat (length pre) in
  {| max_size := ms;
     backing_dict := number off pre ++ number (i + 1) rest;
     backing_reverse_dict := index_map off pre ∪ index_map (i + 1) rest;
     offset := off; total := tot; flag_count := fc |}.

(** How [add] ends once the entry is stored: the flagged path reads the
    attribute [flalg_count], which does not exist. *)
Definition add_finish (flag : bool) s : outcome (FlaggedArraySet E) unit :=
  if flag then Raises (AttributeError "flalg_count") s else Returns tt s.

(** The states a cache can be in: built by [FlaggedArraySet(max_size)]
    with a positive capacity and changed by [add] and [remove] only.  The
    state a raising [add] leaves behind counts as well. *)
Inductive reachable : FlaggedArraySet E -> Prop :=
| reachable_init ms : 0 < ms -> reachable (init ms)
| reachable_add s e f : reachable s -> reachable (state_of (add e f s))
| reachable_remove s e : reachable s -> reachable (state_of (remove e s)).
End FlaggedArraySetSpec.

(** ** Example inputs *)

(** A transaction with no inputs and no outputs: ten bytes. *)
Definition minimal_tx : Transaction :=
  {| version := [x01; x00; x00; x00]; vin := []; vout := [];
     lock_time := [x00; x00; x00; x00] |}.

(** A transaction with one input and one output. *)
Definition spending_tx : Transaction :=
  {| version := [x01; x00; x00; x00];
     vin := [ {| prevout := replicate 36 x11; script_sig := [x51; x52];
                 sequence := [xff; xff; xff; xff] |} ];
     vout := [ {| value := replicate 8 x22; script_pubkey := [x76; xa9; x88] |} ];
     lock_time := [x00; x00; x00; x00] |}.

(** A block of 10 001 transactions. *)
Definition crowded_block : Block :=
  {| header := replicate 80 x00; vtx := replicate (Z.to_nat 10001) minimal_tx |}.

(** A block of one transaction, and a client that has it in its send cache. *)
Definition one_tx_block : Block :=
  {| header := replicate 80 x00; vtx := [minimal_tx] |}.

Definition one_tx_cache : FlaggedArraySet bytes :=
  state_of (add (ser_tx minimal_tx) false (init 1000)).

Definition one_tx_client : RelayNetworkClient :=
  set_send_transaction_cache one_tx_cache (connected []).

(** A block of two transactions; the caches hold the first of them. *)
Definition two_tx_block : Block :=
  {| header := replicate 80 x00; vtx := [minimal_tx; spending_tx] |}.

Definition two_tx_sender : RelayNetworkClient :=
  set_send_transaction_cache one_tx_cache (connected []).

Definition two_tx_receiver : RelayNetworkClient :=
  set_recv_transaction_cache one_tx_cache (connected []).

(** A cache of capacity 1000 filled by 1000 calls of [add] with distinct
    two-byte payloads; only the first call passes [flag = True] (and
    raises after storing its entry). *)
Definition filler (n : nat) : bytes := le_encode 2 (Z.of_nat n).

Definition full_cache : FlaggedArraySet bytes :=
  fold_left (fun s n => state_of (add (filler n) (Nat.eqb n 0) s)) (seq 0 1000) (init 1000).

(** A cache that holds three payloads. *)
Definition three_cache : FlaggedArraySet bytes :=
  state_of (add [x03] false (state_of (add [x02] false (state_of (add [x01] false (init 1000)))))).

(** * The rest of the program *)

(** ** Runs of [add] *)

Section FlaggedArraySetRuns.
Context {E : Type} `{EqDecision E}.

(** [add] with [flag = False] for each payload of [l] in turn. *)
Definition add_all (l : list E) (s : FlaggedArraySet E) : FlaggedArraySet E :=
  fold_left (fun s e => state_of (add e false s)) l s.

End FlaggedArraySetRuns.

(** ** The operand of a variable-length integer *)

(** The number of bytes that follow the first byte of a variable-length
    integer. *)
Definition varint_operand_size (tag : byte) : nat :=
  if byte_to_Z tag <? 0xfd then 0
  else if byte_to_Z tag =? 0xfd then 2
  else if byte_to_Z tag =? 0xfe then 4
  else 8.

(** ** What an operation may change *)

(** Every run of [m] relates the state it starts in to the state it leaves,
    whether it returns or raises. *)
Definition preserves {St A : Type} (R : St -> St -> Prop) (m : M St A) : Prop :=
  forall s, R s (state_of (m s)).

(** No entry of the cache is flagged and the counter is zero. *)
Definition unflagged (c : FlaggedArraySet bytes) : Prop :=
  flag_count c = 0 /\ Forall (fun k => k.2 = false) (keys c).

(** From [c] to [c']: a reachable cache stays reachable with the same
    capacity, and an unflagged one stays unflagged. *)
Definition cache_step (c c' : FlaggedArraySet bytes) : Prop :=
  reachable c ->
  reachable c' /\ max_size c' = max_size c /\ (unflagged c -> unflagged c').

(** What the receive loop may do to the client: consume input, call the
    recipient, and change the receive cache by [add] and [remove]. *)
Definition recv_step (r r' : RelayNetworkClient) : Prop :=
  send_transaction_cache r' = send_transaction_cache r /\
  sock_out r' = sock_out r /\
  sock_up r' = sock_up r /\
  (exists consumed, sock_in r = consumed ++ sock_in r') /\
  (exists calls, recipient_calls r' = recipient_calls r ++ calls) /\
  cache_step (recv_transaction_cache r) (recv_transaction_cache r').

(** What the send path may do to the client: write to the socket and change
    the send cache by [add] and [remove]. *)
Definition send_step (s s' : RelayNetworkClient) : Prop :=
  recv_transaction_cache s' = recv_transaction_cache s /\
  sock_in s' = sock_in s /\
  sock_up s' = sock_up s /\
  recipient_calls s' = recipient_calls s /\
  (exists sent, sock_out s' = sock_out s ++ sent) /\
  cache_step (send_transaction_cache s) (send_transaction_cache s').

(** Both caches of the client are reachable, hold no flagged entry and
    have the capacity [cap]. *)
Definition unflagged_client (cap : Z) (s : RelayNetworkClient) : Prop :=
  (reachable (recv_transaction_cache s) /\ unflagged (recv_transaction_cache s)
   /\ max_size (recv_transaction_cache s) = cap) /\
  (reachable (send_transaction_cache s) /\ unflagged (send_transaction_cache s)
   /\ max_size (send_transaction_cache s) = cap).

(** ** BitcoinP2PRelayer *)

(** The relayer object together with its socket, as for the relay client:
    [p2p_sock_in] holds the bytes bitcoind has written and [recv] has not
    returned yet, [p2p_sock_out] the bytes handed to [sendall] so far and
    [p2p_sock_up] tells whether [sendall] succeeds.  [data_recipient] is the
    relay client the relayer hands blocks and transactions to.  The lock,
    the reconnect timer and the [print] calls are not modelled. *)
Record BitcoinP2PRelayer : Type := mkBitcoinP2PRelayer {
  p2p_sock_in : bytes;
  p2p_sock_out : bytes;
  p2p_sock_up : bool;
  data_recipient : RelayNetworkClient
}.

Definition set_p2p_sock_in (d : bytes) (s : BitcoinP2PRelayer) :=
  {| p2p_sock_in := d; p2p_sock_out := p2p_sock_out s; p2p_sock_up := p2p_sock_up s;
     data_recipient := data_recipient s |}.
Definition set_p2p_sock_out (d : bytes) (s : BitcoinP2PRelayer) :=
  {| p2p_sock_in := p2p_sock_in s; p2p_sock_out := d; p2p_sock_up := p2p_sock_up s;
     data_recipient := data_recipient s |}.
Definition set_data_recipient (r : RelayNetworkClient) (s : BitcoinP2PRelayer) :=
  {| p2p_sock_in := p2p_sock_in s; p2p_sock_out := p2p_sock_out s;
     p2p_sock_up := p2p_sock_up s; data_recipient := r |}.

(** [self.sock.recv(n, socket.MSG_WAITALL)] *)
Definition p2p_recv (n : Z) : M BitcoinP2PRelayer bytes := fun s =>
  Returns (take (Z.to_nat n) (p2p_sock_in s))
    (set_p2p_sock_in (drop (Z.to_nat n) (p2p_sock_in s)) s).

(** [self.sock.sendall(data)] *)
Definition p2p_sendall (data : bytes) : M BitcoinP2PRelayer unit := fun s =>
  if p2p_sock_up s then Returns tt (set_p2p_sock_out (p2p_sock_out s ++ data) s)
  else Raises OSError s.

(** A method call on [self.data_recipient]. *)
Definition on_data_recipient {A} (m : M RelayNetworkClient A) : M BitcoinP2PRelayer A :=
  fun s => match m (data_recipient s) with
           | Returns a r => Returns a (set_data_recipient r s)
           | Raises e r => Raises e (set_data_recipient r s)
           end.

(** [try: body except (OSError, socket.error) as err: print(...)] *)
Definition p2p_except_OSError (body : M BitcoinP2PRelayer unit) : M BitcoinP2PRelayer unit :=
  fun s => match body s with
           | Raises OSError s' => Returns tt s'
           | o => o
           end.

(** The struct format [<n>s]: the value is cut or padded with zero bytes to
    [n] bytes. *)
Definition pack_s (n : nat) (v : bytes) : bytes :=
  take n v ++ replicate (n - length v) x00.

(** [pack('<4s12sI4s', magic, command, data_len, checksum)] *)
Definition pack_message_header (magic command : bytes) (data_len : Z) (checksum : bytes)
  : result bytes :=
  let? len := pack little_endian [fmt_I] [data_len] in
  Ok (pack_s 4 magic ++ pack_s 12 command ++ len ++ pack_s 4 checksum).

(** [unpack('<4s12sI4s', raw)] *)
Definition unpack_message_header (raw : bytes) : result (bytes * bytes * Z * bytes) :=
  if decide (length raw = 24%nat)
  then Ok (take 4 raw, take 12 (drop 4 raw),
           decode little_endian (take 4 (drop 16 raw)), take 4 (drop 20 raw))
  else Err StructError.

(** [data.index(b)] for a single byte [b]; [None] stands for the
    [ValueError] of a byte that does not occur. *)
Fixpoint bytes_index (data : bytes) (b : byte) : option Z :=
  match data with
  | [] => None
  | x :: rest => if decide (x = b) then Some 0 else Z.succ <$> bytes_index rest b
  end.

Definition P2P_MAGIC : bytes := [xf9; xbe; xb4; xd9].

Section BitcoinP2PRelayer.

(** [sha256 data] stands for [hashlib.sha256(data).digest()]. *)
Variable sha256 : bytes -> bytes.

(** The message [send_message] builds before it calls [sendall]. *)
Definition message_bytes (command data : bytes) : result bytes :=
  let checksum := slice (sha256 (sha256 data)) 0 4 in
  let? message := pack_message_header P2P_MAGIC command (blen data) checksum in
  Ok (message ++ data).

Definition send_message (command data : bytes) : M BitcoinP2PRelayer unit :=
  let! message := lift (message_bytes command data) in
  p2p_sendall message.

(** The loop of [connect] up to [command.index]: the header is read and its
    magic checked. *)
Definition p2p_recv_header : M BitcoinP2PRelayer (bytes * Z * bytes) :=
  let! raw := p2p_recv (4 * 3 + 12) in
  let! hdr := lift (unpack_message_header raw) in
  let '(magic, command, data_len, checksum) := hdr in
  if decide (magic = P2P_MAGIC) then ret (command, data_len, checksum)
  else raise (ProtocolError "Invalid protocol magic").

(** The [if]/[elif] chain on the command.  Of the version message the
    first four bytes are unpacked only to be printed, which fails on a
    shorter payload. *)
Definition p2p_handle_command (command data : bytes) : M BitcoinP2PRelayer unit :=
  if decide (command = list_byte_of_string "version") then
    lift (unpack little_endian [fmt_I] (slice data 0 4)) ;;;
    send_message (list_byte_of_string "verack") []
  else if decide (command = list_byte_of_string "verack") then ret tt
  else if decide (command = list_byte_of_string "ping") then
    send_message (list_byte_of_string "pong") data
  else if decide (command = list_byte_of_string "inv") then
    send_message (list_byte_of_string "getdata") data
  else if decide (command = list_byte_of_string "block") then
    on_data_recipient (provide_block data)
  else if decide (command = list_byte_of_string "tx") then
    on_data_recipient (provide_transaction data)
  else ret tt.

(** The loop of [connect] after [command.index]. *)
Definition p2p_handle_message (command : bytes) (data_len : Z) (checksum : bytes)
  : M BitcoinP2PRelayer unit :=
  if data_len >? 5000000 then raise (ProtocolError "Got message > 5M")
  else
    let! data := p2p_recv data_len in
    if decide (checksum = slice (sha256 (sha256 data)) 0 4)
    then p2p_handle_command command data
    else raise (ProtocolError "Invalid message checksum").

(** The [except] clauses of [connect]: here [struct.error] is caught with
    [OSError]. *)
Definition p2p_catching_clause (e : exn) : except_clause :=
  match e with
  | OSError | StructError => lost_connect
  | ProtocolError _ => error_processing
  | _ => unknown_error
  end.

Inductive p2p_loop_step : Type :=
| p2p_next_message (s : BitcoinP2PRelayer)
| p2p_reconnects (clause : except_clause) (s : BitcoinP2PRelayer).

(** One pass of the [while True] loop of [connect].  A command field
    without a zero byte makes [command.index] raise [ValueError], which
    the last [except] clause catches. *)
Definition p2p_connect_loop_step (s : BitcoinP2PRelayer) : p2p_loop_step :=
  match p2p_recv_header s with
  | Raises e s1 => p2p_reconnects (p2p_catching_clause e) s1
  | Returns (command, data_len, checksum) s1 =>
      match bytes_index command x00 with
      | None => p2p_reconnects unknown_error s1
      | Some i =>
          match p2p_handle_message (slice command 0 i) data_len checksum s1 with
          | Returns _ s2 => p2p_next_message s2
          | Raises e s2 => p2p_reconnects (p2p_catching_clause e) s2
          end
      end
  end.

Definition p2p_provide_block_header (header_data : bytes) : M BitcoinP2PRelayer unit :=
  p2p_except_OSError
    (send_message (list_byte_of_string "inv")
       ([x01; x02; x00; x00; x00] ++ sha256 (sha256 header_data))).

Definition p2p_provide_block (block_data : bytes) : M BitcoinP2PRelayer unit :=
  p2p_except_OSError (send_message (list_byte_of_string "block") block_data).

Definition p2p_provide_transaction (transaction_data : bytes) : M BitcoinP2PRelayer unit :=
  p2p_except_OSError (send_message (list_byte_of_string "tx") transaction_data).

(** ** RelayNetworkToP2PManager *)

(** The manager is the relay client's recipient and passes each call on to
    the relayer. *)
Definition RelayNetworkToP2PManager (c : recipient_call) : M BitcoinP2PRelayer unit :=
  match c with
  | provide_block_header_call header_data => p2p_provide_block_header header_data
  | provide_block_call block_data => p2p_provide_block block_data
  | provide_transaction_call transaction_data => p2p_provide_transaction transaction_data
  end.

End BitcoinP2PRelayer.

(** ** Example inputs for the relayer *)

(** A client whose socket is down and whose send cache holds the
    transaction of [one_tx_block]. *)
Definition offline_client : RelayNetworkClient :=
  {| recv_transaction_cache := init 1000; send_transaction_cache := one_tx_cache;
     sock_in := []; sock_out := []; sock_up := false; recipient_calls := [] |}.

(** A stand-in for the digest in the examples: the data cut or padded to
    32 bytes. *)
Definition example_digest (data : bytes) : bytes := pack_s 32 data.

(** The message a peer that frames like [send_message] writes. *)
Definition example_frame (command data : bytes) : bytes :=
  match message_bytes example_digest command data with
  | Ok frame => frame
  | Err _ => []
  end.

(** A relayer with the relay client [recipient] that has [peer_data] to
    read. *)
Definition example_relayer (recipient : RelayNetworkClient) (peer_data : bytes)
  : BitcoinP2PRelayer :=
  {| p2p_sock_in := peer_data; p2p_sock_out := []; p2p_sock_up := true;
     data_recipient := recipient |}.

(** * Proofs *)

(** ** Facts about the containers *)

Section OrderedDictFacts.
Context {K V : Type} `{EqDecision K}.
Implicit Types (k : K) (v : V) (d : list (K * V)).

Lemma od_mem_elem_of k d : od_mem k d = true <-> k ∈ d.*1.
Proof.
  induction d as [|[k' v'] d IH]; simpl.
  - split; [discriminate | intros Hin; inversion Hin].
  - rewrite elem_of_cons. destruct (decide (k = k')) as [->|Hne].
    + split; auto.
    + rewrite IH. split; [auto | intros [?|?]; [contradiction | assumption]].
Qed.

Lemma od_mem_not_elem_of k d : od_mem k d = false <-> k ∉ d.*1.
Proof.
  rewrite <- od_mem_elem_of. destruct (od_mem k d); split; congruence.
Qed.

Lemma od_get_app_fresh k v d1 d2 :
  k ∉ d1.*1 -> od_get k (d1 ++ (k, v) :: d2) = Some v.
Proof.
  induction d1 as [|[k' v'] d1 IH]; simpl; intros Hnin.
  - destruct (decide (k = k)); congruence.
  - apply not_elem_of_cons in Hnin as [Hne Hnin].
    destruct (decide (k = k')); [contradiction | auto].
Qed.

Lemma od_del_app_fresh k v d1 d2 :
  k ∉ d1.*1 -> od_del k (d1 ++ (k, v) :: d2) = d1 ++ d2.
Proof.
  induction d1 as [|[k' v'] d1 IH]; simpl; intros Hnin.
  - destruct (decide (k = k)); congruence.
  - apply not_elem_of_cons in Hnin as [Hne Hnin].
    destruct (decide (k = k')); [contradiction | by rewrite IH].
Qed.

Lemma od_set_app_fresh k v v' d1 d2 :
  k ∉ d1.*1 -> od_set k v' (d1 ++ (k, v) :: d2) = d1 ++ (k, v') :: d2.
Proof.
  induction d1 as [|[k' w] d1 IH]; simpl; intros Hnin.
  - destruct (decide (k = k)); congruence.
  - apply not_elem_of_cons in Hnin as [Hne Hnin].
    destruct (decide (k = k')); [contradiction | by rewrite IH].
Qed.

Lemma od_set_fresh k v d : k ∉ d.*1 -> od_set k v d = d ++ [(k, v)].
Proof.
  induction d as [|[k' w] d IH]; simpl; intros Hnin; [done|].
  apply not_elem_of_cons in Hnin as [Hne Hnin].
  destruct (decide (k = k')); [contradiction | by rewrite IH].
Qed.
End OrderedDictFacts.

Lemma range_down_empty (start stop : Z) : start <= stop -> range_down start stop = [].
Proof.
  intros Hle. unfold range_down.
  replace (Z.to_nat (start - stop)) with 0%nat by lia. reflexivity.
Qed.

Lemma range_down_cons (start stop : Z) :
  stop < start -> range_down start stop = start :: range_down (start - 1) stop.
Proof.
  intros Hlt. unfold range_down.
  replace (Z.to_nat (start - stop)) with (S (Z.to_nat (start - 1 - stop))) by lia.
  simpl. f_equal; [lia|].
  rewrite <- seq_shift, map_map. apply map_ext. intros k. lia.
Qed.

Section FlaggedArraySetFacts.
Context {E : Type} `{EqDecision E}.

Abbreviation key := (E * bool)%type.
Implicit Types (s : FlaggedArraySet E) (e : E) (k x : key).
Implicit Types (ks pre post rest : list key).


Lemma number_fst off ks : (number off ks).*1 = ks.
Proof. revert off. induction ks as [|k ks IH]; intros off; simpl; [done|]. by rewrite IH. Qed.

Lemma number_length off ks : length (number off ks) = length ks.
Proof. rewrite <- (length_fmap fst), number_fst. done. Qed.

Lemma number_app off ks1 ks2 :
  number off (ks1 ++ ks2) = number off ks1 ++ number (off + Z.of_nat (length ks1)) ks2.
Proof.
  revert off. induction ks1 as [|k ks1 IH]; intros off; simpl.
  - by rewrite Z.add_0_r.
  - rewrite IH. do 3 f_equal. lia.
Qed.

Lemma index_map_None off ks (j : Z) :
  j < off \/ off + Z.of_nat (length ks) <= j -> index_map off ks !! j = None.
Proof.
  revert off. induction ks as [|k ks IH]; intros off Hj; simpl.
  - apply lookup_empty.
  - rewrite lookup_insert_ne by (simpl in Hj; lia).
    apply IH. simpl in Hj. lia.
Qed.

Lemma index_map_lookup off ks (n : nat) :
  index_map off ks !! (off + Z.of_nat n) = ks !! n.
Proof.
  revert off n. induction ks as [|k ks IH]; intros off n; simpl.
  - by rewrite lookup_empty.
  - destruct n as [|n].
    + rewrite Z.add_0_r. apply lookup_insert_eq.
    + rewrite lookup_insert_ne by lia.
      replace (off + Z.of_nat (S n)) with (off + 1 + Z.of_nat n) by lia.
      apply IH.
Qed.

Lemma index_map_app off ks1 ks2 :
  index_map off (ks1 ++ ks2)
  = index_map off ks1 ∪ index_map (off + Z.of_nat (length ks1)) ks2.
Proof.
  revert off. induction ks1 as [|k ks1 IH]; intros off; cbn [index_map app].
  - by rewrite Z.add_0_r, (left_id_L ∅ (∪)).
  - rewrite IH, insert_union_l.
    replace (off + 1 + Z.of_nat (length ks1))
      with (off + Z.of_nat (length (k :: ks1))) by (cbn [length]; lia).
    reflexivity.
Qed.

Lemma wf_mk ms ks off fc :
  0 < ms -> Z.of_nat (length ks) <= ms -> NoDup ks.*1 -> wf (mk ms ks off fc).
Proof.
  intros Hms Hlen Hnd. unfold mk.
  split; unfold keys, len; simpl; rewrite ?number_fst, ?number_length; auto.
Qed.

Lemma wf_is_mk s : wf s -> s = mk (max_size s) (keys s) (offset s) (flag_count s).
Proof.
  intros [_ _ Hd Hr Ht _]. destruct s; unfold mk; simpl in *.
  rewrite <- Hd, <- Hr, Ht. unfold len, keys. simpl.
  by rewrite length_fmap.
Qed.
Lemma index_map_snoc off ks k :
  index_map off (ks ++ [k]) = <[off + Z.of_nat (length ks) := k]> (index_map off ks).
Proof.
  rewrite index_map_app. cbn [index_map].
  rewrite <- insert_union_r by (apply index_map_None; lia).
  by rewrite (right_id_L ∅ (∪)).
Qed.


Lemma renumber_hole ms pre x rest off fc tot :
  x ∉ pre ->
  renumber (off + Z.of_nat (length pre)) (hole ms (pre ++ [x]) rest off fc tot)
  = Returns tt (hole ms pre (x :: rest) off fc tot).
Proof.
  intros Hx. unfold renumber, hole. cbn [backing_reverse_dict backing_dict].
  rewrite length_app. cbn [length].
  set (i := off + Z.of_nat (length pre)).
  replace (off + Z.of_nat (length pre + 1)) with (i + 1) by lia.
  rewrite index_map_snoc. fold i.
  assert (Hi : index_map off pre !! i = None) by (apply index_map_None; lia).
  assert (Hi1 : index_map off pre !! (i + 1) = None) by (apply index_map_None; lia).
  assert (Hr : index_map (i + 1 + 1) rest !! i = None) by (apply index_map_None; lia).
  rewrite <- insert_union_l, lookup_insert_eq.
  unfold set_backing_reverse_dict, set_backing_dict; cbn.
  f_equal. f_equal.
  - rewrite number_app. cbn [number]. fold i. rewrite <- app_assoc. cbn [app].
    rewrite od_set_app_fresh by (by rewrite number_fst). reflexivity.
  - rewrite delete_insert_eq, delete_id by (by rewrite lookup_union, Hi, Hr).
    by rewrite insert_union_r.
Qed.

Lemma renumber_loop ms pre rest off fc tot :
  NoDup (pre ++ rest) ->
  for_each (range_down (off + Z.of_nat (length pre) - 1) (off - 1)) renumber
    (hole ms pre rest off fc tot)
  = Returns tt (hole ms [] (pre ++ rest) off fc tot).
Proof.
  revert rest. induction pre as [|x pre IH] using rev_ind; intros rest Hnd.
  - cbn [length]. rewrite range_down_empty by lia. reflexivity.
  - rewrite length_app. cbn [length].
    rewrite range_down_cons by lia. cbn [for_each]. unfold bind.
    replace (off + Z.of_nat (length pre + 1) - 1) with (off + Z.of_nat (length pre)) by lia.
    rewrite <- app_assoc in Hnd. cbn [app] in Hnd.
    rewrite renumber_hole by (apply NoDup_app in Hnd as (_ & Hd & _); intros Hin; apply (Hd x Hin); left).
    rewrite IH by done. by rewrite <- app_assoc.
Qed.

Lemma hole_nil ms ks off fc tot :
  set_offset (off + 1) (hole ms [] ks off fc tot)
  = {| max_size := ms; backing_dict := number (off + 1) ks;
       backing_reverse_dict := index_map (off + 1) ks;
       offset := off + 1; total := tot; flag_count := fc |}.
Proof.
  unfold hole, set_offset. cbn. rewrite Z.add_0_r.
  by rewrite (left_id_L ∅ (∪)).
Qed.

Lemma flagged_key_not_elem_of e f ks :
  e ∉ ks.*1 -> (e, f) ∉ ks.
Proof. intros Hnin Hin. apply Hnin. apply (list_elem_of_fmap_2 fst) in Hin. done. Qed.

Lemma removed_from_backing_dict_hole ms pre k post off fc :
  NoDup (pre ++ k :: post) ->
  removed_from_backing_dict (k, off + Z.of_nat (length pre))
    {| max_size := ms;
       backing_dict := number off pre ++ number (off + Z.of_nat (length pre) + 1) post;
       backing_reverse_dict := index_map off (pre ++ k :: post);
       offset := off; total := off + Z.of_nat (length (pre ++ k :: post));
       flag_count := fc |}
  = Returns tt (mk ms (pre ++ post) (off + 1) (if k.2 then fc - 1 else fc)).
Proof.
  intros Hnd. unfold removed_from_backing_dict. cbn [fst snd backing_reverse_dict].
  set (idx := off + Z.of_nat (length pre)).
  rewrite index_map_app. cbn [index_map]. fold idx.
  assert (Hi : index_map off pre !! idx = None) by (apply index_map_None; lia).
  assert (Hr : index_map (idx + 1) post !! idx = None) by (apply index_map_None; lia).
  rewrite <- insert_union_r, lookup_insert_eq by done.
  rewrite delete_insert_eq, delete_id by (by rewrite lookup_union, Hi, Hr).
  set (tot := off + Z.of_nat (length (pre ++ k :: post))).
  assert (Htot : tot = off + 1 + Z.of_nat (length (pre ++ post))).
  { unfold tot. rewrite !length_app. cbn [length]. lia. }
  assert (Hnd' : NoDup (pre ++ post)).
  { apply NoDup_app in Hnd as (Hp & Hd & Hq). apply NoDup_cons in Hq as [_ Hq].
    apply NoDup_app. split_and!; [done| |done].
    intros x Hx Hx'. apply (Hd x Hx). by right. }
  match goal with
  | |- context [bool_decide (offset ?x ≠ _)] => set (s2 := x)
  end.
  assert (Hs2 : s2 = hole ms pre post off (if k.2 then fc - 1 else fc) tot).
  { unfold s2, hole. fold idx. destruct k.2; reflexivity. }
  rewrite Hs2. clear Hs2 s2. unfold bind. cbn [offset hole].
  assert (Hloop : (if bool_decide (off ≠ idx)
                   then for_each (range_down (idx - 1) (off - 1)) renumber
                   else ret tt) (hole ms pre post off (if k.2 then fc - 1 else fc) tot)
                  = Returns tt (hole ms [] (pre ++ post) off (if k.2 then fc - 1 else fc) tot)).
  { case_bool_decide as Hoff.
    - unfold idx. by apply renumber_loop.
    - destruct pre; [reflexivity|]. exfalso.
      unfold idx in Hoff. cbn [length] in Hoff. lia. }
  fold (hole ms pre post off (if k.2 then fc - 1 else fc) tot).
  rewrite Hloop. unfold modify. f_equal.
  replace (offset (hole ms [] (pre ++ post) off (if k.2 then fc - 1 else fc) tot)) with off by reflexivity.
  rewrite hole_nil. unfold mk. by rewrite Htot.
Qed.

Lemma remove_key_mk ms pre k post off fc :
  NoDup (pre ++ k :: post) ->
  remove_key k (mk ms (pre ++ k :: post) off fc)
  = Returns tt (mk ms (pre ++ post) (off + 1) (if k.2 then fc - 1 else fc)).
Proof.
  intros Hnd. unfold remove_key, mk. cbn [backing_dict].
  assert (Hk : k ∉ (number off pre).*1).
  { rewrite number_fst. apply NoDup_app in Hnd as (_ & Hd & _).
    intros Hin. apply (Hd k Hin). left. }
  rewrite number_app. cbn [number].
  rewrite od_get_app_fresh, od_del_app_fresh by done.
  unfold set_backing_dict. cbn.
  by apply removed_from_backing_dict_hole.
Qed.

Lemma remove_mk ms pre k post off fc :
  NoDup (pre ++ k :: post).*1 ->
  remove k.1 (mk ms (pre ++ k :: post) off fc)
  = Returns tt (mk ms (pre ++ post) (off + 1) (if k.2 then fc - 1 else fc)).
Proof.
  intros Hnd. pose proof (NoDup_fmap_1 fst _ Hnd) as Hndk.
  destruct k as [e f]. unfold remove. cbn [fst].
  assert (Hin : (e, f) ∈ (backing_dict (mk ms (pre ++ (e, f) :: post) off fc)).*1).
  { cbn. rewrite number_fst. apply elem_of_app. right. left. }
  destruct f.
  - assert (Hnf : od_mem (e, false) (backing_dict (mk ms (pre ++ (e, true) :: post) off fc)) = false).
    { apply od_mem_not_elem_of. cbn. rewrite number_fst. intros Hin'.
      rewrite fmap_app, fmap_cons in Hnd. cbn in Hnd.
      apply NoDup_app in Hnd as (_ & Hd & Hq). apply NoDup_cons in Hq as [Hq _].
      apply elem_of_app in Hin' as [Hin'|Hin'].
      + apply (Hd e); [by apply (list_elem_of_fmap_2 fst) in Hin'|left].
      + apply elem_of_cons in Hin' as [Hin'|Hin']; [congruence|].
        apply Hq. by apply (list_elem_of_fmap_2 fst) in Hin'. }
    rewrite Hnf. apply od_mem_elem_of in Hin. rewrite Hin.
    by apply remove_key_mk.
  - apply od_mem_elem_of in Hin. rewrite Hin. by apply remove_key_mk.
Qed.

Lemma remove_absent s e : contains s e = false -> remove e s = Returns tt s.
Proof.
  unfold contains, remove. intros Hc. apply orb_false_iff in Hc as [-> ->]. done.
Qed.

Lemma contains_mk ms ks off fc e :
  contains (mk ms ks off fc) e = true <-> e ∈ ks.*1.
Proof.
  unfold contains. cbn [backing_dict mk].
  rewrite orb_true_iff, !od_mem_elem_of, !number_fst. split.
  - intros [Hin|Hin]; by apply (list_elem_of_fmap_2 fst) in Hin.
  - intros Hin. apply list_elem_of_fmap in Hin as ([e' f] & -> & Hin).
    destruct f; auto.
Qed.


Lemma evict_mk_room fuel ms ks off fc :
  Z.of_nat (length ks) < ms ->
  evict fuel (mk ms ks off fc) = Returns tt (mk ms ks off fc).
Proof.
  intros Hlt. destruct fuel; cbn [evict]; unfold len; cbn [backing_dict max_size mk];
    rewrite number_length; destruct (Z.geb_spec (Z.of_nat (length ks)) ms); (lia || done).
Qed.

Lemma evict_mk_full fuel ms k0 ks off fc :
  0 < ms -> Z.of_nat (length (k0 :: ks)) = ms -> NoDup (k0 :: ks) ->
  evict (S fuel) (mk ms (k0 :: ks) off fc)
  = Returns tt (mk ms ks (off + 1) (if k0.2 then fc - 1 else fc)).
Proof.
  intros Hms Hlen Hnd. cbn [evict]. unfold len. cbn [backing_dict max_size mk].
  rewrite number_length.
  destruct (Z.geb_spec (Z.of_nat (length (k0 :: ks))) ms); [|lia].
  cbn [number od_popitem_first]. unfold bind, set_backing_dict. cbn.
  pose proof (removed_from_backing_dict_hole ms [] k0 ks off fc Hnd) as Hr.
  cbn [app length number Z.of_nat] in Hr. rewrite Z.add_0_r in Hr.
  cbn [index_map] in *. rewrite Hr.
  apply evict_mk_room. cbn [length] in Hlen. lia.
Qed.

Lemma add_store_mk ms ks off fc e f :
  e ∉ ks.*1 ->
  (let s1 := set_backing_dict (od_set (e, f) (total (mk ms ks off fc))
                                 (backing_dict (mk ms ks off fc))) (mk ms ks off fc) in
   let s2 := set_backing_reverse_dict
               (<[total s1 := (e, f)]> (backing_reverse_dict s1)) s1 in
   set_total (total s2 + 1) s2)
  = mk ms (ks ++ [(e, f)]) off fc.
Proof.
  intros Hnin. unfold mk, set_total, set_backing_reverse_dict, set_backing_dict. cbn.
  rewrite od_set_fresh by (rewrite number_fst; by apply flagged_key_not_elem_of).
  rewrite number_app, index_map_snoc, length_app. cbn [number length].
  f_equal. lia.
Qed.

Lemma add_present s e : contains s e = true -> add e true s = Returns tt s /\ add e false s = Returns tt s.
Proof. intros Hc. unfold add. rewrite Hc. done. Qed.

Lemma add_mk_room ms ks off fc e f :
  e ∉ ks.*1 -> Z.of_nat (length ks) < ms ->
  add e f (mk ms ks off fc) = add_finish f (mk ms (ks ++ [(e, f)]) off fc).
Proof.
  intros Hnin Hlt. unfold add.
  destruct (contains (mk ms ks off fc) e) eqn:Hc.
  { apply contains_mk in Hc. contradiction. }
  unfold bind. rewrite evict_mk_room by done. unfold modify.
  rewrite add_store_mk by done. destruct f; reflexivity.
Qed.

Lemma add_mk_full ms k0 ks off fc e f :
  e ∉ (k0 :: ks).*1 -> 0 < ms -> Z.of_nat (length (k0 :: ks)) = ms ->
  NoDup (k0 :: ks) ->
  add e f (mk ms (k0 :: ks) off fc)
  = add_finish f (mk ms (ks ++ [(e, f)]) (off + 1) (if k0.2 then fc - 1 else fc)).
Proof.
  intros Hnin Hms Hlen Hnd. unfold add.
  destruct (contains (mk ms (k0 :: ks) off fc) e) eqn:Hc.
  { apply contains_mk in Hc. contradiction. }
  unfold bind. cbn [backing_dict mk].
  rewrite evict_mk_full by done. unfold modify.
  rewrite add_store_mk by (intros Hin; apply Hnin; rewrite fmap_cons; by right).
  destruct f; reflexivity.
Qed.

(** *** Observers on a well-formed cache *)

Lemma get_index_mk_app ms pre e f post off fc :
  NoDup (pre ++ (e, f) :: post).*1 ->
  get_index (mk ms (pre ++ (e, f) :: post) off fc) e = Some (Z.of_nat (length pre)).
Proof.
  intros Hnd. pose proof (NoDup_fmap_1 fst _ Hnd) as Hndk.
  assert (Hk : (e, f) ∉ (number off pre).*1).
  { rewrite number_fst. apply NoDup_app in Hndk as (_ & Hd & _).
    intros Hin. apply (Hd _ Hin). left. }
  assert (Hget : od_get (e, f) (backing_dict (mk ms (pre ++ (e, f) :: post) off fc))
                 = Some (off + Z.of_nat (length pre))).
  { cbn [backing_dict mk]. rewrite number_app. cbn [number]. by apply od_get_app_fresh. }
  assert (Hin : od_mem (e, f) (backing_dict (mk ms (pre ++ (e, f) :: post) off fc)) = true).
  { apply od_mem_elem_of. cbn. rewrite number_fst. apply elem_of_app. right. left. }
  unfold get_index. destruct f.
  - replace (od_mem (e, false) (backing_dict (mk ms (pre ++ (e, true) :: post) off fc)))
      with false.
    + rewrite Hin, Hget. cbn. f_equal. lia.
    + symmetry. apply od_mem_not_elem_of. cbn. rewrite number_fst. intros Hin'.
      rewrite fmap_app, fmap_cons in Hnd. cbn in Hnd.
      apply NoDup_app in Hnd as (_ & Hd & Hq). apply NoDup_cons in Hq as [Hq _].
      apply elem_of_app in Hin' as [Hin'|Hin'].
      * apply (Hd e); [by apply (list_elem_of_fmap_2 fst) in Hin'|left].
      * apply elem_of_cons in Hin' as [Hin'|Hin']; [congruence|].
        apply Hq. by apply (list_elem_of_fmap_2 fst) in Hin'.
  - rewrite Hin, Hget. cbn. f_equal. lia.
Qed.

Lemma get_index_mk_absent ms ks off fc e :
  e ∉ ks.*1 -> get_index (mk ms ks off fc) e = None.
Proof.
  intros Hnin. unfold get_index. cbn [backing_dict mk].
  assert (Hf : forall f, od_mem (e, f) (number off ks) = false).
  { intros f. apply od_mem_not_elem_of. rewrite number_fst.
    by apply flagged_key_not_elem_of. }
  by rewrite !Hf.
Qed.

Lemma get_index_mk_lookup ms ks off fc e (n : nat) f :
  NoDup ks.*1 -> ks !! n = Some (e, f) ->
  get_index (mk ms ks off fc) e = Some (Z.of_nat n).
Proof.
  intros Hnd Hn. pose proof (take_drop_middle _ _ _ Hn) as Hks.
  rewrite <- Hks in Hnd |- *. rewrite get_index_mk_app by done.
  rewrite length_take. apply lookup_lt_Some in Hn. do 2 f_equal. lia.
Qed.

Lemma get_index_mk_Some ms ks off fc e i :
  NoDup ks.*1 -> get_index (mk ms ks off fc) e = Some i ->
  0 <= i /\ exists f, ks !! Z.to_nat i = Some (e, f).
Proof.
  intros Hnd Hi. destruct (decide (e ∈ ks.*1)) as [Hin|Hnin].
  - apply list_elem_of_fmap in Hin as ([e' f] & -> & Hin).
    apply list_elem_of_lookup in Hin as [n Hn]. cbn [fst] in *.
    rewrite (get_index_mk_lookup _ _ _ _ _ _ _ Hnd Hn) in Hi.
    injection Hi as <-. split; [lia|]. exists f. by rewrite Nat2Z.id.
  - by rewrite get_index_mk_absent in Hi.
Qed.

Lemma get_by_index_mk_nat ms ks off fc (n : nat) :
  get_by_index (mk ms ks off fc) (Z.of_nat n) = fst <$> ks !! n.
Proof.
  unfold get_by_index. cbn [backing_reverse_dict offset mk].
  by rewrite Z.add_comm, index_map_lookup.
Qed.

Lemma get_by_index_mk_outside ms ks off fc (i : Z) :
  i < 0 \/ Z.of_nat (length ks) <= i -> get_by_index (mk ms ks off fc) i = None.
Proof.
  intros Hi. unfold get_by_index. cbn [backing_reverse_dict offset mk].
  rewrite index_map_None by lia. done.
Qed.


Lemma state_of_add_finish f s : state_of (add_finish f s) = s.
Proof. by destruct f. Qed.

Lemma NoDup_snoc_fst ks e f : NoDup ks.*1 -> e ∉ ks.*1 -> NoDup (ks ++ [(e, f)]).*1.
Proof.
  intros Hnd Hnin. rewrite fmap_app. apply NoDup_app. split_and!; [done| |].
  - intros x Hx Hx'. cbn in Hx'. apply list_elem_of_singleton in Hx'. by subst.
  - cbn. apply NoDup_singleton.
Qed.

Lemma wf_add s e f : wf s -> wf (state_of (add e f s)).
Proof.
  intros Hwf. pose proof (wf_is_mk s Hwf) as Hs.
  destruct Hwf as [Hms Hlen _ _ _ Hnd].
  set (ks := keys s) in *. unfold len in Hlen.
  assert (Hlk : length (backing_dict s) = length ks) by (unfold ks, keys; by rewrite length_fmap).
  rewrite Hlk in Hlen. rewrite Hs. clear Hs Hlk.
  destruct (decide (e ∈ ks.*1)) as [Hin|Hnin].
  { apply (contains_mk (max_size s) ks (offset s) (flag_count s)) in Hin.
    unfold add. rewrite Hin. cbn [state_of]. by apply wf_mk. }
  destruct (decide (Z.of_nat (length ks) < max_size s)) as [Hlt|Hge].
  - rewrite add_mk_room, state_of_add_finish by done.
    apply wf_mk; [done| |by apply NoDup_snoc_fst].
    rewrite length_app. cbn [length]. lia.
  - destruct ks as [|k0 ks']; [cbn [length] in Hge; lia|].
    rewrite add_mk_full, state_of_add_finish; [|done|done|lia|by apply (NoDup_fmap_1 fst)].
    rewrite fmap_cons in Hnd, Hnin. apply NoDup_cons in Hnd as [_ Hnd].
    apply not_elem_of_cons in Hnin as [_ Hnin].
    apply wf_mk; [done| |by apply NoDup_snoc_fst].
    rewrite length_app. cbn [length] in *. lia.
Qed.

Lemma NoDup_fst_remove_middle pre k post :
  NoDup (pre ++ k :: post).*1 -> NoDup (pre ++ post).*1.
Proof.
  rewrite !fmap_app, fmap_cons. intros Hnd.
  apply NoDup_app in Hnd as (Hp & Hd & Hq). apply NoDup_cons in Hq as [_ Hq].
  apply NoDup_app. split_and!; [done| |done].
  intros x Hx Hx'. apply (Hd x Hx). by right.
Qed.

Lemma wf_remove s e : wf s -> wf (state_of (remove e s)).
Proof.
  intros Hwf. destruct (contains s e) eqn:Hc.
  2:{ by rewrite remove_absent. }
  pose proof (wf_is_mk s Hwf) as Hs.
  destruct Hwf as [Hms Hlen _ _ _ Hnd].
  set (ks := keys s) in *. unfold len in Hlen.
  assert (Hlk : length (backing_dict s) = length ks) by (unfold ks, keys; by rewrite length_fmap).
  rewrite Hlk in Hlen. rewrite Hs in Hc |- *. clear Hs Hlk.
  apply contains_mk in Hc. apply list_elem_of_fmap in Hc as (k & -> & Hin).
  apply list_elem_of_split in Hin as (pre & post & Hks).
  rewrite Hks in Hnd, Hlen |- *. rewrite remove_mk by done. cbn [state_of].
  apply wf_mk; [done| |by eapply NoDup_fst_remove_middle].
  rewrite length_app in *. cbn [length] in Hlen. lia.
Qed.

Lemma reachable_wf s : reachable s -> wf s.
Proof.
  induction 1 as [ms Hms|s e f _ IH|s e _ IH].
  - apply (wf_mk ms [] 0 0); [done|cbn; lia|constructor].
  - by apply wf_add.
  - by apply wf_remove.
Qed.
End FlaggedArraySetFacts.

(** ** Removal keeps the external indices dense *)

Section CacheClaims.
Context {E : Type} `{EqDecision E}.
Implicit Types (s : FlaggedArraySet E) (e p q : E) (k x : E * bool).
Implicit Types (ks pre post rest : list (E * bool)).

Lemma lookup_remove_middle pre k post (n : nat) x :
  (pre ++ k :: post) !! n = Some x -> n ≠ length pre ->
  (pre ++ post) !! (if (n <? length pre)%nat then n else (n - 1)%nat) = Some x.
Proof.
  intros Hn Hne. destruct (Nat.ltb_spec n (length pre)) as [Hlt|Hge].
  - rewrite lookup_app_l in Hn |- * by done. done.
  - rewrite lookup_app_r in Hn |- * by lia.
    replace (n - length pre)%nat with (S (n - 1 - length pre)) in Hn by lia.
    done.
Qed.

Lemma reachable_is_mk s :
  reachable s ->
  exists ks, s = mk (max_size s) ks (offset s) (flag_count s) /\
    NoDup ks.*1 /\ 0 < max_size s /\ Z.of_nat (length ks) <= max_size s /\
    len s = Z.of_nat (length ks).
Proof.
  intros Hr. apply reachable_wf in Hr as Hwf. exists (keys s).
  pose proof (wf_is_mk s Hwf) as Hs. destruct Hwf as [Hms Hlen _ _ _ Hnd].
  assert (Hl : len s = Z.of_nat (length (keys s))).
  { unfold len, keys. by rewrite length_fmap. }
  split_and!; try done. by rewrite <- Hl.
Qed.

(** C2: on a reachable cache that holds [p] at external index [i], remove(p)
    returns, p is gone, the other payloads are kept, the external indices of the
    remaining entries are exactly 0 .. len-1, an entry below [i] keeps its
    index, an entry above [i] moves down by one, and get_by_index(get_index(q))
    is q for every remaining payload q. *)
Theorem remove_keeps_indices_dense s p (i : Z) :
  reachable s -> get_index s p = Some i ->
  exists s',
    remove p s = Returns tt s' /\
    len s' = len s - 1 /\
    (forall q, contains s' q = true <-> contains s q = true /\ q ≠ p) /\
    (forall j, is_Some (get_by_index s' j) <-> 0 <= j < len s') /\
    (forall q j, q ≠ p -> get_index s q = Some j ->
       j ≠ i /\
       get_index s' q = Some (if j <? i then j else j - 1) /\
       get_by_index s' (if j <? i then j else j - 1) = Some q).
Proof.
  intros Hr Hi. destruct (reachable_is_mk s Hr) as (ks & Hs & Hnd & Hms & Hcap & Hlen).
  set (ms := max_size s) in *. set (off := offset s) in *. set (fc := flag_count s) in *.
  rewrite Hs in Hi. apply get_index_mk_Some in Hi as [Hi0 [f Hf]]; [|done].
  pose proof (take_drop_middle _ _ _ Hf) as Hks.
  set (pre := take (Z.to_nat i) ks) in *. set (post := drop (S (Z.to_nat i)) ks) in *.
  assert (Hpre : length pre = Z.to_nat i).
  { unfold pre. rewrite length_take. apply lookup_lt_Some in Hf. lia. }
  assert (Hnd' : NoDup (pre ++ post).*1).
  { rewrite <- Hks in Hnd. by eapply NoDup_fst_remove_middle. }
  assert (Hp : p ∉ (pre ++ post).*1).
  { rewrite <- Hks in Hnd. rewrite !fmap_app, fmap_cons in *. cbn [fst] in Hnd.
    apply NoDup_app in Hnd as (_ & Hd & Hq). apply NoDup_cons in Hq as [Hq _].
    intros [Hin|Hin]%elem_of_app; [|done]. apply (Hd p Hin). left. }
  exists (mk ms (pre ++ post) (off + 1) (if f then fc - 1 else fc)).
  split_and!.
  - rewrite Hs at 1. rewrite <- Hks at 1.
    by rewrite (remove_mk ms pre (p, f) post off fc) by (by rewrite Hks).
  - rewrite Hlen. unfold len. cbn [backing_dict mk]. rewrite number_length.
    rewrite <- Hks, !length_app. cbn [length]. lia.
  - intros q. rewrite Hs at 1. rewrite !contains_mk, <- Hks, !fmap_app, fmap_cons.
    cbn [fst]. rewrite fmap_app in Hp. rewrite !elem_of_app, elem_of_cons.
    rewrite elem_of_app in Hp. split.
    + intros Hq. split; [tauto|]. intros ->. tauto.
    + intros [[?|[?|?]] ?]; tauto.
  - intros j. unfold len. cbn [backing_dict mk]. rewrite number_length.
    destruct (decide (0 <= j < Z.of_nat (length (pre ++ post)))) as [Hj|Hj].
    + split; [done|intros _]. replace j with (Z.of_nat (Z.to_nat j)) by lia.
      rewrite get_by_index_mk_nat. apply fmap_is_Some, lookup_lt_is_Some. lia.
    + rewrite get_by_index_mk_outside by lia. split; [by intros [? ?]|done].
  - intros q j Hq Hj. rewrite Hs in Hj.
    apply get_index_mk_Some in Hj as [Hj0 [g Hg]]; [|done].
    assert (Hji : j ≠ i).
    { intros ->. rewrite Hf in Hg. congruence. }
    split; [done|]. rewrite <- Hks in Hg.
    apply lookup_remove_middle in Hg; [|lia].
    assert (Hn : (if (Z.to_nat j <? length pre)%nat then Z.to_nat j else (Z.to_nat j - 1)%nat)
                 = Z.to_nat (if j <? i then j else j - 1)).
    { destruct (Nat.ltb_spec (Z.to_nat j) (length pre)), (Z.ltb_spec j i); lia. }
    rewrite Hn in Hg.
    assert (Hj' : 0 <= (if j <? i then j else j - 1)).
    { destruct (Z.ltb_spec j i); lia. }
    replace (if j <? i then j else j - 1)
      with (Z.of_nat (Z.to_nat (if j <? i then j else j - 1))) by lia.
    split.
    + by eapply get_index_mk_lookup.
    + by rewrite get_by_index_mk_nat, Hg.
Qed.
End CacheClaims.

(** ** Bytes, [struct] and positions in a buffer *)

Lemma byte_to_Z_range (b : byte) : 0 <= byte_to_Z b < 256.
Proof. unfold byte_to_Z. pose proof (Byte.to_N_bounded b). lia. Qed.

Lemma byte_to_of_Z (z : Z) : byte_to_Z (byte_of_Z z) = z mod 256.
Proof.
  unfold byte_to_Z, byte_of_Z.
  pose proof (Z.mod_pos_bound z 256 ltac:(lia)) as Hm.
  destruct (Byte.of_N (Z.to_N (z mod 256))) as [b|] eqn:Hb.
  - apply Byte.to_of_N in Hb. rewrite Hb. lia.
  - apply Byte.of_N_None_iff in Hb. lia.
Qed.

Lemma byte_of_to_Z (b : byte) : byte_of_Z (byte_to_Z b) = b.
Proof.
  unfold byte_of_Z. pose proof (byte_to_Z_range b) as Hr.
  rewrite Z.mod_small by lia. unfold byte_to_Z. rewrite N2Z.id, Byte.of_to_N. done.
Qed.

Lemma length_le_encode n v : length (le_encode n v) = n.
Proof. revert v. induction n as [|n IH]; intros v; cbn; [done|]. by rewrite IH. Qed.

Lemma le_decode_encode n v :
  0 <= v < 256 ^ Z.of_nat n -> le_decode (le_encode n v) = v.
Proof.
  revert v. induction n as [|n IH]; intros v Hv.
  - cbn in *. lia.
  - cbn [le_encode le_decode]. rewrite byte_to_of_Z.
    rewrite Nat2Z.inj_succ, Z.pow_succ_r in Hv by lia.
    rewrite IH.
    + pose proof (Z.div_mod v 256 ltac:(lia)). lia.
    + split; [apply Z.div_pos; lia|]. apply Z.div_lt_upper_bound; lia.
Qed.

Lemma le_decode_range bs : 0 <= le_decode bs < 256 ^ Z.of_nat (length bs).
Proof.
  induction bs as [|b bs IH].
  - cbn. lia.
  - cbn [le_decode length]. rewrite Nat2Z.inj_succ, Z.pow_succ_r by lia.
    pose proof (byte_to_Z_range b). lia.
Qed.

Lemma le_encode_decode bs : le_encode (length bs) (le_decode bs) = bs.
Proof.
  induction bs as [|b bs IH]; [done|].
  cbn [length le_decode le_encode]. pose proof (byte_to_Z_range b) as Hb.
  f_equal.
  - rewrite <- (byte_of_to_Z b) at 2. unfold byte_of_Z.
    replace ((byte_to_Z b + 256 * le_decode bs) mod 256) with (byte_to_Z b mod 256); [done|].
    replace (byte_to_Z b + 256 * le_decode bs) with (byte_to_Z b + le_decode bs * 256) by lia.
    by rewrite Z.mod_add by lia.
  - replace ((byte_to_Z b + 256 * le_decode bs) / 256) with (le_decode bs); [done|].
    replace (byte_to_Z b + 256 * le_decode bs) with (byte_to_Z b + le_decode bs * 256) by lia.
    rewrite Z.div_add by lia. rewrite Z.div_small by lia. lia.
Qed.

Lemma length_encode o n v : length (encode o n v) = n.
Proof. destruct o; cbn; rewrite ?length_rev; apply length_le_encode. Qed.

Lemma decode_encode o n v : 0 <= v < 256 ^ Z.of_nat n -> decode o (encode o n v) = v.
Proof. intros Hv. destruct o; cbn; rewrite ?rev_involutive; by apply le_decode_encode. Qed.

Lemma encode_decode o bs : encode o (length bs) (decode o bs) = bs.
Proof.
  destruct o; cbn; [apply le_encode_decode|].
  rewrite <- (length_rev bs), le_encode_decode. apply rev_involutive.
Qed.

Lemma decode_range o bs : 0 <= decode o bs < 256 ^ Z.of_nat (length bs).
Proof. destruct o; cbn; [apply le_decode_range|]. rewrite <- (length_rev bs). apply le_decode_range. Qed.

Lemma blen_app (a b : bytes) : blen (a ++ b) = blen a + blen b.
Proof. unfold blen. rewrite length_app. lia. Qed.

Lemma blen_nonneg (a : bytes) : 0 <= blen a.
Proof. unfold blen. lia. Qed.

(** pack, unpack *)

Lemma pack_length o codes vals bs :
  pack o codes vals = Ok bs -> length bs = calcsize codes.
Proof.
  revert vals bs. induction codes as [|c codes IH]; intros [|v vals] bs; cbn; try discriminate.
  - by intros [= <-].
  - destruct (_ && _); [|discriminate].
    destruct (pack o codes vals) as [tl|] eqn:Htl; cbn; [|discriminate].
    intros [= <-]. rewrite length_app, length_encode. by rewrite (IH _ _ Htl).
Qed.

Lemma decode_fields_pack o codes vals bs post :
  pack o codes vals = Ok bs -> decode_fields o codes (bs ++ post) = vals.
Proof.
  revert vals bs. induction codes as [|c codes IH]; intros [|v vals] bs; cbn; try discriminate.
  - done.
  - destruct (_ && _) eqn:Hrange; [|discriminate].
    destruct (pack o codes vals) as [tl|] eqn:Htl; cbn; [|discriminate].
    intros [= <-]. rewrite <- app_assoc.
    rewrite take_app_length' by (by rewrite length_encode).
    rewrite drop_app_length' by (by rewrite length_encode).
    rewrite decode_encode by lia. by rewrite (IH _ _ Htl).
Qed.

Lemma unpack_pack o codes vals bs :
  pack o codes vals = Ok bs -> unpack o codes bs = Ok vals.
Proof.
  intros Hp. unfold unpack. rewrite decide_True by by eapply pack_length.
  rewrite <- (app_nil_r bs). by erewrite decode_fields_pack.
Qed.

Lemma in_range_true (v n : Z) : 0 <= v < n -> (0 <=? v) && (v <? n) = true.
Proof. intros Hv. apply andb_true_intro. split; [apply Z.leb_le|apply Z.ltb_lt]; lia. Qed.

Lemma pack_one o c v :
  0 <= v < 256 ^ Z.of_nat (code_size c) -> pack o [c] [v] = Ok (encode o (code_size c) v).
Proof.
  intros Hv. cbn [pack].
  rewrite in_range_true by done.
  cbn [rbind]. by rewrite app_nil_r.
Qed.

Lemma pack_3I a b c :
  0 <= a < 2 ^ 32 -> 0 <= b < 2 ^ 32 -> 0 <= c < 2 ^ 32 ->
  pack big_endian [fmt_I; fmt_I; fmt_I] [a; b; c]
  = Ok (encode big_endian 4 a ++ encode big_endian 4 b ++ encode big_endian 4 c).
Proof.
  intros Ha Hb Hc. cbn [pack code_size].
  change (256 ^ Z.of_nat 4) with (2 ^ 32).
  rewrite !in_range_true by done.
  cbn [rbind]. by rewrite app_nil_r.
Qed.

(** positions *)

Lemma at_pos_start data : at_pos data 0 data.
Proof. split; [pose proof (blen_nonneg data); lia|done]. Qed.

Lemma at_pos_bound data pos suffix : at_pos data pos suffix -> pos + blen suffix = blen data.
Proof.
  intros [Hpos Hd]. unfold blen in *. rewrite <- Hd, length_drop. lia.
Qed.

Lemma at_pos_app data pos a b :
  at_pos data pos (a ++ b) -> at_pos data (pos + blen a) b.
Proof.
  intros Hat. pose proof (at_pos_bound _ _ _ Hat) as Hb. destruct Hat as [Hpos Hd].
  rewrite blen_app in Hb. pose proof (blen_nonneg a). pose proof (blen_nonneg b).
  split; [lia|].
  unfold blen. rewrite Z2Nat.inj_add, Nat2Z.id by lia.
  rewrite <- drop_drop, Hd. by rewrite drop_app_length.
Qed.

Lemma unpack_from_at o codes data pos bs rest :
  at_pos data pos (bs ++ rest) -> length bs = calcsize codes ->
  unpack_from o codes data pos = unpack o codes bs.
Proof.
  intros Hat Hlen. pose proof (at_pos_bound _ _ _ Hat) as Hb.
  destruct Hat as [Hpos Hd]. rewrite blen_app in Hb. pose proof (blen_nonneg rest).
  unfold unpack_from, unpack. destruct (Z.ltb_spec pos 0); [lia|].
  replace ((0 <=? pos) && (pos + Z.of_nat (calcsize codes) <=? blen data)) with true
    by (unfold blen in *; lia).
  rewrite decide_True by done. rewrite Hd. f_equal.
  clear -Hlen. revert bs Hlen. induction codes as [|c codes IH]; intros bs Hlen; [done|].
  cbn [decode_fields calcsize fold_right] in *.
  rewrite take_app_le, drop_app_le by lia. f_equal. apply IH.
  rewrite length_drop. fold (calcsize codes) in Hlen. lia.
Qed.

Lemma getitem_at data pos b rest :
  at_pos data pos (b :: rest) -> getitem data pos = Ok (byte_to_Z b).
Proof.
  intros Hat. pose proof (at_pos_bound _ _ _ Hat) as Hb. destruct Hat as [Hpos Hd].
  unfold getitem. destruct (Z.ltb_spec pos 0); [lia|].
  unfold blen in Hb. cbn [length] in Hb.
  replace ((0 <=? pos) && (pos <? blen data)) with true by (unfold blen; lia).
  rewrite <- (Nat.add_0_r (Z.to_nat pos)), <- lookup_drop, Hd. done.
Qed.

Lemma slice_at data pos x rest :
  at_pos data pos (x ++ rest) -> slice data pos (pos + blen x) = x.
Proof.
  intros Hat. pose proof (at_pos_bound _ _ _ Hat) as Hb. destruct Hat as [Hpos Hd].
  rewrite blen_app in Hb. pose proof (blen_nonneg rest). pose proof (blen_nonneg x).
  unfold slice. destruct (Z.ltb_spec pos 0); [lia|].
  destruct (Z.ltb_spec (pos + blen x) 0); [lia|].
  rewrite !Z.min_l by lia. rewrite Hd.
  replace (Z.to_nat (pos + blen x - pos)) with (length x) by (unfold blen; lia).
  by rewrite take_app_length.
Qed.

(** ** [decode_varint] on a compact size *)

Lemma unpack_one o c bs :
  length bs = code_size c -> unpack o [c] bs = Ok [decode o bs].
Proof.
  intros Hlen. unfold unpack. cbn [calcsize fold_right]. rewrite Nat.add_0_r.
  rewrite decide_True by done. cbn [decode_fields].
  by rewrite <- Hlen, firstn_all.
Qed.

Lemma unpack_from_one o c data pos bs rest :
  at_pos data pos (bs ++ rest) -> length bs = code_size c ->
  unpack_from o [c] data pos = Ok [decode o bs].
Proof.
  intros Hat Hlen. rewrite (unpack_from_at o [c] data pos bs rest Hat).
  - by apply unpack_one.
  - cbn. lia.
Qed.

Lemma blen_compact_size n :
  blen (compact_size n)
  = if n <? 0xfd then 1 else if n <=? 0xffff then 3 else if n <=? 0xffffffff then 5 else 9.
Proof.
  unfold compact_size, blen.
  destruct (n <? 0xfd); [done|]. destruct (n <=? 0xffff); [done|].
  destruct (n <=? 0xffffffff); done.
Qed.

Lemma at_pos_cons data pos b rest :
  at_pos data pos (b :: rest) -> at_pos data (pos + 1) rest.
Proof. intros Hat. by apply (at_pos_app data pos [b] rest). Qed.

Lemma decode_varint_compact_size data pos n rest :
  0 <= n < 2 ^ 64 ->
  at_pos data pos (compact_size n ++ rest) ->
  decode_varint data pos = Ok (n, pos + blen (compact_size n)).
Proof.
  intros Hn Hat. rewrite blen_compact_size. unfold compact_size in Hat. unfold decode_varint.
  destruct (Z.ltb_spec n 0xfd) as [H1|H1].
  { rewrite (unpack_from_one _ fmt_B data pos (le_encode 1 n) rest) by done.
    cbn [rbind item nth].
    change (decode little_endian (le_encode 1 n)) with (decode little_endian (encode little_endian 1 n)).
    rewrite decode_encode by (cbn; lia).
    destruct (Z.ltb_spec n 0xfd); [|lia]. rewrite Z.add_0_r.
    rewrite (unpack_from_one _ fmt_B data pos (le_encode 1 n) rest) by done.
    cbn [rbind item nth].
    change (decode little_endian (le_encode 1 n)) with (decode little_endian (encode little_endian 1 n)).
    by rewrite decode_encode by (cbn; lia). }
  assert (Hfirst : forall tag tl, at_pos data pos ((tag :: tl) ++ rest) ->
            unpack_from little_endian [fmt_B] data pos = Ok [byte_to_Z tag]).
  { intros tag tl Hat'. rewrite (unpack_from_one _ fmt_B data pos [tag] (tl ++ rest)) by done.
    cbn. by rewrite Z.mul_0_r, Z.add_0_r. }
  destruct (Z.leb_spec n 0xffff) as [H2|H2]; [|destruct (Z.leb_spec n 0xffffffff) as [H3|H3]].
  - rewrite (Hfirst _ _ Hat). cbn [rbind item nth]. change (byte_to_Z xfd <? 0xfd) with false.
    cbv iota. rewrite (getitem_at data pos xfd (le_encode 2 n ++ rest)) by done.
    cbn [rbind]. change (byte_to_Z xfd =? 0xfd) with true. cbv iota.
    apply at_pos_cons in Hat.
    rewrite (unpack_from_one _ fmt_H data (pos + 1) (le_encode 2 n) rest) by done.
    cbn [rbind item nth].
    change (decode little_endian (le_encode 2 n)) with (decode little_endian (encode little_endian 2 n)).
    by rewrite decode_encode by (cbn; lia).
  - rewrite (Hfirst _ _ Hat). cbn [rbind item nth]. change (byte_to_Z xfe <? 0xfd) with false.
    cbv iota. rewrite (getitem_at data pos xfe (le_encode 4 n ++ rest)) by done.
    cbn [rbind]. change (byte_to_Z xfe =? 0xfd) with false.
    change (byte_to_Z xfe =? 0xfe) with true. cbv iota.
    apply at_pos_cons in Hat.
    rewrite (unpack_from_one _ fmt_I data (pos + 1) (le_encode 4 n) rest) by done.
    cbn [rbind item nth].
    change (decode little_endian (le_encode 4 n)) with (decode little_endian (encode little_endian 4 n)).
    by rewrite decode_encode by (cbn; lia).
  - rewrite (Hfirst _ _ Hat). cbn [rbind item nth]. change (byte_to_Z xff <? 0xfd) with false.
    cbv iota. rewrite (getitem_at data pos xff (le_encode 8 n ++ rest)) by done.
    cbn [rbind]. change (byte_to_Z xff =? 0xfd) with false.
    change (byte_to_Z xff =? 0xfe) with false. cbv iota.
    apply at_pos_cons in Hat.
    rewrite (unpack_from_one _ fmt_Q data (pos + 1) (le_encode 8 n) rest) by done.
    cbn [rbind item nth].
    change (decode little_endian (le_encode 8 n)) with (decode little_endian (encode little_endian 8 n)).
    by rewrite decode_encode by (cbn; lia).
Qed.

(** ** The walk over a canonical transaction *)

Lemma at_pos_eq data pos pos' suffix : at_pos data pos suffix -> pos = pos' -> at_pos data pos' suffix.
Proof. by intros ? <-. Qed.

Lemma skip_inputs_canonical data ins pos rest :
  Forall canonical_txin ins ->
  at_pos data pos (concat (map ser_txin ins) ++ rest) ->
  skip_inputs (length ins) data pos = Ok (pos + blen (concat (map ser_txin ins))).
Proof.
  intros Hins. revert pos. induction Hins as [|i ins (Hprev & Hseq & Hscript) _ IH]; intros pos Hat.
  - cbn. f_equal. unfold blen. cbn. lia.
  - cbn [length skip_inputs map concat] in *. unfold ser_txin in Hat at 1.
    rewrite <- !app_assoc in Hat.
    apply at_pos_app in Hat as Hat1.
    replace (blen (prevout i)) with 36 in Hat1 by (unfold blen; lia).
    assert (Hr : 0 <= blen (script_sig i) < 2 ^ 64) by (pose proof (blen_nonneg (script_sig i)); lia).
    rewrite (decode_varint_compact_size _ _ _ _ Hr Hat1).
    cbn [rbind fst snd].
    apply at_pos_app, at_pos_app, at_pos_app in Hat1.
    replace (blen (sequence i)) with 4 in Hat1 by (unfold blen; lia).
    rewrite IH.
    + f_equal. unfold ser_txin. rewrite !blen_app.
      replace (blen (prevout i)) with 36 by (unfold blen; lia).
      replace (blen (sequence i)) with 4 by (unfold blen; lia). lia.
    + eapply at_pos_eq; [exact Hat1|lia].
Qed.

Lemma skip_outputs_canonical data outs pos rest :
  Forall canonical_txout outs ->
  at_pos data pos (concat (map ser_txout outs) ++ rest) ->
  skip_outputs (length outs) data pos = Ok (pos + blen (concat (map ser_txout outs))).
Proof.
  intros Houts. revert pos. induction Houts as [|o outs (Hval & Hscript) _ IH]; intros pos Hat.
  - cbn. f_equal. unfold blen. cbn. lia.
  - cbn [length skip_outputs map concat] in *. unfold ser_txout in Hat at 1.
    rewrite <- !app_assoc in Hat.
    apply at_pos_app in Hat as Hat1.
    replace (blen (value o)) with 8 in Hat1 by (unfold blen; lia).
    assert (Hr : 0 <= blen (script_pubkey o) < 2 ^ 64) by (pose proof (blen_nonneg (script_pubkey o)); lia).
    rewrite (decode_varint_compact_size _ _ _ _ Hr Hat1).
    cbn [rbind fst snd].
    apply at_pos_app, at_pos_app in Hat1.
    rewrite IH.
    + f_equal. unfold ser_txout. rewrite !blen_app.
      replace (blen (value o)) with 8 by (unfold blen; lia). lia.
    + eapply at_pos_eq; [exact Hat1|lia].
Qed.

Lemma skip_transaction_canonical data t pos rest :
  canonical_tx t ->
  at_pos data pos (ser_tx t ++ rest) ->
  skip_transaction data pos = Ok (pos + blen (ser_tx t)).
Proof.
  intros (Hver & Hlock & Hnin & Hnout & Hins & Houts) Hat.
  unfold skip_transaction. unfold ser_tx in Hat. rewrite <- !app_assoc in Hat.
  apply at_pos_app in Hat as Hat1.
  replace (blen (version t)) with 4 in Hat1 by (unfold blen; lia).
  assert (Hr1 : 0 <= Z.of_nat (length (vin t)) < 2 ^ 64) by lia.
  assert (Hr2 : 0 <= Z.of_nat (length (vout t)) < 2 ^ 64) by lia.
  rewrite (decode_varint_compact_size _ _ _ _ Hr1 Hat1). cbn [rbind fst snd].
  apply at_pos_app in Hat1. rewrite Nat2Z.id.
  rewrite (skip_inputs_canonical _ _ _ _ Hins Hat1). cbn [rbind].
  apply at_pos_app in Hat1.
  rewrite (decode_varint_compact_size _ _ _ _ Hr2 Hat1). cbn [rbind fst snd].
  apply at_pos_app in Hat1. rewrite Nat2Z.id.
  rewrite (skip_outputs_canonical _ _ _ _ Houts Hat1). cbn [rbind].
  f_equal. unfold ser_tx. rewrite !blen_app.
  replace (blen (version t)) with 4 by (unfold blen; lia).
  replace (blen (lock_time t)) with 4 by (unfold blen; lia). lia.
Qed.

Lemma encode_big_3 L :
  encode big_endian 3 L
  = [byte_of_Z (Z.shiftr L 16); byte_of_Z (Z.land (Z.shiftr L 8) 0xff); byte_of_Z (Z.land L 0xff)].
Proof.
  cbn [encode le_encode rev app]. rewrite !Z.shiftr_div_pow2 by lia.
  change 0xff with (Z.ones 8). rewrite !Z.land_ones by lia.
  change (2 ^ 8) with 256. change (2 ^ 16) with (256 * 256).
  rewrite <- Z.div_div by lia.
  unfold byte_of_Z. by rewrite !Z.mod_mod by lia.
Qed.

(** ** The three length bytes of an inline transaction *)

Lemma lor_shiftl_low (h l n : Z) :
  0 <= n -> 0 <= l < 2 ^ n -> Z.lor (Z.shiftl h n) l = h * 2 ^ n + l.
Proof.
  intros Hn Hl. rewrite <- Z.shiftl_mul_pow2 by done.
  rewrite <- Z.add_lor_land.
  replace (Z.land (Z.shiftl h n) l) with 0; [lia|].
  symmetry. apply Z.bits_inj'. intros k Hk.
  rewrite Z.land_spec, Z.bits_0.
  destruct (Z.lt_ge_cases k n) as [Hlt|Hge].
  - by rewrite Z.shiftl_spec_low.
  - replace (Z.testbit l k) with false; [apply andb_false_r|].
    symmetry. destruct (decide (l = 0)) as [->|Hl0]; [apply Z.bits_0|].
    apply Z.bits_above_log2; [lia|].
    apply Z.log2_lt_pow2; [lia|].
    apply Z.lt_le_trans with (2 ^ n); [lia|]. apply Z.pow_le_mono_r; lia.
Qed.

Lemma inline_length_bytes_encode L :
  0 <= L <= 16777215 -> inline_length_bytes L = Ok (encode big_endian 3 L).
Proof.
  intros HL. unfold inline_length_bytes. cbn [pack code_size].
  rewrite Z.shiftr_div_pow2 by lia. change 0xff with (Z.ones 8).
  rewrite Z.land_ones by lia. change (2 ^ 8) with 256.
  pose proof (Z.mod_pos_bound L 256 ltac:(lia)).
  assert (0 <= L / 256 < 65536).
  { split; [apply Z.div_pos; lia|apply Z.div_lt_upper_bound; lia]. }
  rewrite !in_range_true by (cbn; lia). cbn [rbind].
  cbn [encode le_encode rev app].
  unfold byte_of_Z. by rewrite Z.mod_mod by lia.
Qed.

Lemma inline_length_three (b0 b1 b2 : byte) :
  inline_length [b0; b1; b2]
  = Ok (byte_to_Z b0 * 65536 + byte_to_Z b1 * 256 + byte_to_Z b2).
Proof.
  unfold inline_length, unpack. cbn [calcsize fold_right code_size length Nat.add].
  rewrite decide_True by done. cbn [rbind decode_fields take drop item nth decode rev app le_decode code_size].
  pose proof (byte_to_Z_range b0). pose proof (byte_to_Z_range b1).
  pose proof (byte_to_Z_range b2).
  rewrite lor_shiftl_low by lia. f_equal. lia.
Qed.

Lemma inline_length_encode L :
  0 <= L <= 16777215 -> inline_length (encode big_endian 3 L) = Ok L.
Proof.
  intros HL. cbn [encode le_encode rev app]. rewrite inline_length_three.
  rewrite !byte_to_of_Z. f_equal.
  pose proof (Z.div_mod L 256 ltac:(lia)).
  pose proof (Z.div_mod (L / 256) 256 ltac:(lia)).
  assert (0 <= L / 256 / 256 < 256).
  { split; [apply Z.div_pos; [apply Z.div_pos|]; lia|].
    apply Z.div_lt_upper_bound; [lia|]. apply Z.div_lt_upper_bound; lia. }
  rewrite (Z.mod_small (L / 256 / 256)) by lia. lia.
Qed.

(** ** Well-formed caches *)

Lemma filter_all {A} (P : A -> Prop) `{forall a, Decision (P a)} (l : list A) :
  (forall a, a ∈ l -> P a) -> filter P l = l.
Proof.
  induction l as [|a l IH]; intros Hall; [done|].
  rewrite filter_cons_True by (apply Hall; left).
  f_equal. apply IH. intros a' Ha'. apply Hall. by right.
Qed.

Section WfFacts.
Context {E : Type} `{EqDecision E}.
Implicit Types (s : FlaggedArraySet E) (e p q : E) (k x : E * bool).
Implicit Types (ks pre post rest : list (E * bool)).

Lemma wf_inv s :
  wf s ->
  exists ms ks off fc, s = mk ms ks off fc /\ NoDup ks.*1 /\ 0 < ms /\
    Z.of_nat (length ks) <= ms.
Proof.
  intros Hwf. exists (max_size s), (keys s), (offset s), (flag_count s).
  pose proof (wf_is_mk s Hwf) as Hs. destruct Hwf as [Hms Hlen _ _ _ Hnd].
  assert (Hl : len s = Z.of_nat (length (keys s))).
  { unfold len, keys. by rewrite length_fmap. }
  split_and!; try done. by rewrite <- Hl.
Qed.

Lemma keys_mk ms ks off fc : keys (mk ms ks off fc) = ks.
Proof. unfold keys. cbn. apply number_fst. Qed.

Lemma len_mk ms ks off fc : len (mk ms ks off fc) = Z.of_nat (length ks).
Proof. unfold len. cbn. by rewrite number_length. Qed.

Lemma contains_false_get_index s e : contains s e = false -> get_index s e = None.
Proof.
  unfold contains, get_index. intros Hc. apply orb_false_iff in Hc as [-> ->]. done.
Qed.

Lemma get_index_wf_Some s e (i : Z) :
  wf s -> get_index s e = Some i ->
  0 <= i < len s /\ get_by_index s i = Some e /\ contains s e = true.
Proof.
  intros Hwf Hi. destruct (wf_inv s Hwf) as (ms & ks & off & fc & -> & Hnd & _ & _).
  rewrite len_mk.
  apply get_index_mk_Some in Hi as [Hi0 [f Hf]]; [|done].
  pose proof (lookup_lt_Some _ _ _ Hf) as Hlt. split_and!; [lia|lia| |].
  - replace i with (Z.of_nat (Z.to_nat i)) by lia.
    by rewrite get_by_index_mk_nat, Hf.
  - apply contains_mk. apply list_elem_of_lookup_2 in Hf.
    by apply (list_elem_of_fmap_2 fst) in Hf.
Qed.

Lemma get_index_wf_None s e : wf s -> get_index s e = None -> contains s e = false.
Proof.
  intros Hwf Hi. destruct (wf_inv s Hwf) as (ms & ks & off & fc & -> & Hnd & _ & _).
  destruct (contains (mk ms ks off fc) e) eqn:Hc; [|done]. exfalso.
  apply contains_mk in Hc.
  apply list_elem_of_fmap in Hc as ([e' f] & -> & Hin).
  apply list_elem_of_lookup in Hin as [n Hn].
  by rewrite (get_index_mk_lookup _ _ _ _ _ _ _ Hnd Hn) in Hi.
Qed.

Lemma remove_wf s e :
  wf s ->
  remove e s = Returns tt (state_of (remove e s)) /\
  max_size (state_of (remove e s)) = max_size s /\
  keys (state_of (remove e s)) = filter (fun k => k.1 ≠ e) (keys s).
Proof.
  intros Hwf. destruct (wf_inv s Hwf) as (ms & ks & off & fc & -> & Hnd & _ & _).
  rewrite keys_mk.
  destruct (contains (mk ms ks off fc) e) eqn:Hc.
  2:{ rewrite remove_absent by done. cbn [state_of]. rewrite keys_mk.
      split_and!; try done.
      rewrite filter_all; [done|]. intros [e' f] Hin Heq. cbn in Heq. subst e'.
      apply not_true_iff_false in Hc. apply Hc, contains_mk.
      by apply (list_elem_of_fmap_2 fst) in Hin. }
  apply contains_mk in Hc. apply list_elem_of_fmap in Hc as (k & -> & Hin).
  apply list_elem_of_split in Hin as (pre & post & ->).
  rewrite remove_mk by done. cbn [state_of]. split_and!; [done|done|].
  rewrite keys_mk, filter_app, filter_cons_False by (intros Hne; by apply Hne).
  rewrite fmap_app, fmap_cons in Hnd.
  apply NoDup_app in Hnd as (_ & Hd & Hq). apply NoDup_cons in Hq as [Hq _].
  rewrite !filter_all; [done| |].
  - intros x Hx Heq. apply Hq. rewrite <- Heq. by apply (list_elem_of_fmap_2 fst).
  - intros x Hx Heq. apply (Hd x.1); [by apply (list_elem_of_fmap_2 fst)|].
    rewrite Heq. left.
Qed.

Lemma contains_keys s e : wf s -> contains s e = true <-> e ∈ (keys s).*1.
Proof.
  intros Hwf. destruct (wf_inv s Hwf) as (ms & ks & off & fc & -> & _).
  rewrite keys_mk. apply contains_mk.
Qed.
End WfFacts.

(** ** The two loops over the transactions of a block *)

Lemma set_send_transaction_cache_id s :
  set_send_transaction_cache (send_transaction_cache s) s = s.
Proof. by destruct s. Qed.

Lemma set_recv_transaction_cache_id s :
  set_recv_transaction_cache (recv_transaction_cache s) s = s.
Proof. by destruct s. Qed.

Lemma send_block_transaction_spec s tx :
  wf (send_transaction_cache s) -> max_size (send_transaction_cache s) <= 0xffff ->
  (contains (send_transaction_cache s) tx = false -> blen tx <= 16777215) ->
  send_block_transaction tx s
  = Returns (directive (send_transaction_cache s) tx)
      (set_send_transaction_cache (state_of (remove tx (send_transaction_cache s))) s).
Proof.
  intros Hwf Hcap Hfit. unfold send_block_transaction, directive, bind, get.
  destruct (get_index (send_transaction_cache s) tx) as [i|] eqn:Hi.
  - apply get_index_wf_Some in Hi as (Hi & _ & _); [|done].
    pose proof (wf_len _ Hwf).
    rewrite pack_one by (cbn; lia). cbn [lift].
    unfold on_send_cache. destruct (remove_wf _ tx Hwf) as (-> & _ & _). done.
  - apply get_index_wf_None in Hi; [|done]. specialize (Hfit Hi).
    rewrite pack_one by (cbn; lia). cbn [lift].
    rewrite inline_length_bytes_encode by (pose proof (blen_nonneg tx); lia).
    cbn [lift]. unfold ret. rewrite remove_absent by done. cbn [state_of].
    by rewrite set_send_transaction_cache_id.
Qed.

Lemma send_block_transactions_spec ts data pos rest acc s :
  Forall canonical_tx ts ->
  at_pos data pos (concat (map ser_tx ts) ++ rest) ->
  wf (send_transaction_cache s) -> max_size (send_transaction_cache s) <= 0xffff ->
  inline_fits (send_transaction_cache s) (map ser_tx ts) ->
  send_block_transactions (length ts) data pos acc s
  = Returns (acc ++ block_directives (send_transaction_cache s) (map ser_tx ts))
      (set_send_transaction_cache (remove_all (map ser_tx ts) (send_transaction_cache s)) s).
Proof.
  intros Hts. revert pos acc s.
  induction Hts as [|t ts Ht _ IH]; intros pos acc s Hat Hwf Hcap Hfit.
  - cbn. unfold ret. by rewrite app_nil_r, set_send_transaction_cache_id.
  - cbn [length map concat send_block_transactions block_directives inline_fits] in *.
    destruct Hfit as [Hfit Hfits]. rewrite <- app_assoc in Hat.
    unfold bind at 1. rewrite (skip_transaction_canonical _ _ _ _ Ht Hat). cbn [lift].
    rewrite (slice_at _ _ _ _ Hat). unfold bind at 1.
    rewrite send_block_transaction_spec by (try done; intros Hc; specialize (Hfit Hc); lia).
    destruct (remove_wf _ (ser_tx t) Hwf) as (_ & Hms & _).
    rewrite (IH (pos + blen (ser_tx t)) _ _).
    + cbn [send_transaction_cache set_send_transaction_cache].
      rewrite <- app_assoc. reflexivity.
    + by apply at_pos_app.
    + cbn [send_transaction_cache set_send_transaction_cache]. by apply wf_remove.
    + cbn [send_transaction_cache set_send_transaction_cache]. lia.
    + done.
Qed.

Lemma recv_block_transactions_spec txs acc r rest :
  sock_in r = block_directives (recv_transaction_cache r) txs ++ rest ->
  wf (recv_transaction_cache r) -> max_size (recv_transaction_cache r) <= 0xffff ->
  inline_fits (recv_transaction_cache r) txs ->
  recv_block_transactions (length txs) acc r
  = Returns (acc ++ concat txs)
      (set_sock_in rest
         (set_recv_transaction_cache (remove_all txs (recv_transaction_cache r)) r)).
Proof.
  revert acc r. induction txs as [|tx txs IH]; intros acc r Hin Hwf Hcap Hfit.
  - cbn in *. unfold ret. rewrite app_nil_r, set_recv_transaction_cache_id.
    destruct r; cbn in *. by subst.
  - cbn [length concat recv_block_transactions block_directives inline_fits] in *.
    destruct Hfit as [Hfit Hfits].
    set (c := recv_transaction_cache r) in *.
    set (c' := state_of (remove tx c)) in *.
    destruct (remove_wf _ tx Hwf) as (Hrm & Hms & _). fold c c' in Hrm, Hms.
    unfold directive in Hin. unfold bind at 1. unfold recv at 1. rewrite Hin.
    destruct (get_index c tx) as [i|] eqn:Hi.
    + apply get_index_wf_Some in Hi as (Hi & Hby & _); [|done].
      pose proof (wf_len _ Hwf). fold c in H.
      rewrite <- app_assoc.
      rewrite take_app_length', drop_app_length' by (by rewrite length_encode).
      unfold bind at 1. rewrite unpack_one by (by rewrite length_encode).
      rewrite decode_encode by (cbn; lia). cbn [lift item nth].
      destruct (Z.eqb_spec i 0xffff) as [Heq|_]; [lia|].
      unfold bind at 1, get at 1.
      cbn [recv_transaction_cache set_sock_in]. fold c. rewrite Hby.
      unfold bind at 1, on_recv_cache at 1.
      cbn [recv_transaction_cache set_sock_in]. fold c. rewrite Hrm.
      rewrite IH.
      * cbn. fold c c'. by rewrite <- app_assoc.
      * reflexivity.
      * cbn. fold c c'. by apply wf_remove.
      * cbn. fold c c'. lia.
      * cbn. by fold c c'.
    + apply get_index_wf_None in Hi; [|done]. specialize (Hfit Hi).
      pose proof (blen_nonneg tx).
      assert (Hc' : c' = c) by (unfold c'; by rewrite remove_absent).
      rewrite <- !app_assoc.
      rewrite take_app_length', drop_app_length' by (by rewrite length_encode).
      unfold bind at 1. rewrite unpack_one by (by rewrite length_encode).
      rewrite decode_encode by (cbn; lia). cbn [lift item nth].
      change (0xffff =? 0xffff) with true. cbv iota.
      unfold bind at 1, recv at 1. cbn [sock_in set_sock_in].
      rewrite take_app_length', drop_app_length' by (by rewrite length_encode).
      unfold bind at 1. rewrite inline_length_encode by lia. cbn [lift].
      destruct (Z.gtb_spec (blen tx) 1000000) as [Hgt|_]; [lia|].
      unfold bind at 1, recv at 1. cbn [sock_in set_sock_in].
      rewrite take_app_length', drop_app_length' by (unfold blen; lia).
      rewrite IH.
      * cbn. fold c c'. rewrite Hc'. by rewrite <- app_assoc.
      * cbn. fold c. by rewrite <- Hc'.
      * done.
      * done.
      * cbn. fold c. by rewrite <- Hc'.
Qed.

(** ** [provide_block] and the BLOCK branch of the receive loop *)

Lemma pack_frame_header type n :
  0 <= type < 2 ^ 32 -> 0 <= n < 2 ^ 32 ->
  pack big_endian [fmt_I; fmt_I; fmt_I] [MAGIC_BYTES; type; n] = Ok (frame_header type n).
Proof. intros Ht Hn. apply pack_3I; [unfold MAGIC_BYTES; lia|done|done]. Qed.

Lemma length_frame_header type n : length (frame_header type n) = 12%nat.
Proof. unfold frame_header. by rewrite !length_app, !length_encode. Qed.

Lemma unpack_frame_header type n :
  0 <= type < 2 ^ 32 -> 0 <= n < 2 ^ 32 ->
  unpack big_endian [fmt_I; fmt_I; fmt_I] (frame_header type n) = Ok [MAGIC_BYTES; type; n].
Proof. intros Ht Hn. apply unpack_pack. by apply pack_frame_header. Qed.

Lemma provide_block_spec b s :
  canonical_block b ->
  Z.of_nat (length (vtx b)) < 2 ^ 32 ->
  wf (send_transaction_cache s) -> max_size (send_transaction_cache s) <= 0xffff ->
  inline_fits (send_transaction_cache s) (block_txs b) ->
  sock_up s = true ->
  provide_block (ser_block b) s
  = Returns tt
      (set_sock_out (sock_out s ++ block_wire (send_transaction_cache s) b)
         (set_send_transaction_cache
            (remove_all (block_txs b) (send_transaction_cache s)) s)).
Proof.
  intros (Hhdr & Hn & Htxs) Hn32 Hwf Hcap Hfit Hup.
  set (n := Z.of_nat (length (vtx b))) in *.
  assert (Hat0 : at_pos (ser_block b) 0 (header b ++ compact_size n ++ concat (map ser_tx (vtx b)) ++ [])).
  { rewrite app_nil_r. apply at_pos_start. }
  apply at_pos_app in Hat0 as Hat1.
  replace (0 + blen (header b)) with 80 in Hat1 by (unfold blen; lia).
  unfold provide_block. unfold bind at 1.
  rewrite (decode_varint_compact_size _ _ n _ ltac:(lia) Hat1). cbn [lift fst snd].
  unfold except_OSError. unfold bind at 1.
  rewrite pack_frame_header by (unfold BLOCK_TYPE; lia). cbn [lift].
  replace (slice (ser_block b) 0 80) with (header b).
  2:{ symmetry. replace 80 with (0 + blen (header b)) by (unfold blen; lia).
      by eapply slice_at. }
  apply at_pos_app in Hat1. unfold n at 1. rewrite Nat2Z.id.
  unfold bind at 1.
  rewrite (send_block_transactions_spec _ _ _ _ _ _ Htxs Hat1 Hwf Hcap Hfit).
  unfold bind at 1.
  rewrite pack_frame_header by (unfold END_BLOCK_TYPE; lia). cbn [lift].
  unfold sendall. cbn [sock_up set_send_transaction_cache]. rewrite Hup.
  unfold block_wire, block_payload. fold n. unfold block_txs.
  cbn [sock_out set_send_transaction_cache]. by rewrite <- !app_assoc.
Qed.

Lemma compact_size_small n : 0 <= n < 0xfd ->
  pack little_endian [fmt_B] [n] = Ok (compact_size n).
Proof.
  intros Hn. rewrite pack_one by (cbn; lia). unfold compact_size.
  destruct (Z.ltb_spec n 0xfd); [done|lia].
Qed.

Lemma compact_size_medium n : 0xfd <= n < 0xffff ->
  pack little_endian [fmt_H] [n] = Ok (le_encode 2 n) /\ compact_size n = xfd :: le_encode 2 n.
Proof.
  intros Hn. rewrite pack_one by (cbn; lia). split; [done|]. unfold compact_size.
  destruct (Z.ltb_spec n 0xfd); [lia|]. destruct (Z.leb_spec n 0xffff); [done|lia].
Qed.

Lemma recv_block_spec b r rest :
  length (header b) = 80%nat ->
  Z.of_nat (length (vtx b)) <= 10000 ->
  wf (recv_transaction_cache r) -> max_size (recv_transaction_cache r) <= 0xffff ->
  inline_fits (recv_transaction_cache r) (block_txs b) ->
  sock_in r = block_payload (recv_transaction_cache r) b ++ frame_header END_BLOCK_TYPE 0 ++ rest ->
  recv_block (Z.of_nat (length (vtx b))) r
  = Returns tt
      (set_recipient_calls
         (recipient_calls r
          ++ [provide_block_header_call (header b); provide_block_call (ser_block b)])
         (set_sock_in rest
            (set_recv_transaction_cache
               (remove_all (block_txs b) (recv_transaction_cache r)) r))).
Proof.
  intros Hhdr Hn Hwf Hcap Hfit Hin.
  set (n := Z.of_nat (length (vtx b))) in *.
  unfold recv_block. destruct (Z.gtb_spec n 10000) as [?|_]; [lia|].
  unfold bind at 1, recv at 1. rewrite Hin. unfold block_payload.
  rewrite <- !app_assoc.
  replace (Z.to_nat 80) with (length (header b)) by lia.
  rewrite take_app_length, drop_app_length.
  unfold bind at 1, call_recipient at 1, modify at 1.
  cbn [recipient_calls set_sock_in].
  assert (Hcs : (if n <? 0xfd
                 then (let! c := lift (pack little_endian [fmt_B] [n]) in ret (header b ++ c))%py
                 else if n <? 0xffff
                 then (let! c := lift (pack little_endian [fmt_H] [n]) in ret (header b ++ [xfd] ++ c))%py
                 else if n <? 0xffffffff
                 then (let! c := lift (pack little_endian [fmt_I] [n]) in ret (header b ++ [xfe] ++ c))%py
                 else raise (ProtocolError "WTF?????"))
                = (ret (header b ++ compact_size n) : M RelayNetworkClient bytes)).
  { destruct (Z.ltb_spec n 0xfd).
    - unfold bind. rewrite compact_size_small by (unfold n; lia). done.
    - destruct (Z.ltb_spec n 0xffff); [|lia].
      destruct (compact_size_medium n ltac:(lia)) as [-> ->]. done. }
  rewrite Hcs. clear Hcs. unfold bind at 1, ret at 1.
  unfold n at 1. rewrite Nat2Z.id.
  replace (length (vtx b)) with (length (block_txs b)) at 1 by (unfold block_txs; by rewrite length_map).
  unfold bind at 1.
  erewrite recv_block_transactions_spec; [|reflexivity|done|done|done].
  unfold bind at 1, call_recipient at 1, modify at 1.
  unfold bind at 1, recv at 1. cbn [sock_in set_recipient_calls set_sock_in].
  change (Z.to_nat (3 * 4)) with 12%nat.
  rewrite take_app_length', drop_app_length' by (by rewrite length_frame_header).
  unfold bind at 1. rewrite unpack_frame_header by (unfold END_BLOCK_TYPE; lia). cbn [lift].
  rewrite decide_True by done. unfold ret.
  unfold ser_block, block_txs. fold n.
  cbn. rewrite <- !app_assoc. reflexivity.
Qed.

Lemma recv_message_block b r rest :
  length (header b) = 80%nat ->
  Z.of_nat (length (vtx b)) <= 10000 ->
  wf (recv_transaction_cache r) -> max_size (recv_transaction_cache r) <= 0xffff ->
  inline_fits (recv_transaction_cache r) (block_txs b) ->
  sock_in r = block_wire (recv_transaction_cache r) b ++ rest ->
  recv_message r
  = Returns tt
      (set_recipient_calls
         (recipient_calls r
          ++ [provide_block_header_call (header b); provide_block_call (ser_block b)])
         (set_sock_in rest
            (set_recv_transaction_cache
               (remove_all (block_txs b) (recv_transaction_cache r)) r))).
Proof.
  intros Hhdr Hn Hwf Hcap Hfit Hin.
  unfold recv_message. unfold bind at 1, recv at 1. rewrite Hin. unfold block_wire.
  rewrite <- !app_assoc. change (Z.to_nat (3 * 4)) with 12%nat.
  rewrite take_app_length', drop_app_length' by (by rewrite length_frame_header).
  unfold bind at 1. rewrite unpack_frame_header by (unfold BLOCK_TYPE; lia). cbn [lift item nth].
  change (negb (MAGIC_BYTES =? MAGIC_BYTES)) with false. cbv iota.
  destruct (Z.gtb_spec (Z.of_nat (length (vtx b))) 1000000) as [?|_]; [lia|].
  change (BLOCK_TYPE =? VERSION_TYPE) with false.
  change (BLOCK_TYPE =? BLOCK_TYPE) with true. cbv iota.
  erewrite recv_block_spec; [|done|done|done|done|done|reflexivity].
  reflexivity.
Qed.

(** ** The round trip *)

Lemma contains_remove_wf (c : FlaggedArraySet bytes) (tx q : bytes) :
  wf c -> contains (state_of (remove tx c)) q = true <-> contains c q = true /\ q ≠ tx.
Proof.
  intros Hwf. destruct (remove_wf c tx Hwf) as (_ & _ & Hk).
  rewrite !contains_keys by (try done; by apply wf_remove). rewrite Hk.
  rewrite !list_elem_of_fmap. split.
  - intros (k & -> & Hin). apply list_elem_of_filter in Hin as [Hne Hin]. split; [eauto|done].
  - intros [(k & -> & Hin) Hne]. exists k. split; [done|]. by apply list_elem_of_filter.
Qed.

Lemma remove_all_wf (txs : list bytes) (c : FlaggedArraySet bytes) :
  wf c ->
  wf (remove_all txs c) /\
  max_size (remove_all txs c) = max_size c /\
  keys (remove_all txs c) = filter (fun k => k.1 ∉ txs) (keys c).
Proof.
  revert c. induction txs as [|tx txs IH]; intros c Hwf.
  - cbn. split_and!; [done|done|]. rewrite filter_all; [done|].
    intros k _ Hin. inversion Hin.
  - cbn [remove_all fold_left]. fold (remove_all txs (state_of (remove tx c))).
    destruct (remove_wf c tx Hwf) as (_ & Hms & Hk).
    destruct (IH _ (wf_remove c tx Hwf)) as (Hwf' & Hms' & Hk').
    split_and!; [done|lia|]. rewrite Hk', Hk, list_filter_filter.
    apply list_filter_iff. intros k. rewrite not_elem_of_cons. tauto.
Qed.

Lemma contains_remove_all (txs : list bytes) (c : FlaggedArraySet bytes) (q : bytes) :
  wf c -> contains (remove_all txs c) q = true <-> contains c q = true /\ q ∉ txs.
Proof.
  intros Hwf. destruct (remove_all_wf txs c Hwf) as (Hwf' & _ & Hk).
  rewrite !contains_keys by done. rewrite Hk, !list_elem_of_fmap. split.
  - intros (k & -> & Hin). apply list_elem_of_filter in Hin as [Hne Hin]. split; [eauto|done].
  - intros [(k & -> & Hin) Hne]. exists k. split; [done|]. by apply list_elem_of_filter.
Qed.

Lemma inline_fits_intro (txs : list bytes) (c : FlaggedArraySet bytes) :
  wf c ->
  (forall tx, tx ∈ txs -> contains c tx = false -> blen tx <= 1000000) ->
  (forall (i j : nat) tx, i ≠ j -> txs !! i = Some tx -> txs !! j = Some tx ->
     blen tx <= 1000000) ->
  inline_fits c txs.
Proof.
  revert c. induction txs as [|tx txs IH]; intros c Hwf Habsent Htwice; [done|].
  cbn [inline_fits]. split.
  - apply Habsent. left.
  - apply IH.
    + by apply wf_remove.
    + intros tx' Hin Hc. destruct (contains c tx') eqn:Hc0.
      * destruct (decide (tx' = tx)) as [->|Hne].
        -- apply list_elem_of_lookup in Hin as [n Hn].
           by apply (Htwice 0%nat (S n) tx).
        -- assert (contains (state_of (remove tx c)) tx' = true) by (by apply contains_remove_wf).
           congruence.
      * apply Habsent; [by right|done].
    + intros i j tx' Hij Hi Hj. apply (Htwice (S i) (S j) tx'); [lia|done|done].
Qed.

(** C1 (as amended): for every canonical block B of at most 10 000
    transactions and every pair of identical send and receive caches (a
    reachable state of capacity at most 0xffff; [connect] builds them with
    capacity 1000), provided every transaction of B that is not in the cache
    and every transaction that occurs in B more than once is at most
    1 000 000 bytes long: [provide_block] writes a BLOCK message from which
    the BLOCK branch of the receive loop hands the recipient B's header and
    then B byte for byte, and afterwards both caches are the same state, the
    original one with exactly B's transactions removed. *)
Theorem block_roundtrip (b : Block) (c : FlaggedArraySet bytes)
    (s r : RelayNetworkClient) (rest : bytes) :
  canonical_block b ->
  Z.of_nat (length (vtx b)) <= 10000 ->
  reachable c -> max_size c <= 0xffff ->
  (forall tx, tx ∈ block_txs b -> contains c tx = false -> blen tx <= 1000000) ->
  (forall (i j : nat) tx, i ≠ j -> block_txs b !! i = Some tx -> block_txs b !! j = Some tx ->
     blen tx <= 1000000) ->
  send_transaction_cache s = c -> sock_up s = true ->
  recv_transaction_cache r = c ->
  exists wire c',
    provide_block (ser_block b) s
    = Returns tt (set_sock_out (sock_out s ++ wire) (set_send_transaction_cache c' s)) /\
    recv_message (set_sock_in (wire ++ rest) r)
    = Returns tt
        (set_recipient_calls
           (recipient_calls r
            ++ [provide_block_header_call (header b); provide_block_call (ser_block b)])
           (set_sock_in rest (set_recv_transaction_cache c' r))) /\
    max_size c' = max_size c /\
    keys c' = filter (fun k => k.1 ∉ block_txs b) (keys c) /\
    (forall q, contains c' q = true <-> contains c q = true /\ q ∉ block_txs b).
Proof.
  intros Hb Hn Hreach Hcap Habsent Htwice Hs Hup Hr.
  apply reachable_wf in Hreach as Hwf.
  pose proof (inline_fits_intro _ _ Hwf Habsent Htwice) as Hfit.
  destruct (remove_all_wf (block_txs b) c Hwf) as (_ & Hms & Hk).
  exists (block_wire c b), (remove_all (block_txs b) c). split_and!.
  - rewrite <- Hs. apply provide_block_spec; rewrite ?Hs; try done. lia.
  - destruct Hb as (Hhdr & _ & _).
    rewrite (recv_message_block b _ rest); cbn [recv_transaction_cache set_sock_in sock_in];
      rewrite ?Hr; done.
  - done.
  - done.
  - intros q. by apply contains_remove_all.
Qed.

(** ** What [add] does *)

Section AddFacts.
Context {E : Type} `{EqDecision E}.
Implicit Types (s : FlaggedArraySet E) (e p q : E) (k x : E * bool).
Implicit Types (ks pre post rest : list (E * bool)).

(** What [add] does to a well-formed cache that does not hold [e]. *)
Lemma add_wf_absent s e f :
  wf s -> contains s e = false ->
  add e f s = add_finish f (state_of (add e f s)) /\
  keys (state_of (add e f s))
  = (if len s <? max_size s then keys s else tail (keys s)) ++ [(e, f)] /\
  total (state_of (add e f s)) = total s + 1 /\
  flag_count (state_of (add e f s))
  = (if len s <? max_size s then flag_count s
     else match keys s with
          | (_, true) :: _ => flag_count s - 1
          | _ => flag_count s
          end).
Proof.
  intros Hwf Hc. destruct (wf_inv s Hwf) as (ms & ks & off & fc & -> & Hnd & Hms & Hcap).
  assert (Hnin : e ∉ ks.*1).
  { intros Hin. apply contains_mk with (ms := ms) (off := off) (fc := fc) in Hin. congruence. }
  rewrite len_mk, keys_mk. cbn [max_size mk].
  destruct (Z.ltb_spec (Z.of_nat (length ks)) ms) as [Hlt|Hge].
  - rewrite add_mk_room, state_of_add_finish by done. rewrite keys_mk.
    split_and!; [done|done| |done].
    cbn [total mk]. rewrite length_app. cbn [length]. lia.
  - destruct ks as [|k0 ks']; [cbn [length] in Hge; lia|].
    rewrite add_mk_full, state_of_add_finish;
      [|done|done|lia|by apply (NoDup_fmap_1 fst)].
    rewrite keys_mk. cbn [tail].
    split_and!; [done|done| |].
    + cbn [total mk]. rewrite length_app. cbn [length]. lia.
    + cbn [flag_count mk]. by destruct k0 as [e0 [|]].
Qed.

Lemma flag_count_add_le s e f : wf s -> flag_count (state_of (add e f s)) <= flag_count s.
Proof.
  intros Hwf. destruct (contains s e) eqn:Hc.
  - unfold add. rewrite Hc. cbn. lia.
  - destruct (add_wf_absent s e f Hwf Hc) as (_ & _ & _ & ->).
    destruct (len s <? max_size s); [lia|].
    destruct (keys s) as [|[? [|]] ?]; lia.
Qed.

Lemma flag_count_remove_le s e : wf s -> flag_count (state_of (remove e s)) <= flag_count s.
Proof.
  intros Hwf. destruct (wf_inv s Hwf) as (ms & ks & off & fc & -> & Hnd & _ & _).
  destruct (contains (mk ms ks off fc) e) eqn:Hc.
  2:{ rewrite remove_absent by done. cbn. lia. }
  apply contains_mk in Hc. apply list_elem_of_fmap in Hc as (k & -> & Hin).
  apply list_elem_of_split in Hin as (pre & post & ->).
  rewrite remove_mk by done. cbn. destruct k.2; lia.
Qed.

(** No path increments the counter, so it never rises above zero. *)
Lemma reachable_flag_count s : reachable s -> flag_count s <= 0.
Proof.
  induction 1 as [ms Hms|s e f Hr IH|s e Hr IH].
  - cbn. lia.
  - pose proof (flag_count_add_le s e f (reachable_wf s Hr)). lia.
  - pose proof (flag_count_remove_le s e (reachable_wf s Hr)). lia.
Qed.

(** C9 (as amended): on a reachable cache that does not hold p, add(p, true)
    raises AttributeError only after it has stored the entry: p is then in
    the cache, total has grown by one, and flag_count has not been
    incremented.  flag_count is unchanged when the cache had room; when
    the cache was full it is unchanged if the evicted oldest entry was
    unflagged and one lower if that entry was flagged. *)
Theorem add_flagged_raises_after_storing s p :
  reachable s -> contains s p = false ->
  exists s',
    add p true s = Raises (AttributeError "flalg_count") s' /\
    contains s' p = true /\
    total s' = total s + 1 /\
    flag_count s'
    = (if len s <? max_size s then flag_count s
       else match keys s with
            | (_, true) :: _ => flag_count s - 1
            | _ => flag_count s
            end).
Proof.
  intros Hr Hc. pose proof (reachable_wf s Hr) as Hwf.
  destruct (add_wf_absent s p true Hwf Hc) as (Hadd & Hk & Ht & Hf).
  exists (state_of (add p true s)). split_and!; [done| |done|done].
  apply contains_keys; [by apply wf_add|].
  rewrite Hk, fmap_app. apply elem_of_app. right. cbn. left.
Qed.
End AddFacts.

(** C5: the claim fails on the flagged path of [add]: on the fresh cache that
    [connect] builds, add(p, True) stores the entry and then raises
    AttributeError, whatever the payload. *)
Theorem add_flagged_raises_on_fresh_cache (p : bytes) :
  add p true (init 1000)
  = Raises (AttributeError "flalg_count") (mk 1000 [(p, true)] 0 0).
Proof.
  change (init 1000) with (mk 1000 ([] : list (bytes * bool)) 0 0).
  rewrite add_mk_room; [done| |cbn; lia]. cbn. inversion 1.
Qed.

(** ** The inline length is a 24-bit integer *)

Lemma byte_of_Z_mod (z : Z) : byte_of_Z z = byte_of_Z (z mod 256).
Proof. unfold byte_of_Z. by rewrite Z.mod_mod by lia. Qed.

(** C6: the three length bytes of an inline transaction are a 24-bit
    big-endian integer.  For every L <= 16 777 215 the sender's
    pack('>HB', L >> 8, L & 0xff) yields the bytes
    (L >> 16, (L >> 8) & 0xff, L & 0xff), which the receiver decodes back to
    L; the receiver decodes any three bytes b0 b1 b2 to
    (b0 << 16) | (b1 << 8) | b2, a value in that range which the sender
    encodes back to b0 b1 b2. *)
Theorem inline_length_is_24_bit_big_endian (L : Z) (b0 b1 b2 : byte) :
  0 <= L <= 16777215 ->
  (exists e0 e1 e2,
     inline_length_bytes L = Ok [e0; e1; e2] /\
     byte_to_Z e0 = Z.shiftr L 16 /\
     byte_to_Z e1 = Z.land (Z.shiftr L 8) 0xff /\
     byte_to_Z e2 = Z.land L 0xff /\
     inline_length [e0; e1; e2] = Ok L) /\
  inline_length [b0; b1; b2]
  = Ok (Z.lor (Z.lor (Z.shiftl (byte_to_Z b0) 16) (Z.shiftl (byte_to_Z b1) 8))
          (byte_to_Z b2)) /\
  (exists L', inline_length [b0; b1; b2] = Ok L' /\ 0 <= L' <= 16777215 /\
     inline_length_bytes L' = Ok [b0; b1; b2]).
Proof.
  intros HL. split_and!.
  - exists (byte_of_Z (Z.shiftr L 16)), (byte_of_Z (Z.land (Z.shiftr L 8) 0xff)),
      (byte_of_Z (Z.land L 0xff)).
    rewrite <- encode_big_3, inline_length_bytes_encode, inline_length_encode by done.
    rewrite !byte_to_of_Z. split_and!; try done.
    + apply Z.mod_small. rewrite Z.shiftr_div_pow2 by lia.
      split; [apply Z.div_pos; lia|apply Z.div_lt_upper_bound; lia].
    + change 0xff with (Z.ones 8). rewrite Z.land_ones by lia. apply Z.mod_mod. lia.
    + change 0xff with (Z.ones 8). rewrite Z.land_ones by lia. apply Z.mod_mod. lia.
  - rewrite inline_length_three. f_equal.
    pose proof (byte_to_Z_range b0) as R0. pose proof (byte_to_Z_range b1) as R1.
    pose proof (byte_to_Z_range b2) as R2.
    replace (Z.shiftl (byte_to_Z b0) 16) with (Z.shiftl (byte_to_Z b0 * 256) 8).
    2:{ rewrite !Z.shiftl_mul_pow2 by lia. lia. }
    rewrite (Z.lor_comm (Z.shiftl (byte_to_Z b0 * 256) 8)).
    rewrite <- (Z.shiftl_lor), (Z.lor_comm (byte_to_Z b1)).
    replace (byte_to_Z b0 * 256) with (Z.shiftl (byte_to_Z b0) 8)
      by (rewrite Z.shiftl_mul_pow2 by lia; lia).
    rewrite !lor_shiftl_low by (try rewrite lor_shiftl_low; lia). lia.
  - exists (byte_to_Z b0 * 65536 + byte_to_Z b1 * 256 + byte_to_Z b2).
    pose proof (byte_to_Z_range b0) as R0. pose proof (byte_to_Z_range b1) as R1.
    pose proof (byte_to_Z_range b2) as R2.
    split_and!; [apply inline_length_three|lia|lia|].
    rewrite inline_length_bytes_encode by lia.
    f_equal. cbn [encode le_encode rev app].
    set (v := byte_to_Z b0 * 65536 + byte_to_Z b1 * 256 + byte_to_Z b2).
    assert (H2 : v mod 256 = byte_to_Z b2).
    { unfold v. replace (byte_to_Z b0 * 65536 + byte_to_Z b1 * 256 + byte_to_Z b2)
        with (byte_to_Z b2 + (byte_to_Z b0 * 256 + byte_to_Z b1) * 256) by lia.
      rewrite Z.mod_add by lia. apply Z.mod_small. lia. }
    assert (Hd : v / 256 = byte_to_Z b0 * 256 + byte_to_Z b1).
    { unfold v. replace (byte_to_Z b0 * 65536 + byte_to_Z b1 * 256 + byte_to_Z b2)
        with (byte_to_Z b2 + (byte_to_Z b0 * 256 + byte_to_Z b1) * 256) by lia.
      rewrite Z.div_add by lia. rewrite Z.div_small by lia. lia. }
    assert (H1 : (v / 256) mod 256 = byte_to_Z b1).
    { rewrite Hd. rewrite Z.add_comm, Z.mod_add by lia. apply Z.mod_small. lia. }
    assert (H0 : v / 256 / 256 = byte_to_Z b0).
    { rewrite Hd. rewrite Z.add_comm, Z.div_add by lia. rewrite Z.div_small by lia. lia. }
    rewrite (byte_of_Z_mod (v / 256)), (byte_of_Z_mod v), H0, H1, H2.
    by rewrite !byte_of_to_Z.
Qed.

(** ** Errors on the receive and send paths *)

Lemma recv_block_transactions_oversize (n : nat) (block_data : bytes)
    (r : RelayNetworkClient) (b0 b1 b2 : byte) (rest : bytes) :
  byte_to_Z b0 * 65536 + byte_to_Z b1 * 256 + byte_to_Z b2 > 1000000 ->
  sock_in r = encode big_endian 2 0xffff ++ [b0; b1; b2] ++ rest ->
  recv_block_transactions (S n) block_data r
  = Raises (NameError "dat_length") (set_sock_in rest r).
Proof.
  intros Hbig Hin. cbn [recv_block_transactions].
  unfold bind at 1. unfold bind at 1, recv at 1. rewrite Hin.
  rewrite take_app_length', drop_app_length' by (by rewrite length_encode).
  unfold bind at 1. rewrite unpack_one by (by rewrite length_encode).
  rewrite decode_encode by (cbn; lia). cbn [lift item nth].
  change (0xffff =? 0xffff) with true. cbv iota.
  unfold bind at 1, recv at 1. cbn [sock_in set_sock_in].
  change (Z.to_nat 3) with 3%nat. cbn [take drop app].
  unfold bind at 1. rewrite inline_length_three. cbn [lift].
  destruct (Z.gtb_spec (byte_to_Z b0 * 65536 + byte_to_Z b1 * 256 + byte_to_Z b2) 1000000)
    as [_|?]; [|lia].
  reflexivity.
Qed.

Lemma recv_message_block_start (r : RelayNetworkClient) (count : Z)
    (header_data rest : bytes) :
  1 <= count <= 10000 ->
  length header_data = 80%nat ->
  sock_in r = frame_header BLOCK_TYPE count ++ header_data ++ rest ->
  exists block_data n,
    recv_message r
    = (let! block_data :=
         recv_block_transactions (S n) block_data in
       call_recipient (provide_block_call block_data) ;;;
       let! raw := recv (3 * 4) in
       let! trailer := lift (unpack big_endian [fmt_I; fmt_I; fmt_I] raw) in
       if decide (trailer = [MAGIC_BYTES; END_BLOCK_TYPE; 0]) then ret tt
       else raise (ProtocolError "Invalid END_BLOCK message after block"))%py
        (set_recipient_calls
           (recipient_calls r ++ [provide_block_header_call header_data])
           (set_sock_in rest r)).
Proof.
  intros Hcount Hhdr Hin.
  unfold recv_message. unfold bind at 1, recv at 1. rewrite Hin.
  change (Z.to_nat (3 * 4)) with 12%nat.
  rewrite take_app_length', drop_app_length' by (by rewrite length_frame_header).
  unfold bind at 1.
  rewrite unpack_frame_header by (unfold BLOCK_TYPE; lia). cbn [lift item nth].
  change (negb (MAGIC_BYTES =? MAGIC_BYTES)) with false. cbv iota.
  destruct (Z.gtb_spec count 1000000) as [?|_]; [lia|].
  change (BLOCK_TYPE =? VERSION_TYPE) with false.
  change (BLOCK_TYPE =? BLOCK_TYPE) with true. cbv iota.
  unfold recv_block. destruct (Z.gtb_spec count 10000) as [?|_]; [lia|].
  unfold bind at 1, recv at 1. cbn [sock_in set_sock_in].
  replace (Z.to_nat 80) with (length header_data) by lia.
  rewrite take_app_length, drop_app_length.
  unfold bind at 1, call_recipient at 1, modify at 1.
  cbn [recipient_calls set_sock_in].
  assert (Hblock : exists block_data,
            (if count <? 0xfd
             then (let! c := lift (pack little_endian [fmt_B] [count]) in
                   ret (header_data ++ c))%py
             else if count <? 0xffff
             then (let! c := lift (pack little_endian [fmt_H] [count]) in
                   ret (header_data ++ [xfd] ++ c))%py
             else if count <? 0xffffffff
             then (let! c := lift (pack little_endian [fmt_I] [count]) in
                   ret (header_data ++ [xfe] ++ c))%py
             else raise (ProtocolError "WTF?????"))
            = (ret block_data : M RelayNetworkClient bytes)).
  { destruct (Z.ltb_spec count 0xfd).
    - eexists. unfold bind. rewrite pack_one by (cbn; lia). reflexivity.
    - destruct (Z.ltb_spec count 0xffff); [|lia].
      eexists. unfold bind. rewrite pack_one by (cbn; lia). reflexivity. }
  destruct Hblock as [block_data ->]. unfold bind at 1, ret at 1.
  destruct (Z.to_nat count) as [|n] eqn:Hn; [lia|].
  exists block_data, n. reflexivity.
Qed.

(** C7: the claim fails on the exception that is raised.  In any pass of the
    loop over the directives of a BLOCK message, an inline mark 0xffff
    followed by three length bytes that decode to more than 1 000 000 stops
    the loop before any byte after the length is read, but what is raised is
    a NameError (the message of the intended ProtocolError names
    [dat_length]); when this is the first directive of a message, the
    connection is given up through the [except Exception] clause and not
    through the ProtocolError clause. *)
Theorem oversize_inline_length_raises_NameError
    (n : nat) (block_data : bytes) (r : RelayNetworkClient)
    (b0 b1 b2 : byte) (rest : bytes) :
  byte_to_Z b0 * 65536 + byte_to_Z b1 * 256 + byte_to_Z b2 > 1000000 ->
  sock_in r = encode big_endian 2 0xffff ++ [b0; b1; b2] ++ rest ->
  recv_block_transactions (S n) block_data r
  = Raises (NameError "dat_length") (set_sock_in rest r) /\
  forall (r0 : RelayNetworkClient) (count : Z) (header_data : bytes),
    1 <= count <= 10000 ->
    length header_data = 80%nat ->
    sock_in r0 = frame_header BLOCK_TYPE count ++ header_data ++ sock_in r ->
    let left := set_recipient_calls
                  (recipient_calls r0 ++ [provide_block_header_call header_data])
                  (set_sock_in rest r0) in
    recv_message r0 = Raises (NameError "dat_length") left /\
    connect_loop_step r0 = reconnects unknown_error left.
Proof.
  intros Hbig Hin.
  split; [exact (recv_block_transactions_oversize n block_data r b0 b1 b2 rest Hbig Hin)|].
  intros r0 count header_data Hcount Hhdr Hin0 left.
  assert (Hmsg : recv_message r0 = Raises (NameError "dat_length") left).
  { destruct (recv_message_block_start r0 count header_data (sock_in r) Hcount Hhdr Hin0)
      as (bd & m & ->).
    unfold bind at 1.
    rewrite (recv_block_transactions_oversize m bd _ b0 b1 b2 rest Hbig) by done.
    reflexivity. }
  split; [done|]. unfold connect_loop_step. by rewrite Hmsg.
Qed.

(** C3: the claim fails whenever the flag count is consulted.  For every
    transaction that is not in the send cache and whose length is above
    MAX_RELAY_TRANSACTION_BYTES and at most
    MAX_RELAY_OVERSIZE_TRANSACTION_BYTES, [provide_transaction] does not
    return: it raises a NameError to its caller, with nothing sent and the
    cache unchanged. *)
Theorem provide_transaction_oversize_raises_NameError
    (s : RelayNetworkClient) (transaction_data : bytes) :
  contains (send_transaction_cache s) transaction_data = false ->
  MAX_RELAY_TRANSACTION_BYTES < blen transaction_data
    <= MAX_RELAY_OVERSIZE_TRANSACTION_BYTES ->
  provide_transaction transaction_data s
  = Raises (NameError "MAX_EXTRA_OVERSIZE_TRANSACTIONS") s.
Proof.
  intros Hc [Hlo Hhi]. unfold provide_transaction, bind, get. rewrite Hc.
  destruct (Z.gtb_spec (blen transaction_data) MAX_RELAY_TRANSACTION_BYTES); [|lia].
  destruct (Z.gtb_spec (blen transaction_data) MAX_RELAY_OVERSIZE_TRANSACTION_BYTES); [lia|].
  reflexivity.
Qed.

(** C4: the claim fails on the flag.  An inbound TRANSACTION message whose
    length is above MAX_RELAY_TRANSACTION_BYTES and at most
    MAX_RELAY_OVERSIZE_TRANSACTION_BYTES passes admission on every reachable
    receive cache, is forwarded to the recipient, and is stored with flag
    false: the flag passed to [add] compares the length with
    MAX_RELAY_OVERSIZE_TRANSACTION_BYTES. *)
Theorem oversize_transaction_is_stored_unflagged
    (r : RelayNetworkClient) (payload rest : bytes) :
  MAX_RELAY_TRANSACTION_BYTES < blen payload <= MAX_RELAY_OVERSIZE_TRANSACTION_BYTES ->
  reachable (recv_transaction_cache r) ->
  contains (recv_transaction_cache r) payload = false ->
  sock_in r = frame_header TRANSACTION_TYPE (blen payload) ++ payload ++ rest ->
  exists c',
    recv_message r
    = Returns tt
        (set_recipient_calls (recipient_calls r ++ [provide_transaction_call payload])
           (set_sock_in rest (set_recv_transaction_cache c' r))) /\
    (payload, false) ∈ keys c' /\
    ((payload, true) ∉ keys c') /\
    flag_count c' <= flag_count (recv_transaction_cache r).
Proof.
  intros [Hlo Hhi] Hreach Hc Hin.
  unfold MAX_RELAY_TRANSACTION_BYTES, MAX_RELAY_OVERSIZE_TRANSACTION_BYTES in *.
  pose proof (reachable_wf _ Hreach) as Hwf.
  pose proof (reachable_flag_count _ Hreach) as Hfc.
  set (c := recv_transaction_cache r) in *.
  destruct (add_wf_absent c payload false Hwf Hc) as (Hadd & Hk & _ & _).
  exists (state_of (add payload false c)). split_and!.
  - unfold recv_message. unfold bind at 1, recv at 1. rewrite Hin.
    change (Z.to_nat (3 * 4)) with 12%nat.
    rewrite take_app_length', drop_app_length' by (by rewrite length_frame_header).
    unfold bind at 1.
    rewrite unpack_frame_header by (unfold TRANSACTION_TYPE; lia). cbn [lift item nth].
    change (negb (MAGIC_BYTES =? MAGIC_BYTES)) with false. cbv iota.
    destruct (Z.gtb_spec (blen payload) 1000000) as [?|_]; [lia|].
    change (TRANSACTION_TYPE =? VERSION_TYPE) with false.
    change (TRANSACTION_TYPE =? BLOCK_TYPE) with false.
    change (TRANSACTION_TYPE =? TRANSACTION_TYPE) with true. cbv iota.
    unfold recv_transaction. unfold bind at 1, get at 1.
    cbn [recv_transaction_cache set_sock_in]. fold c.
    unfold get_flag_count, MAX_RELAY_TRANSACTION_BYTES,
      MAX_RELAY_OVERSIZE_TRANSACTION_BYTES, MAX_EXTRA_OVERSIZE_TRANSACTIONS.
    destruct (Z.geb_spec (flag_count c) 20) as [?|_]; [lia|].
    destruct (Z.gtb_spec (blen payload) 250000) as [?|_]; [lia|].
    rewrite orb_false_r, andb_false_r.
    unfold bind at 1, recv at 1. cbn [sock_in set_sock_in].
    rewrite take_app_length', drop_app_length' by (unfold blen; lia).
    unfold bind at 1, on_recv_cache at 1. cbn [recv_transaction_cache set_sock_in].
    fold c. rewrite Hadd. cbn [add_finish]. reflexivity.
  - rewrite Hk. apply elem_of_app. right. left.
  - rewrite Hk. intros Hin'. apply elem_of_app in Hin' as [Hin'|Hin'].
    + assert (Hp : payload ∈ (keys c).*1).
      { destruct (len c <? max_size c).
        - by apply (list_elem_of_fmap_2 fst) in Hin'.
        - destruct (keys c) as [|k0 ks]; [inversion Hin'|]. cbn [tail] in Hin'.
          rewrite fmap_cons. right. by apply (list_elem_of_fmap_2 fst) in Hin'. }
      apply contains_keys in Hp; [congruence|done].
    + apply list_elem_of_singleton in Hin'. congruence.
  - by apply flag_count_add_le.
Qed.

(** C10: when [provide_block] finds a transaction in a reachable send cache
    of capacity 1000, the directive it writes is the two big-endian bytes of
    the cache's external index; that index is below 1000, the receiver
    unpacks the directive to the same index, which is not the inline mark
    0xffff; and the cache the removal leaves is again a reachable cache of
    capacity 1000, so the same holds for every later directive. *)
Theorem cached_directive_is_below_the_inline_mark
    (s : RelayNetworkClient) (transaction_data : bytes) (tx_index : Z) :
  reachable (send_transaction_cache s) ->
  max_size (send_transaction_cache s) = 1000 ->
  get_index (send_transaction_cache s) transaction_data = Some tx_index ->
  let c' := state_of (remove transaction_data (send_transaction_cache s)) in
  0 <= tx_index < 1000 /\
  send_block_transaction transaction_data s
  = Returns (encode big_endian 2 tx_index) (set_send_transaction_cache c' s) /\
  unpack big_endian [fmt_H] (encode big_endian 2 tx_index) = Ok [tx_index] /\
  (tx_index =? 0xffff) = false /\
  reachable c' /\ max_size c' = 1000.
Proof.
  intros Hreach Hcap Hi c'. pose proof (reachable_wf _ Hreach) as Hwf.
  pose proof (wf_len _ Hwf) as Hlen.
  destruct (get_index_wf_Some _ _ _ Hwf Hi) as (Hrange & _ & Hc).
  destruct (remove_wf _ transaction_data Hwf) as (_ & Hms & _).
  split_and!.
  - lia.
  - lia.
  - rewrite send_block_transaction_spec by (try done; try lia; congruence).
    unfold directive. by rewrite Hi.
  - rewrite unpack_one by (by rewrite length_encode).
    by rewrite decode_encode by (cbn; lia).
  - apply Z.eqb_neq. lia.
  - by apply reachable_remove.
  - unfold c'. lia.
Qed.

(** ** A block whose transactions are all cached *)

Lemma block_directives_all_cached (txs : list bytes) (c : FlaggedArraySet bytes) :
  wf c -> NoDup txs -> (forall tx, tx ∈ txs -> contains c tx = true) ->
  length (block_directives c txs) = (2 * length txs)%nat.
Proof.
  revert c. induction txs as [|tx txs IH]; intros c Hwf Hnd Hall; [done|].
  apply NoDup_cons in Hnd as [Hnin Hnd]. cbn [block_directives length].
  rewrite length_app, IH; [| by apply wf_remove | done |].
  - unfold directive. destruct (get_index c tx) as [i|] eqn:Hi.
    + rewrite length_encode. lia.
    + apply get_index_wf_None in Hi; [|done].
      rewrite Hall in Hi by left. discriminate.
  - intros tx' Hin. apply contains_remove_wf; [done|]. split.
    + apply Hall. by right.
    + intros ->. contradiction.
Qed.

Lemma cached_txs_bounded (txs : list bytes) (c : FlaggedArraySet bytes) :
  wf c -> NoDup txs -> (forall tx, tx ∈ txs -> contains c tx = true) ->
  Z.of_nat (length txs) <= max_size c.
Proof.
  intros Hwf Hnd Hall. pose proof (wf_len _ Hwf) as Hlen.
  assert (Hsub : txs ⊆+ (keys c).*1).
  { apply NoDup_submseteq; [done|]. intros tx Hin. apply contains_keys; auto. }
  apply submseteq_length in Hsub. rewrite length_fmap in Hsub.
  unfold len in Hlen. unfold keys in Hsub. rewrite length_fmap in Hsub. lia.
Qed.

(** C8 (as amended): for every canonical block B whose transactions are
    pairwise distinct and all present in a reachable send cache (capacity at
    most 0xffff), what [provide_block] writes between the 12-byte BLOCK frame
    header and the 12-byte END_BLOCK frame is exactly 80 + 2 * tx_count
    bytes: the transaction count travels in the frame header and no compact
    size is written. *)
Theorem all_cached_block_payload_size (b : Block) (s : RelayNetworkClient) :
  canonical_block b ->
  reachable (send_transaction_cache s) ->
  max_size (send_transaction_cache s) <= 0xffff ->
  NoDup (block_txs b) ->
  (forall tx, tx ∈ block_txs b -> contains (send_transaction_cache s) tx = true) ->
  sock_up s = true ->
  exists payload s',
    provide_block (ser_block b) s = Returns tt s' /\
    sock_out s'
    = sock_out s ++ frame_header BLOCK_TYPE (Z.of_nat (length (vtx b)))
      ++ payload ++ frame_header END_BLOCK_TYPE 0 /\
    blen payload = 80 + 2 * Z.of_nat (length (vtx b)).
Proof.
  intros Hb Hreach Hcap Hnd Hall Hup. pose proof (reachable_wf _ Hreach) as Hwf.
  pose proof (cached_txs_bounded _ _ Hwf Hnd Hall) as Hcount.
  unfold block_txs in Hcount. rewrite length_map in Hcount.
  assert (Hfit : inline_fits (send_transaction_cache s) (block_txs b)).
  { apply inline_fits_intro; [done| |].
    - intros tx Hin Hc. rewrite Hall in Hc by done. discriminate.
    - intros i j tx Hij Hi Hj. destruct Hij. by eapply NoDup_lookup. }
  eexists (block_payload (send_transaction_cache s) b), _. split_and!.
  - apply provide_block_spec; try done. lia.
  - reflexivity.
  - unfold block_payload. rewrite blen_app. unfold blen.
    rewrite block_directives_all_cached by done.
    destruct Hb as (-> & _ & _). unfold block_txs. rewrite length_map. lia.
Qed.

(** ** Inputs on which a claim fails *)

Lemma recv_message_block_too_many (r : RelayNetworkClient) (count : Z) (rest : bytes) :
  10000 < count <= 1000000 ->
  sock_in r = frame_header BLOCK_TYPE count ++ rest ->
  recv_message r
  = Raises (ProtocolError "Got a BLOCK message with far too many transactions")
      (set_sock_in rest r).
Proof.
  intros Hcount Hin. unfold recv_message. unfold bind at 1, recv at 1. rewrite Hin.
  change (Z.to_nat (3 * 4)) with 12%nat.
  rewrite take_app_length', drop_app_length' by (by rewrite length_frame_header).
  unfold bind at 1.
  rewrite unpack_frame_header by (unfold BLOCK_TYPE; lia). cbn [lift item nth].
  change (negb (MAGIC_BYTES =? MAGIC_BYTES)) with false. cbv iota.
  destruct (Z.gtb_spec count 1000000) as [?|_]; [lia|].
  change (BLOCK_TYPE =? VERSION_TYPE) with false.
  change (BLOCK_TYPE =? BLOCK_TYPE) with true. cbv iota.
  unfold recv_block. destruct (Z.gtb_spec count 10000) as [_|?]; [|lia].
  reflexivity.
Qed.

Lemma canonical_minimal_tx : canonical_tx minimal_tx.
Proof. unfold canonical_tx. cbn. split_and!; try done; constructor. Qed.

Lemma canonical_crowded_block : canonical_block crowded_block.
Proof.
  unfold canonical_block, crowded_block. cbn [header vtx].
  rewrite !length_replicate. split_and!; [done|lia|].
  apply Forall_forall. intros t Ht.
  assert (Hall : forall y, y ∈ replicate (Z.to_nat 10001) minimal_tx -> y = minimal_tx).
  { by apply (replicate_as_elem_of minimal_tx (Z.to_nat 10001)). }
  rewrite (Hall t Ht). apply canonical_minimal_tx.
Qed.

(** C1: the claim fails on a block of more than 10 000 transactions. *)
Lemma block_roundtrip_counterexample :
  canonical_block crowded_block /\
  send_transaction_cache (connected []) = init 1000 /\
  (forall rest, recv_transaction_cache (connected rest) = init 1000) /\
  exists wire sent,
    provide_block (ser_block crowded_block) (connected []) = Returns tt sent /\
    sock_out sent = sock_out (connected []) ++ wire /\
    forall rest, exists left,
      recv_message (connected (wire ++ rest))
      = Raises (ProtocolError "Got a BLOCK message with far too many transactions") left.
Proof.
  split_and!; [apply canonical_crowded_block|done|done|].
  assert (Hwf : wf (send_transaction_cache (connected []))).
  { apply reachable_wf. cbn. apply reachable_init. lia. }
  assert (Htxs : forall tx, tx ∈ block_txs crowded_block -> blen tx <= 1000000).
  { intros tx Hin. unfold block_txs, crowded_block in Hin. cbn [vtx] in Hin.
    apply list_elem_of_fmap in Hin as (t & -> & Ht).
    assert (Hall : forall y, y ∈ replicate (Z.to_nat 10001) minimal_tx -> y = minimal_tx).
    { by apply (replicate_as_elem_of minimal_tx (Z.to_nat 10001)). }
    rewrite (Hall t Ht). by vm_compute. }
  eexists (block_wire (init 1000) crowded_block), _. split_and!.
  - apply provide_block_spec.
    + apply canonical_crowded_block.
    + cbn [vtx crowded_block]. rewrite length_replicate. lia.
    + done.
    + cbn. lia.
    + apply inline_fits_intro; [done| |].
      * intros tx Hin _. by apply Htxs.
      * intros i j tx _ Hi _. apply Htxs. by eapply list_elem_of_lookup_2.
    + done.
  - reflexivity.
  - intros rest. eexists. apply (recv_message_block_too_many _ 10001); [lia|].
    cbn [sock_in connected]. unfold block_wire. cbn [vtx crowded_block].
    rewrite length_replicate, Z2Nat.id by lia. rewrite <- !app_assoc. reflexivity.
Qed.

(** C8: the claim fails on a block of one cached transaction. *)
Lemma all_cached_payload_size_counterexample :
  canonical_block one_tx_block /\
  (forall tx, tx ∈ block_txs one_tx_block ->
     contains (send_transaction_cache one_tx_client) tx = true) /\
  exists payload sent,
    provide_block (ser_block one_tx_block) one_tx_client = Returns tt sent /\
    sock_out sent
    = sock_out one_tx_client ++ frame_header BLOCK_TYPE 1 ++ payload
      ++ frame_header END_BLOCK_TYPE 0 /\
    blen payload = 82 /\
    blen (payload ++ frame_header END_BLOCK_TYPE 0) = 94 /\
    80 + blen (compact_size 1) + 2 * 1 = 83.
Proof.
  split_and!.
  - unfold canonical_block. cbn. split_and!; [done|lia|].
    constructor; [apply canonical_minimal_tx|constructor].
  - intros tx Hin. cbn in Hin. apply list_elem_of_singleton in Hin. subst tx.
    by vm_compute.
  - exists (replicate 80 x00 ++ [x00; x00]),
      (state_of (provide_block (ser_block one_tx_block) one_tx_client)).
    split_and!; by vm_compute.
Qed.

Lemma reachable_fold_add (l : list nat) (f : nat -> bytes) (g : nat -> bool)
    (s : FlaggedArraySet bytes) :
  reachable s -> reachable (fold_left (fun s n => state_of (add (f n) (g n) s)) l s).
Proof.
  revert s. induction l as [|n l IH]; intros s Hs; [done|].
  cbn [fold_left]. apply IH. by apply reachable_add.
Qed.

(** C9: the claim fails on a full cache whose oldest entry is flagged. *)
Lemma add_flagged_changes_flag_count_counterexample :
  reachable full_cache /\
  contains full_cache (filler 1000) = false /\
  flag_count full_cache = 0 /\
  flag_count (state_of (add (filler 1000) true full_cache)) = -1.
Proof.
  split_and!.
  - apply reachable_fold_add, reachable_init. lia.
  - by vm_compute.
  - by vm_compute.
  - by vm_compute.
Qed.

(** ** The theorems at concrete inputs *)

Lemma remove_keeps_indices_dense_witness :
  reachable three_cache /\ get_index three_cache [x02] = Some 1 /\
  exists s',
    remove [x02] three_cache = Returns tt s' /\
    len s' = len three_cache - 1 /\
    (forall q, contains s' q = true <-> contains three_cache q = true /\ q ≠ [x02]) /\
    (forall j, is_Some (get_by_index s' j) <-> 0 <= j < len s') /\
    (forall q j, q ≠ [x02] -> get_index three_cache q = Some j ->
       j ≠ 1 /\
       get_index s' q = Some (if j <? 1 then j else j - 1) /\
       get_by_index s' (if j <? 1 then j else j - 1) = Some q).
Proof.
  assert (Hr : reachable three_cache).
  { unfold three_cache. repeat apply reachable_add. apply reachable_init. lia. }
  assert (Hi : get_index three_cache [x02] = Some 1) by (by vm_compute).
  split_and!; [exact Hr|exact Hi|].
  exact (remove_keeps_indices_dense three_cache [x02] 1 Hr Hi).
Defined.

Lemma provide_transaction_oversize_raises_NameError_witness :
  provide_transaction (replicate (Z.to_nat 10001) x00) (connected [])
  = Raises (NameError "MAX_EXTRA_OVERSIZE_TRANSACTIONS") (connected []).
Proof.
  apply provide_transaction_oversize_raises_NameError.
  - reflexivity.
  - unfold blen. rewrite length_replicate.
    unfold MAX_RELAY_TRANSACTION_BYTES, MAX_RELAY_OVERSIZE_TRANSACTION_BYTES. lia.
Defined.

Lemma oversize_transaction_is_stored_unflagged_witness :
  let payload := replicate (Z.to_nat 10001) x00 in
  exists c',
    recv_message (connected (frame_header TRANSACTION_TYPE 10001 ++ payload ++ []))
    = Returns tt
        (set_recipient_calls [provide_transaction_call payload]
           (set_sock_in [] (set_recv_transaction_cache c'
              (connected (frame_header TRANSACTION_TYPE 10001 ++ payload ++ []))))) /\
    (payload, false) ∈ keys c' /\
    ((payload, true) ∉ keys c') /\
    flag_count c' <= 0.
Proof.
  intros payload.
  apply (oversize_transaction_is_stored_unflagged
           (connected (frame_header TRANSACTION_TYPE 10001 ++ payload ++ [])) payload []).
  - unfold blen, payload. rewrite length_replicate.
    unfold MAX_RELAY_TRANSACTION_BYTES, MAX_RELAY_OVERSIZE_TRANSACTION_BYTES. lia.
  - cbn. apply reachable_init. lia.
  - reflexivity.
  - cbn [sock_in connected]. unfold blen, payload. rewrite length_replicate.
    by rewrite Z2Nat.id by lia.
Defined.

Lemma inline_length_is_24_bit_big_endian_witness :
  (exists e0 e1 e2,
     inline_length_bytes 70000 = Ok [e0; e1; e2] /\
     byte_to_Z e0 = Z.shiftr 70000 16 /\
     byte_to_Z e1 = Z.land (Z.shiftr 70000 8) 0xff /\
     byte_to_Z e2 = Z.land 70000 0xff /\
     inline_length [e0; e1; e2] = Ok 70000) /\
  inline_length [x01; x11; x70]
  = Ok (Z.lor (Z.lor (Z.shiftl (byte_to_Z x01) 16) (Z.shiftl (byte_to_Z x11) 8))
          (byte_to_Z x70)) /\
  (exists L', inline_length [x01; x11; x70] = Ok L' /\ 0 <= L' <= 16777215 /\
     inline_length_bytes L' = Ok [x01; x11; x70]).
Proof.
  apply (inline_length_is_24_bit_big_endian 70000 x01 x11 x70). lia.
Defined.

Lemma oversize_inline_length_raises_NameError_witness :
  let r := connected (encode big_endian 2 0xffff ++ [x0f; x42; x41] ++ [x2a]) in
  recv_block_transactions 1 (replicate 80 x00 ++ [x01]) r
  = Raises (NameError "dat_length") (set_sock_in [x2a] r) /\
  forall (r0 : RelayNetworkClient) (count : Z) (header_data : bytes),
    1 <= count <= 10000 ->
    length header_data = 80%nat ->
    sock_in r0 = frame_header BLOCK_TYPE count ++ header_data ++ sock_in r ->
    let left := set_recipient_calls
                  (recipient_calls r0 ++ [provide_block_header_call header_data])
                  (set_sock_in [x2a] r0) in
    recv_message r0 = Raises (NameError "dat_length") left /\
    connect_loop_step r0 = reconnects unknown_error left.
Proof.
  intros r.
  apply (oversize_inline_length_raises_NameError 0 (replicate 80 x00 ++ [x01]) r
           x0f x42 x41 [x2a]).
  - by vm_compute.
  - reflexivity.
Defined.

Lemma canonical_one_tx_block : canonical_block one_tx_block.
Proof.
  unfold canonical_block. cbn. split_and!; [done|lia|].
  constructor; [apply canonical_minimal_tx|constructor].
Defined.

Lemma all_cached_block_payload_size_witness :
  exists payload s',
    provide_block (ser_block one_tx_block) one_tx_client = Returns tt s' /\
    sock_out s'
    = sock_out one_tx_client ++ frame_header BLOCK_TYPE (Z.of_nat (length (vtx one_tx_block)))
      ++ payload ++ frame_header END_BLOCK_TYPE 0 /\
    blen payload = 80 + 2 * Z.of_nat (length (vtx one_tx_block)).
Proof.
  apply all_cached_block_payload_size.
  - apply canonical_one_tx_block.
  - apply reachable_add, reachable_init. lia.
  - by vm_compute.
  - cbn. apply NoDup_singleton.
  - intros tx Hin. cbn in Hin. apply list_elem_of_singleton in Hin. subst tx.
    by vm_compute.
  - reflexivity.
Defined.

Lemma add_flagged_raises_after_storing_witness :
  exists s',
    add [x09] true three_cache = Raises (AttributeError "flalg_count") s' /\
    contains s' [x09] = true /\
    total s' = total three_cache + 1 /\
    flag_count s'
    = (if len three_cache <? max_size three_cache then flag_count three_cache
       else match keys three_cache with
            | (_, true) :: _ => flag_count three_cache - 1
            | _ => flag_count three_cache
            end).
Proof.
  apply add_flagged_raises_after_storing.
  - unfold three_cache. repeat apply reachable_add. apply reachable_init. lia.
  - by vm_compute.
Defined.

Lemma cached_directive_is_below_the_inline_mark_witness :
  let c' := state_of (remove (ser_tx minimal_tx) (send_transaction_cache one_tx_client)) in
  0 <= 0 < 1000 /\
  send_block_transaction (ser_tx minimal_tx) one_tx_client
  = Returns (encode big_endian 2 0) (set_send_transaction_cache c' one_tx_client) /\
  unpack big_endian [fmt_H] (encode big_endian 2 0) = Ok [0] /\
  (0 =? 0xffff) = false /\
  reachable c' /\ max_size c' = 1000.
Proof.
  apply (cached_directive_is_below_the_inline_mark one_tx_client (ser_tx minimal_tx) 0).
  - apply reachable_add, reachable_init. lia.
  - by vm_compute.
  - by vm_compute.
Defined.

Lemma canonical_spending_tx : canonical_tx spending_tx.
Proof.
  unfold canonical_tx. cbn. split_and!; try done.
  - repeat constructor.
  - repeat constructor.
Defined.

Lemma block_roundtrip_witness :
  exists wire c',
    provide_block (ser_block two_tx_block) two_tx_sender
    = Returns tt (set_sock_out (sock_out two_tx_sender ++ wire)
                    (set_send_transaction_cache c' two_tx_sender)) /\
    recv_message (set_sock_in (wire ++ [x2a]) two_tx_receiver)
    = Returns tt
        (set_recipient_calls
           (recipient_calls two_tx_receiver
            ++ [provide_block_header_call (header two_tx_block);
                provide_block_call (ser_block two_tx_block)])
           (set_sock_in [x2a] (set_recv_transaction_cache c' two_tx_receiver))) /\
    max_size c' = max_size one_tx_cache /\
    keys c' = filter (fun k => k.1 ∉ block_txs two_tx_block) (keys one_tx_cache) /\
    (forall q, contains c' q = true
               <-> contains one_tx_cache q = true /\ q ∉ block_txs two_tx_block).
Proof.
  assert (Hsmall : forall tx, tx ∈ block_txs two_tx_block -> blen tx <= 1000000).
  { intros tx Hin. cbn in Hin.
    apply elem_of_cons in Hin as [->|Hin]; [by vm_compute|].
    apply list_elem_of_singleton in Hin. subst tx. by vm_compute. }
  apply (block_roundtrip two_tx_block one_tx_cache two_tx_sender two_tx_receiver [x2a]).
  - unfold canonical_block. cbn. split_and!; [done|lia|].
    constructor; [apply canonical_minimal_tx|].
    constructor; [apply canonical_spending_tx|constructor].
  - cbn. lia.
  - apply reachable_add, reachable_init. lia.
  - by vm_compute.
  - intros tx Hin _. by apply Hsmall.
  - intros i j tx _ Hi _. apply Hsmall. by eapply list_elem_of_lookup_2.
  - reflexivity.
  - reflexivity.
  - reflexivity.
Defined.

(** * Behaviour of the caches, the client and the relayer *)

(** ** FlaggedArraySet *)

Section CacheExtras.
Context {E : Type} `{EqDecision E}.
Implicit Types (s : FlaggedArraySet E) (e p q : E) (k x : E * bool).
Implicit Types (ks pre post rest : list (E * bool)).

Lemma get_index_keys s e (i : Z) :
  wf s ->
  get_index s e = Some i <-> 0 <= i /\ exists f, keys s !! Z.to_nat i = Some (e, f).
Proof.
  intros Hwf. destruct (wf_inv s Hwf) as (ms & ks & off & fc & -> & Hnd & _ & _).
  rewrite keys_mk. split.
  - by apply get_index_mk_Some.
  - intros [Hi [f Hf]]. replace i with (Z.of_nat (Z.to_nat i)) by lia.
    by eapply get_index_mk_lookup.
Qed.

Lemma get_by_index_keys s (i : Z) :
  wf s ->
  get_by_index s i = if bool_decide (0 <= i) then fst <$> keys s !! Z.to_nat i else None.
Proof.
  intros Hwf. destruct (wf_inv s Hwf) as (ms & ks & off & fc & -> & Hnd & _ & _).
  rewrite keys_mk. case_bool_decide as Hi.
  - replace i with (Z.of_nat (Z.to_nat i)) at 1 by lia. apply get_by_index_mk_nat.
  - apply get_by_index_mk_outside. lia.
Qed.

Lemma len_keys s : len s = Z.of_nat (length (keys s)).
Proof. unfold len, keys. by rewrite length_fmap. Qed.

Lemma wf_nodup_keys s : wf s -> NoDup (keys s).
Proof. intros Hwf. apply (NoDup_fmap_1 fst). apply Hwf. Qed.

(** X1: On every cache built by the constructor, [add] and [remove], [get_index]
    and [get_by_index] are inverse to each other, the indices in use are exactly
    0 .. len-1, and [contains] holds exactly for the entries that have an index. *)
Theorem cache_indices_are_a_bijection s :
  reachable s ->
  (forall e i, get_index s e = Some i <-> get_by_index s i = Some e) /\
  (forall i, is_Some (get_by_index s i) <-> 0 <= i < len s) /\
  (forall e, contains s e = true <-> is_Some (get_index s e)).
Proof.
  intros Hr. pose proof (reachable_wf s Hr) as Hwf. split_and!.
  - intros e i. split.
    + intros Hi. by apply (get_index_wf_Some s e i Hwf).
    + intros Hi. rewrite get_by_index_keys in Hi by done.
      case_bool_decide as Hi0; [|done].
      apply fmap_Some in Hi as ([e' f] & Hk & ->).
      apply get_index_keys; [done|]. split; [done|]. by exists f.
  - intros i. rewrite get_by_index_keys, len_keys by done. case_bool_decide as Hi0.
    + rewrite fmap_is_Some, lookup_lt_is_Some. lia.
    + split; [by intros [? ?]|lia].
  - intros e. split.
    + intros Hc. destruct (get_index s e) eqn:Hi; [done|].
      apply get_index_wf_None in Hi; [congruence|done].
    + intros [i Hi]. by apply (get_index_wf_Some s e i Hwf).
Qed.
End CacheExtras.

Lemma elem_of_drop_elem_of {A} (n : nat) (l : list A) (a : A) : a ∈ drop n l -> a ∈ l.
Proof.
  intros Hin. apply list_elem_of_lookup in Hin as [i Hi].
  rewrite lookup_drop in Hi. by eapply list_elem_of_lookup_2.
Qed.

Lemma tail_drop {A} (n : nat) (l : list A) : tail (drop n l) = drop (S n) l.
Proof.
  revert l. induction n as [|n IH]; intros [|a l]; cbn; done.
Qed.

Section CacheExtras2.
Context {E : Type} `{EqDecision E}.
Implicit Types (s : FlaggedArraySet E) (e p q : E) (k x : E * bool).
Implicit Types (ks pre post rest : list (E * bool)).

Lemma add_present_wf s e f : contains s e = true -> add e f s = Returns tt s.
Proof. intros Hc. unfold add. by rewrite Hc. Qed.

Lemma offset_max_size_add s e f :
  wf s ->
  offset s <= offset (state_of (add e f s)) /\
  max_size (state_of (add e f s)) = max_size s.
Proof.
  intros Hwf. destruct (contains s e) eqn:Hc.
  { rewrite add_present_wf by done. cbn. lia. }
  destruct (wf_inv s Hwf) as (ms & ks & off & fc & -> & Hnd & Hms & Hcap).
  assert (Hnin : e ∉ ks.*1).
  { intros Hin. apply contains_mk with (ms := ms) (off := off) (fc := fc) in Hin. congruence. }
  destruct (decide (Z.of_nat (length ks) < ms)) as [Hlt|Hge].
  - rewrite add_mk_room, state_of_add_finish by done. cbn. lia.
  - destruct ks as [|k0 ks']; [cbn [length] in Hge; lia|].
    rewrite add_mk_full, state_of_add_finish;
      [|done|done|lia|by apply (NoDup_fmap_1 fst)].
    cbn. lia.
Qed.

Lemma offset_remove s e : wf s -> offset s <= offset (state_of (remove e s)).
Proof.
  intros Hwf. destruct (wf_inv s Hwf) as (ms & ks & off & fc & -> & Hnd & _ & _).
  destruct (contains (mk ms ks off fc) e) eqn:Hc.
  2:{ rewrite remove_absent by done. cbn. lia. }
  apply contains_mk in Hc. apply list_elem_of_fmap in Hc as (k & -> & Hin).
  apply list_elem_of_split in Hin as (pre & post & ->).
  rewrite remove_mk by done. cbn. lia.
Qed.

Lemma reachable_offset s : reachable s -> 0 <= offset s.
Proof.
  induction 1 as [ms Hms|s e f Hr IH|s e Hr IH].
  - cbn. lia.
  - pose proof (offset_max_size_add s e f (reachable_wf s Hr)). lia.
  - pose proof (offset_remove s e (reachable_wf s Hr)). lia.
Qed.

(** X2: On every reachable cache the length lies between 0 and [max_size],
    [offset] is not negative, [total] is [offset] plus the length, and the flag
    count is never positive. *)
Theorem cache_bookkeeping_invariant s :
  reachable s ->
  0 <= len s <= max_size s /\
  0 <= offset s /\
  total s = offset s + len s /\
  get_flag_count s <= 0.
Proof.
  intros Hr. pose proof (reachable_wf s Hr) as Hwf. split_and!.
  - unfold len. lia.
  - apply Hwf.
  - by apply reachable_offset.
  - apply Hwf.
  - by apply reachable_flag_count.
Qed.

(** X3: [add] with [flag = False] of a payload that is not in a reachable cache
    returns and puts the payload at the last index. With room left every other
    entry keeps its index; on a full cache the entry of index 0 is evicted and
    every other entry moves down by one. *)
Theorem add_unflagged_appends s p :
  reachable s -> contains s p = false ->
  exists s',
    add p false s = Returns tt s' /\
    len s' = (if len s <? max_size s then len s + 1 else len s) /\
    get_index s' p = Some (len s' - 1) /\
    get_by_index s' (len s' - 1) = Some p /\
    (forall q j, get_index s q = Some j ->
       if len s <? max_size s then get_index s' q = Some j
       else if j =? 0 then contains s' q = false
       else get_index s' q = Some (j - 1)).
Proof.
  intros Hr Hc. pose proof (reachable_wf s Hr) as Hwf.
  destruct (add_wf_absent s p false Hwf Hc) as (Hadd & Hk & _ & _).
  set (s' := state_of (add p false s)) in *.
  assert (Hwf' : wf s') by (by apply wf_add).
  pose proof (wf_capacity _ Hwf) as Hms. pose proof (wf_len _ Hwf) as Hcap.
  rewrite len_keys in Hcap.
  assert (Hlen : len s' = if len s <? max_size s then len s + 1 else len s).
  { rewrite (len_keys s'), Hk, length_app, (len_keys s). cbn [length].
    destruct (Z.ltb_spec (Z.of_nat (length (keys s))) (max_size s)); [lia|].
    destruct (keys s); cbn [length tail] in *; lia. }
  assert (Hlast : keys s' !! Z.to_nat (len s' - 1) = Some (p, false)).
  { rewrite (len_keys s'), Hk, length_app. cbn [length].
    set (front := if len s <? max_size s then keys s else tail (keys s)).
    apply list_lookup_middle. generalize (length front). clear. intros n. lia. }
  assert (Hpos : 0 <= len s' - 1).
  { rewrite Hlen. destruct (Z.ltb_spec (len s) (max_size s)); unfold len in *; lia. }
  exists s'. split_and!; [done|done| | |].
  - apply get_index_keys; [done|]. split; [done|]. by exists false.
  - rewrite get_by_index_keys by done. rewrite bool_decide_true by done.
    by rewrite Hlast.
  - intros q j Hj. apply get_index_keys in Hj as [Hj0 [f Hf]]; [|done].
    rewrite len_keys in *. destruct (Z.ltb_spec (Z.of_nat (length (keys s))) (max_size s)).
    + apply get_index_keys; [done|]. split; [done|]. exists f.
      rewrite Hk. by apply lookup_app_l_Some.
    + destruct (keys s) as [|k0 ks] eqn:Hks; [done|]. cbn [tail] in Hk.
      destruct (Z.eqb_spec j 0) as [->|Hj1].
      * cbn in Hf. injection Hf as ->.
        destruct (contains s' q) eqn:Hq; [|done]. exfalso.
        apply contains_keys in Hq; [|done]. rewrite Hk, fmap_app in Hq.
        pose proof (wf_nodup _ Hwf) as Hnd. rewrite Hks, fmap_cons in Hnd.
        apply NoDup_cons in Hnd as [Hnin _]. cbn [fst] in Hnin.
        apply elem_of_app in Hq as [Hq|Hq]; [done|].
        cbn in Hq. apply list_elem_of_singleton in Hq. subst q.
        assert (contains s p = true); [|congruence].
        apply contains_keys; [done|]. rewrite Hks, fmap_cons. left.
      * apply get_index_keys; [done|]. split; [lia|]. exists f.
        rewrite Hk. apply lookup_app_l_Some.
        replace (Z.to_nat j) with (S (Z.to_nat (j - 1))) in Hf by lia. done.
Qed.

(** X5: On a reachable cache [remove] and [add] with [flag = False] always
    return: no lookup in the two dictionaries misses and the eviction loop ends.
    [add] with [flag = True] returns when the payload is present and raises
    AttributeError otherwise. *)
Theorem cache_operations_never_miss s e :
  reachable s ->
  remove e s = Returns tt (state_of (remove e s)) /\
  add e false s = Returns tt (state_of (add e false s)) /\
  (add e true s = Returns tt s /\ contains s e = true
   \/ add e true s = Raises (AttributeError "flalg_count") (state_of (add e true s))
      /\ contains s e = false).
Proof.
  intros Hr. pose proof (reachable_wf s Hr) as Hwf. split_and!.
  - by apply remove_wf.
  - destruct (contains s e) eqn:Hc.
    + by rewrite add_present_wf.
    + by destruct (add_wf_absent s e false Hwf Hc) as (-> & _).
  - destruct (contains s e) eqn:Hc.
    + left. by rewrite add_present_wf.
    + right. by destruct (add_wf_absent s e true Hwf Hc) as (-> & _).
Qed.

Lemma add_all_snoc (l : list E) e s :
  add_all (l ++ [e]) s = state_of (add e false (add_all l s)).
Proof. unfold add_all. by rewrite fold_left_app. Qed.

Lemma reachable_add_all (l : list E) s : reachable s -> reachable (add_all l s).
Proof.
  revert s. induction l as [|e l IH]; intros s Hs; [done|].
  cbn. apply IH. by apply reachable_add.
Qed.

Lemma max_size_add_all (l : list E) s : reachable s -> max_size (add_all l s) = max_size s.
Proof.
  revert s. induction l as [|e l IH]; intros s Hs; [done|].
  cbn. fold (add_all l (state_of (add e false s))). rewrite IH by (by apply reachable_add).
  by apply offset_max_size_add, reachable_wf.
Qed.

Lemma keys_add_all (ms : Z) (l : list E) :
  0 < ms -> NoDup l ->
  keys (add_all l (init ms)) = (fun e => (e, false)) <$> drop (length l - Z.to_nat ms) l.
Proof.
  intros Hms. induction l as [|e l IH] using rev_ind; intros Hnd; [done|].
  apply NoDup_app in Hnd as (Hnd & Hd & _).
  assert (Hnin : e ∉ l) by (intros Hin; apply (Hd e Hin); left).
  specialize (IH Hnd). rewrite add_all_snoc.
  set (s := add_all l (init ms)) in *.
  assert (Hr : reachable s) by (apply reachable_add_all, reachable_init; lia).
  pose proof (reachable_wf s Hr) as Hwf.
  assert (Hmax : max_size s = ms).
  { unfold s. rewrite max_size_add_all by (apply reachable_init; lia). done. }
  assert (Hc : contains s e = false).
  { destruct (contains s e) eqn:Hc; [|done]. exfalso.
    apply contains_keys in Hc; [|done]. rewrite IH, <- list_fmap_compose in Hc.
    apply list_elem_of_fmap in Hc as (e' & -> & Hin). cbn in Hin.
    apply Hnin. by eapply elem_of_drop_elem_of. }
  destruct (add_wf_absent s e false Hwf Hc) as (_ & -> & _ & _).
  rewrite len_keys, IH, length_fmap, length_drop, Hmax, length_app. cbn [length].
  destruct (Z.ltb_spec (Z.of_nat (length l - (length l - Z.to_nat ms))) ms) as [Hlt|Hge].
  - replace (length l - Z.to_nat ms)%nat with 0%nat by lia.
    replace (length l + 1 - Z.to_nat ms)%nat with 0%nat by lia.
    rewrite !drop_0, fmap_app. done.
  - replace (length l + 1 - Z.to_nat ms)%nat with (S (length l - Z.to_nat ms)) by lia.
    rewrite drop_app_le by lia. rewrite fmap_app. f_equal.
    rewrite <- fmap_tail. f_equal. apply tail_drop.
Qed.

(** X4: After [add] with [flag = False] of the distinct payloads [l], in this
    order, on a fresh cache of capacity [ms], the cache holds exactly the last
    [ms] payloads of [l], indexed in the order of insertion. *)
Theorem cache_keeps_the_newest (ms : Z) (l : list E) :
  0 < ms -> NoDup l ->
  let s := add_all l (init ms) in
  let kept := drop (length l - Z.to_nat ms) l in
  (forall e, contains s e = true <-> e ∈ kept) /\
  (forall e (n : nat), kept !! n = Some e -> get_index s e = Some (Z.of_nat n)) /\
  len s = Z.min (Z.of_nat (length l)) ms.
Proof.
  intros Hms Hnd s kept.
  assert (Hr : reachable s) by (apply reachable_add_all, reachable_init; lia).
  pose proof (reachable_wf s Hr) as Hwf.
  pose proof (keys_add_all ms l Hms Hnd) as Hk. fold s kept in Hk. split_and!.
  - intros e. rewrite contains_keys by done. rewrite Hk, <- list_fmap_compose.
    cbn. by rewrite list_fmap_id.
  - intros e n Hn. apply get_index_keys; [done|]. split; [lia|]. exists false.
    rewrite Nat2Z.id, Hk, list_lookup_fmap, Hn. done.
  - rewrite len_keys, Hk, length_fmap. unfold kept. rewrite length_drop. lia.
Qed.
End CacheExtras2.

(** ** decode_varint *)

Lemma unpack_from_short o codes data pos :
  0 <= pos -> blen data < pos + Z.of_nat (calcsize codes) ->
  unpack_from o codes data pos = Err StructError.
Proof.
  intros Hpos Hshort. unfold unpack_from. destruct (Z.ltb_spec pos 0); [lia|].
  destruct (Z.leb_spec (pos + Z.of_nat (calcsize codes)) (blen data)); [lia|].
  by rewrite andb_false_r.
Qed.

Lemma at_pos_exists data pos :
  0 <= pos < blen data -> exists tag tl, at_pos data pos (tag :: tl).
Proof.
  intros Hpos. destruct (drop (Z.to_nat pos) data) as [|tag tl] eqn:Hd.
  - apply (f_equal length) in Hd. rewrite length_drop in Hd. cbn in Hd.
    unfold blen in Hpos. lia.
  - exists tag, tl. split; [lia|done].
Qed.

Lemma decode_varint_at data pos tag tl :
  at_pos data pos (tag :: tl) ->
  decode_varint data pos
  = if (length tl <? varint_operand_size tag)%nat then Err StructError
    else Ok (if byte_to_Z tag <? 0xfd then byte_to_Z tag
             else le_decode (take (varint_operand_size tag) tl),
             pos + 1 + Z.of_nat (varint_operand_size tag)).
Proof.
  intros Hat. pose proof (at_pos_bound _ _ _ Hat) as Hb.
  pose proof (byte_to_Z_range tag) as Ht.
  assert (Hfirst : unpack_from little_endian [fmt_B] data pos = Ok [byte_to_Z tag]).
  { rewrite (unpack_from_one _ fmt_B data pos [tag] tl) by done.
    cbn. by rewrite Z.mul_0_r, Z.add_0_r. }
  assert (Hget : getitem data pos = Ok (byte_to_Z tag)) by (by eapply getitem_at).
  assert (Hat1 : at_pos data (pos + 1) tl) by (by eapply at_pos_cons).
  assert (Hpos : 0 <= pos) by apply Hat.
  unfold blen in Hb. cbn [length] in Hb.
  assert (Hoperand : forall c, code_size c = varint_operand_size tag ->
            unpack_from little_endian [c] data (pos + 1)
            = if (length tl <? varint_operand_size tag)%nat then Err StructError
              else Ok [le_decode (take (varint_operand_size tag) tl)]).
  { intros c Hc. destruct (Nat.ltb_spec (length tl) (varint_operand_size tag)) as [Hlt|Hge].
    - apply unpack_from_short; [lia|]. cbn [calcsize fold_right]. unfold blen. lia.
    - rewrite <- (take_drop (varint_operand_size tag) tl) in Hat1.
      rewrite (unpack_from_one _ c data (pos + 1) _ _ Hat1); [done|].
      rewrite length_take. lia. }
  unfold decode_varint. rewrite Hfirst. cbn [rbind item nth]. unfold varint_operand_size in *.
  destruct (Z.ltb_spec (byte_to_Z tag) 0xfd) as [H1|H1].
  { rewrite Z.add_0_r, Hfirst. cbn [rbind item nth].
    replace (length tl <? 0)%nat with false by (symmetry; apply Nat.ltb_ge; lia).
    do 2 f_equal. lia. }
  rewrite Hget. cbn [rbind].
  destruct (Z.eqb_spec (byte_to_Z tag) 0xfd) as [H2|H2].
  { rewrite (Hoperand fmt_H) by done. destruct (_ <? _)%nat; [done|].
    cbn [rbind item nth]. do 2 f_equal. lia. }
  cbn [rbind].
  destruct (Z.eqb_spec (byte_to_Z tag) 0xfe) as [H3|H3].
  { rewrite (Hoperand fmt_I) by done. destruct (_ <? _)%nat; [done|].
    cbn [rbind item nth]. do 2 f_equal. lia. }
  rewrite (Hoperand fmt_Q) by done. destruct (_ <? _)%nat; [done|].
  cbn [rbind item nth]. do 2 f_equal. lia.
Qed.

(** X6: [decode_varint] reads a first byte below 0xfd as the value itself, and
    after 0xfd, 0xfe and 0xff reads the next 2, 4 and 8 bytes as a little-endian
    number; the position returned is the one after the bytes read. *)
Theorem decode_varint_reads_by_tag (data : bytes) (pos : Z) (tag : byte)
    (operand rest : bytes) :
  at_pos data pos (tag :: operand ++ rest) ->
  length operand = varint_operand_size tag ->
  decode_varint data pos
  = Ok (if byte_to_Z tag <? 0xfd then byte_to_Z tag else le_decode operand,
        pos + 1 + Z.of_nat (length operand)).
Proof.
  intros Hat Hlen. rewrite (decode_varint_at _ _ _ _ Hat).
  rewrite length_app, <- Hlen.
  replace (length operand + length rest <? length operand)%nat with false
    by (symmetry; apply Nat.ltb_ge; lia).
  by rewrite take_app_length.
Qed.


(** X8: Whenever [decode_varint] returns, the value is below 2^64 and the new
    position lies after the old one, at most 9 bytes further and inside the
    data. *)
Theorem decode_varint_progress (data : bytes) (pos v pos' : Z) :
  0 <= pos ->
  decode_varint data pos = Ok (v, pos') ->
  0 <= v < 2 ^ 64 /\ pos < pos' <= pos + 9 /\ pos' <= blen data.
Proof.
  intros Hpos Hok. destruct (Z.le_gt_cases (blen data) pos) as [Hend|Hin].
  { unfold decode_varint in Hok.
    rewrite unpack_from_short in Hok; [discriminate|done|cbn; lia]. }
  destruct (at_pos_exists data pos ltac:(lia)) as (tag & tl & Hat).
  rewrite (decode_varint_at _ _ _ _ Hat) in Hok.
  destruct (Nat.ltb_spec (length tl) (varint_operand_size tag)) as [?|Hge]; [discriminate|].
  injection Hok as <- <-. pose proof (at_pos_bound _ _ _ Hat) as Hb.
  unfold blen in Hb. cbn [length] in Hb. pose proof (byte_to_Z_range tag) as Ht.
  pose proof (le_decode_range (take (varint_operand_size tag) tl)) as Hd.
  rewrite length_take in Hd.
  replace (varint_operand_size tag `min` length tl)%nat with (varint_operand_size tag) in Hd by lia.
  assert (Hw : (varint_operand_size tag <= 8)%nat).
  { unfold varint_operand_size. repeat destruct (_ <? _) || destruct (_ =? _); lia. }
  split_and!; try (unfold blen; lia).
  - destruct (_ <? _); lia.
  - destruct (byte_to_Z tag <? 0xfd); [lia|].
    apply Z.lt_le_trans with (256 ^ Z.of_nat (varint_operand_size tag)); [lia|].
    change (2 ^ 64) with (256 ^ 8). apply Z.pow_le_mono_r; lia.
Qed.

(** ** What the receive loop and the send path change *)

Section Preserves.
Context {St : Type} (R : St -> St -> Prop) `{!Reflexive R} `{!Transitive R}.

Lemma preserves_ret {A} (a : A) : preserves R (ret a).
Proof. intros s. cbn. reflexivity. Qed.

Lemma preserves_raise {A} (e : exn) : preserves R (raise e : M St A).
Proof. intros s. cbn. reflexivity. Qed.

Lemma preserves_lift {A} (r : result A) : preserves R (lift r).
Proof. intros s. unfold lift. destruct r; cbn; reflexivity. Qed.

Lemma preserves_get : preserves R get.
Proof. intros s. cbn. reflexivity. Qed.

Lemma preserves_bind {A B} (m : M St A) (k : A -> M St B) :
  preserves R m -> (forall a, preserves R (k a)) -> preserves R (bind m k).
Proof.
  intros Hm Hk s. unfold bind. specialize (Hm s).
  destruct (m s) as [a s'|e s']; cbn in *; [|done].
  etransitivity; [exact Hm|apply Hk].
Qed.
End Preserves.

Lemma cache_step_refl : Reflexive cache_step.
Proof. intros c Hr. done. Qed.

Lemma cache_step_trans : Transitive cache_step.
Proof.
  intros c1 c2 c3 H12 H23 Hr. destruct (H12 Hr) as (Hr2 & Hm2 & Hu2).
  destruct (H23 Hr2) as (Hr3 & Hm3 & Hu3). split_and!; [done|lia|auto].
Qed.

Lemma recv_step_intro (r r' : RelayNetworkClient) (consumed : bytes)
    (calls : list recipient_call) :
  send_transaction_cache r' = send_transaction_cache r ->
  sock_out r' = sock_out r ->
  sock_up r' = sock_up r ->
  sock_in r = consumed ++ sock_in r' ->
  recipient_calls r' = recipient_calls r ++ calls ->
  cache_step (recv_transaction_cache r) (recv_transaction_cache r') ->
  recv_step r r'.
Proof. intros. unfold recv_step. eauto 10. Qed.

Lemma send_step_intro (s s' : RelayNetworkClient) (sent : bytes) :
  recv_transaction_cache s' = recv_transaction_cache s ->
  sock_in s' = sock_in s ->
  sock_up s' = sock_up s ->
  recipient_calls s' = recipient_calls s ->
  sock_out s' = sock_out s ++ sent ->
  cache_step (send_transaction_cache s) (send_transaction_cache s') ->
  send_step s s'.
Proof. intros. unfold send_step. eauto 10. Qed.

#[local] Instance recv_step_refl : Reflexive recv_step.
Proof.
  intros r. apply (recv_step_intro r r [] []);
    try done; try (by rewrite app_nil_r); apply cache_step_refl.
Qed.

#[local] Instance recv_step_trans : Transitive recv_step.
Proof.
  intros r1 r2 r3 (Ha & Hb & Hc & [u1 Hd] & [v1 He] & Hf) (Ha' & Hb' & Hc' & [u2 Hd'] & [v2 He'] & Hf').
  apply (recv_step_intro r1 r3 (u1 ++ u2) (v1 ++ v2)); try congruence.
  - by rewrite Hd, Hd', app_assoc.
  - by rewrite He', He, app_assoc.
  - by eapply cache_step_trans.
Qed.

#[local] Instance send_step_refl : Reflexive send_step.
Proof.
  intros r. apply (send_step_intro r r []);
    try done; try (by rewrite app_nil_r); apply cache_step_refl.
Qed.

#[local] Instance send_step_trans : Transitive send_step.
Proof.
  intros r1 r2 r3 (Ha & Hb & Hc & Hd & [v1 He] & Hf) (Ha' & Hb' & Hc' & Hd' & [v2 He'] & Hf').
  apply (send_step_intro r1 r3 (v1 ++ v2)); try congruence.
  - by rewrite He', He, app_assoc.
  - by eapply cache_step_trans.
Qed.

Lemma flag_count_remove_unflagged (c : FlaggedArraySet bytes) (e : bytes) :
  wf c -> Forall (fun k => k.2 = false) (keys c) ->
  flag_count (state_of (remove e c)) = flag_count c.
Proof.
  intros Hwf Hu. destruct (wf_inv c Hwf) as (ms & ks & off & fc & -> & Hnd & _ & _).
  rewrite keys_mk in Hu.
  destruct (contains (mk ms ks off fc) e) eqn:Hc.
  2:{ by rewrite remove_absent. }
  apply contains_mk in Hc. apply list_elem_of_fmap in Hc as (k & -> & Hin).
  rewrite Forall_forall in Hu. pose proof (Hu k Hin) as Hk.
  apply list_elem_of_split in Hin as (pre & post & ->).
  rewrite remove_mk by done. cbn. by rewrite Hk.
Qed.

Lemma cache_step_remove (c : FlaggedArraySet bytes) (e : bytes) :
  cache_step c (state_of (remove e c)).
Proof.
  intros Hr. pose proof (reachable_wf c Hr) as Hwf.
  destruct (remove_wf c e Hwf) as (_ & Hms & Hk).
  split_and!; [by apply reachable_remove|done|].
  intros [Hfc Hu]. split.
  - by rewrite flag_count_remove_unflagged.
  - rewrite Hk. rewrite Forall_forall in Hu |- *.
    intros k Hin. apply list_elem_of_filter in Hin as [_ Hin]. auto.
Qed.

Lemma cache_step_add_unflagged (c : FlaggedArraySet bytes) (e : bytes) :
  cache_step c (state_of (add e false c)).
Proof.
  intros Hr. pose proof (reachable_wf c Hr) as Hwf.
  split_and!; [by apply reachable_add|by apply offset_max_size_add|].
  intros [Hfc Hu]. destruct (contains c e) eqn:Hc.
  { rewrite add_present_wf by done. done. }
  destruct (add_wf_absent c e false Hwf Hc) as (_ & Hk & _ & Hf). split.
  - rewrite Hf. destruct (len c <? max_size c); [done|].
    destruct (keys c) as [|[e0 f0] ks]; [done|].
    apply Forall_cons in Hu as [Hf0 _]. cbn in Hf0. by subst f0.
  - rewrite Hk. apply Forall_app. split; [|by repeat constructor].
    destruct (len c <? max_size c); [done|].
    destruct (keys c) as [|k0 ks]; [done|]. by apply Forall_cons in Hu as [_ Hu].
Qed.

(** *** The primitives of the receive loop *)

Lemma recv_step_recv (n : Z) : preserves recv_step (recv n).
Proof.
  intros r. cbn. apply (recv_step_intro _ _ (take (Z.to_nat n) (sock_in r)) []);
    try done; cbn; try (by rewrite take_drop); try (by rewrite app_nil_r);
    apply cache_step_refl.
Qed.

Lemma recv_step_call_recipient (c : recipient_call) : preserves recv_step (call_recipient c).
Proof.
  intros r. cbn. apply (recv_step_intro _ _ [] [c]); try done; apply cache_step_refl.
Qed.

Lemma recv_step_on_recv_cache {A} (m : M (FlaggedArraySet bytes) A) :
  (forall c, cache_step c (state_of (m c))) -> preserves recv_step (on_recv_cache m).
Proof.
  intros Hm r. unfold on_recv_cache. specialize (Hm (recv_transaction_cache r)).
  destruct (m (recv_transaction_cache r)) as [a c|e c]; cbn in *;
    (apply (recv_step_intro _ _ [] []); try done; cbn; try (by rewrite app_nil_r)).
Qed.

Lemma recv_step_recv_block_transactions (n : nat) (block_data : bytes) :
  preserves recv_step (recv_block_transactions n block_data).
Proof.
  revert block_data. induction n as [|n IH]; intros block_data.
  - apply preserves_ret; apply _.
  - cbn [recv_block_transactions].
    apply preserves_bind; [apply _|apply recv_step_recv|intros raw].
    apply preserves_bind; [apply _|apply preserves_lift; apply _|intros index].
    destruct (item index 0 =? 0xffff).
    + apply preserves_bind; [apply _|apply recv_step_recv|intros raw'].
      apply preserves_bind; [apply _|apply preserves_lift; apply _|intros data_length].
      destruct (data_length >? 1000000); [apply preserves_raise; apply _|].
      apply preserves_bind; [apply _|apply recv_step_recv|intros transaction_data].
      apply IH.
    + intros r. unfold bind at 1, get at 1.
      destruct (get_by_index (recv_transaction_cache r) (item index 0)) as [tx|].
      * revert r. apply preserves_bind; [apply _| |intros _; apply IH].
        apply recv_step_on_recv_cache. intros c. apply cache_step_remove.
      * cbn. reflexivity.
Qed.

Lemma recv_step_recv_block (count : Z) : preserves recv_step (recv_block count).
Proof.
  unfold recv_block. destruct (count >? 10000); [apply preserves_raise; apply _|].
  apply preserves_bind; [apply _|apply recv_step_recv|intros header_data].
  apply preserves_bind; [apply _|apply recv_step_call_recipient|intros _].
  apply preserves_bind; [apply _| |intros block_data].
  { repeat match goal with |- context [if ?b then _ else _] => destruct b end;
      try (apply preserves_raise; apply _);
      (apply preserves_bind; [apply _|apply preserves_lift; apply _|intros c;
                              apply preserves_ret; apply _]). }
  apply preserves_bind; [apply _|apply recv_step_recv_block_transactions|intros bd].
  apply preserves_bind; [apply _|apply recv_step_call_recipient|intros _].
  apply preserves_bind; [apply _|apply recv_step_recv|intros raw].
  apply preserves_bind; [apply _|apply preserves_lift; apply _|intros trailer].
  destruct (decide _); [apply preserves_ret|apply preserves_raise]; apply _.
Qed.

Lemma recv_step_recv_transaction (length : Z) : preserves recv_step (recv_transaction length).
Proof.
  intros r. unfold recv_transaction. unfold bind at 1, get at 1.
  destruct ((length >? MAX_RELAY_TRANSACTION_BYTES)
            && ((get_flag_count (recv_transaction_cache r) >=? MAX_EXTRA_OVERSIZE_TRANSACTIONS)
                || (length >? MAX_RELAY_OVERSIZE_TRANSACTION_BYTES))) eqn:Hadm.
  { cbn. reflexivity. }
  assert (Hflag : (length >? MAX_RELAY_OVERSIZE_TRANSACTION_BYTES) = false).
  { unfold MAX_RELAY_TRANSACTION_BYTES, MAX_RELAY_OVERSIZE_TRANSACTION_BYTES in *.
    destruct (Z.gtb_spec length 250000) as [Hgt|]; [|done].
    destruct (Z.gtb_spec length 10000); [|lia].
    by rewrite orb_true_r in Hadm. }
  rewrite Hflag. revert r Hadm. intros r _. revert r.
  apply preserves_bind; [apply _|apply recv_step_recv|intros transaction_data].
  apply preserves_bind; [apply _| |intros _; apply recv_step_call_recipient].
  apply recv_step_on_recv_cache. intros c. apply cache_step_add_unflagged.
Qed.

Lemma recv_step_recv_message : preserves recv_step recv_message.
Proof.
  unfold recv_message.
  apply preserves_bind; [apply _|apply recv_step_recv|intros raw].
  apply preserves_bind; [apply _|apply preserves_lift; apply _|intros msg_header].
  destruct (negb _); [apply preserves_raise; apply _|].
  destruct (_ >? _); [apply preserves_raise; apply _|].
  destruct (_ =? VERSION_TYPE).
  { apply preserves_bind; [apply _|apply recv_step_recv|intros version].
    destruct (decide _); [apply preserves_ret|apply preserves_raise]; apply _. }
  destruct (_ =? BLOCK_TYPE); [apply recv_step_recv_block|].
  destruct (_ =? TRANSACTION_TYPE); [apply recv_step_recv_transaction|].
  destruct (_ =? MAX_VERSION_TYPE); [|apply preserves_raise; apply _].
  apply preserves_bind; [apply _|apply recv_step_recv|intros version].
  apply preserves_ret; apply _.
Qed.

(** *** The primitives of the send path *)

Lemma send_step_sendall (data : bytes) : preserves send_step (sendall data).
Proof.
  intros s. unfold sendall. destruct (sock_up s); cbn.
  - apply (send_step_intro _ _ data); try done; apply cache_step_refl.
  - reflexivity.
Qed.

Lemma send_step_on_send_cache {A} (m : M (FlaggedArraySet bytes) A) :
  (forall c, cache_step c (state_of (m c))) -> preserves send_step (on_send_cache m).
Proof.
  intros Hm s. unfold on_send_cache. specialize (Hm (send_transaction_cache s)).
  destruct (m (send_transaction_cache s)) as [a c|e c]; cbn in *;
    (apply (send_step_intro _ _ []); try done; cbn; try (by rewrite app_nil_r)).
Qed.

Lemma send_step_except_OSError (body : M RelayNetworkClient unit) :
  preserves send_step body -> preserves send_step (except_OSError body).
Proof.
  intros Hb s. unfold except_OSError. specialize (Hb s).
  destruct (body s) as [a s'|e s']; [done|]. by destruct e.
Qed.

Lemma send_step_provide_transaction (transaction_data : bytes) :
  preserves send_step (provide_transaction transaction_data).
Proof.
  intros s. unfold provide_transaction. unfold bind at 1, get at 1.
  destruct (contains (send_transaction_cache s) transaction_data); [cbn; reflexivity|].
  unfold bind at 1.
  destruct (Z.gtb_spec (blen transaction_data) MAX_RELAY_TRANSACTION_BYTES) as [Hbig|Hsmall].
  { destruct (blen transaction_data >? MAX_RELAY_OVERSIZE_TRANSACTION_BYTES); cbn; reflexivity. }
  cbn [ret].
  assert (Hflag : (blen transaction_data >? MAX_RELAY_OVERSIZE_TRANSACTION_BYTES) = false).
  { unfold MAX_RELAY_TRANSACTION_BYTES, MAX_RELAY_OVERSIZE_TRANSACTION_BYTES in *.
    destruct (Z.gtb_spec (blen transaction_data) 250000); [lia|done]. }
  rewrite Hflag. revert s. apply send_step_except_OSError.
  apply preserves_bind; [apply _|apply preserves_lift; apply _|intros hdr].
  apply preserves_bind; [apply _|apply send_step_sendall|intros _].
  apply send_step_on_send_cache. intros c. apply cache_step_add_unflagged.
Qed.

Lemma send_step_send_block_transaction (transaction_data : bytes) :
  preserves send_step (send_block_transaction transaction_data).
Proof.
  intros s. unfold send_block_transaction. unfold bind at 1, get at 1.
  destruct (get_index (send_transaction_cache s) transaction_data); revert s.
  - apply preserves_bind; [apply _|apply preserves_lift; apply _|intros directive].
    apply preserves_bind; [apply _| |intros _; apply preserves_ret; apply _].
    apply send_step_on_send_cache. intros c. apply cache_step_remove.
  - apply preserves_bind; [apply _|apply preserves_lift; apply _|intros mark].
    apply preserves_bind; [apply _|apply preserves_lift; apply _|intros size].
    apply preserves_ret; apply _.
Qed.

Lemma send_step_send_block_transactions (n : nat) (block_data : bytes) (read_pos : Z)
    (relay_data : bytes) :
  preserves send_step (send_block_transactions n block_data read_pos relay_data).
Proof.
  revert read_pos relay_data. induction n as [|n IH]; intros read_pos relay_data.
  - apply preserves_ret; apply _.
  - cbn [send_block_transactions].
    apply preserves_bind; [apply _|apply preserves_lift; apply _|intros pos].
    apply preserves_bind; [apply _|apply send_step_send_block_transaction|intros directive].
    apply IH.
Qed.

Lemma send_step_provide_block (block_data : bytes) :
  preserves send_step (provide_block block_data).
Proof.
  unfold provide_block.
  apply preserves_bind; [apply _|apply preserves_lift; apply _|intros r].
  apply send_step_except_OSError.
  apply preserves_bind; [apply _|apply preserves_lift; apply _|intros hdr].
  apply preserves_bind; [apply _|apply send_step_send_block_transactions|intros relay_data].
  apply preserves_bind; [apply _|apply preserves_lift; apply _|intros trailer].
  apply send_step_sendall.
Qed.

(** X9: One pass of the receive loop, whether it returns or raises, leaves the
    send cache and the bytes sent as they are; it only consumes input from the
    front and appends calls on the recipient. *)
Theorem receive_loop_leaves_the_send_side_alone (r : RelayNetworkClient) :
  let r' := state_of (recv_message r) in
  send_transaction_cache r' = send_transaction_cache r /\
  sock_out r' = sock_out r /\
  sock_up r' = sock_up r /\
  (exists consumed, sock_in r = consumed ++ sock_in r') /\
  (exists calls, recipient_calls r' = recipient_calls r ++ calls).
Proof.
  intros r'. destruct (recv_step_recv_message r) as (H1 & H2 & H3 & H4 & H5 & _).
  done.
Qed.

(** X10: [provide_transaction] and [provide_block], whether they return or
    raise, leave the receive cache, the unread input and the calls on the
    recipient as they are; they only append to the bytes sent. *)
Theorem send_path_leaves_the_receive_side_alone (s : RelayNetworkClient) (data : bytes) :
  (let s' := state_of (provide_transaction data s) in
   recv_transaction_cache s' = recv_transaction_cache s /\
   sock_in s' = sock_in s /\
   recipient_calls s' = recipient_calls s /\
   exists sent, sock_out s' = sock_out s ++ sent) /\
  (let s' := state_of (provide_block data s) in
   recv_transaction_cache s' = recv_transaction_cache s /\
   sock_in s' = sock_in s /\
   recipient_calls s' = recipient_calls s /\
   exists sent, sock_out s' = sock_out s ++ sent).
Proof.
  split; intros s'.
  - destruct (send_step_provide_transaction data s) as (H1 & H2 & _ & H4 & H5 & _). done.
  - destruct (send_step_provide_block data s) as (H1 & H2 & _ & H4 & H5 & _). done.
Qed.

(** X11: When both caches of the client are reachable, hold no flagged entry and
    have the capacity [cap], they still do after a pass of the receive loop,
    after [provide_transaction] and after [provide_block], whether these return
    or raise. The caches [connect] creates are such, with capacity 1000. *)
Theorem client_caches_stay_unflagged (cap : Z) (s : RelayNetworkClient) (data : bytes) :
  unflagged_client cap s ->
  unflagged_client cap (state_of (recv_message s)) /\
  unflagged_client cap (state_of (provide_transaction data s)) /\
  unflagged_client cap (state_of (provide_block data s)).
Proof.
  intros [(Hr & Hur & Hmr) (Hs & Hus & Hms)].
  destruct (recv_step_recv_message s) as (R1 & _ & _ & _ & _ & Rc).
  destruct (send_step_provide_transaction data s) as (T1 & _ & _ & _ & _ & Tc).
  destruct (send_step_provide_block data s) as (B1 & _ & _ & _ & _ & Bc).
  destruct (Rc Hr) as (? & Rm & Ru), (Tc Hs) as (? & Tm & Tu), (Bc Hs) as (? & Bm & Bu).
  unfold unflagged_client. rewrite R1, T1, B1, Rm, Tm, Bm.
  split_and!; auto.
Qed.

(** ** The receive loop *)

Lemma recv_message_header (r : RelayNetworkClient) (hdr rest : bytes) (msg_header : list Z) :
  sock_in r = hdr ++ rest ->
  unpack big_endian [fmt_I; fmt_I; fmt_I] hdr = Ok msg_header ->
  recv_message r
  = (if negb (item msg_header 0 =? MAGIC_BYTES) then
       raise (ProtocolError "Invalid magic bytes")
     else if item msg_header 2 >? 1000000 then
       raise (ProtocolError "Got message too large")
     else if item msg_header 1 =? VERSION_TYPE then
       (let! version := recv (item msg_header 2) in
        if decide (version = VERSION_STRING) then ret tt
        else raise (ProtocolError "Got back unknown version type"))%py
     else if item msg_header 1 =? BLOCK_TYPE then
       recv_block (item msg_header 2)
     else if item msg_header 1 =? TRANSACTION_TYPE then
       recv_transaction (item msg_header 2)
     else if item msg_header 1 =? MAX_VERSION_TYPE then
       (let! version := recv (item msg_header 2) in ret tt)%py
     else raise (ProtocolError "Unknown message type")) (set_sock_in rest r).
Proof.
  intros Hin Hun.
  assert (Hlen : length hdr = 12%nat).
  { unfold unpack in Hun. destruct (decide _) as [Hl|]; [exact Hl|discriminate]. }
  unfold recv_message. unfold bind at 1, recv at 1. rewrite Hin.
  change (Z.to_nat (3 * 4)) with 12%nat.
  rewrite take_app_length', drop_app_length' by done.
  unfold bind at 1. rewrite Hun. reflexivity.
Qed.

(** X12: The receive loop checks a frame header in this order: a wrong magic
    number is an error whatever follows; then a length above 1 000 000; then a
    type that is END_BLOCK or above MAX_VERSION. Each error is raised with only
    the 12 header bytes consumed. (The model keeps the fixed part of each
    message.) *)
Theorem frame_header_is_checked_in_order
    (r : RelayNetworkClient) (hdr rest : bytes) (magic type length : Z) :
  sock_in r = hdr ++ rest ->
  unpack big_endian [fmt_I; fmt_I; fmt_I] hdr = Ok [magic; type; length] ->
  (magic ≠ MAGIC_BYTES ->
   recv_message r = Raises (ProtocolError "Invalid magic bytes") (set_sock_in rest r)) /\
  (magic = MAGIC_BYTES -> length > 1000000 ->
   recv_message r = Raises (ProtocolError "Got message too large") (set_sock_in rest r)) /\
  (magic = MAGIC_BYTES -> length <= 1000000 -> type = END_BLOCK_TYPE \/ 4 < type ->
   recv_message r = Raises (ProtocolError "Unknown message type") (set_sock_in rest r)).
Proof.
  intros Hin Hun. rewrite (recv_message_header r hdr rest _ Hin Hun). cbn [item nth].
  split_and!.
  - intros Hm. by destruct (Z.eqb_spec magic MAGIC_BYTES).
  - intros -> Hl. change (negb (MAGIC_BYTES =? MAGIC_BYTES)) with false. cbv iota.
    by destruct (Z.gtb_spec length 1000000); [|lia].
  - intros -> Hl Ht. change (negb (MAGIC_BYTES =? MAGIC_BYTES)) with false. cbv iota.
    destruct (Z.gtb_spec length 1000000); [lia|].
    unfold VERSION_TYPE, BLOCK_TYPE, TRANSACTION_TYPE, MAX_VERSION_TYPE, END_BLOCK_TYPE in *.
    destruct (Z.eqb_spec type 0); [lia|]. destruct (Z.eqb_spec type 1); [lia|].
    destruct (Z.eqb_spec type 2); [lia|]. destruct (Z.eqb_spec type 4); [lia|]. done.
Qed.

(** X13: When fewer than 12 bytes are left to read, the unpacking of the frame
    header raises struct.error, which the last [except] clause of [connect]
    catches: the connection is given up. *)
Theorem short_frame_header_gives_up_the_connection (r : RelayNetworkClient) :
  (length (sock_in r) < 12)%nat ->
  recv_message r = Raises StructError (set_sock_in [] r) /\
  connect_loop_step r = reconnects unknown_error (set_sock_in [] r).
Proof.
  intros Hshort.
  assert (Hmsg : recv_message r = Raises StructError (set_sock_in [] r)).
  { unfold recv_message. unfold bind at 1, recv at 1.
    change (Z.to_nat (3 * 4)) with 12%nat.
    rewrite take_ge, drop_ge by lia. unfold bind at 1. unfold unpack.
    rewrite decide_False by (cbn; lia). reflexivity. }
  split; [done|]. unfold connect_loop_step. by rewrite Hmsg.
Qed.

(** X14: A VERSION frame is accepted when its payload is VERSION_STRING and is a
    ProtocolError otherwise; the payload of a MAX_VERSION frame is read and
    dropped. *)
Theorem version_must_match_and_max_version_is_skipped
    (r : RelayNetworkClient) (type : Z) (payload rest : bytes) :
  blen payload <= 1000000 ->
  sock_in r = frame_header type (blen payload) ++ payload ++ rest ->
  (type = VERSION_TYPE -> payload = VERSION_STRING ->
   recv_message r = Returns tt (set_sock_in rest r)) /\
  (type = VERSION_TYPE -> payload ≠ VERSION_STRING ->
   recv_message r
   = Raises (ProtocolError "Got back unknown version type") (set_sock_in rest r)) /\
  (type = MAX_VERSION_TYPE -> recv_message r = Returns tt (set_sock_in rest r)).
Proof.
  intros Hlen Hin. pose proof (blen_nonneg payload) as Hnn.
  assert (Hhdr : forall t, 0 <= t < 2 ^ 32 -> type = t ->
            recv_message r
            = (if t =? VERSION_TYPE then
                 (let! version := recv (blen payload) in
                  if decide (version = VERSION_STRING) then ret tt
                  else raise (ProtocolError "Got back unknown version type"))%py
               else if t =? BLOCK_TYPE then recv_block (blen payload)
               else if t =? TRANSACTION_TYPE then recv_transaction (blen payload)
               else if t =? MAX_VERSION_TYPE then
                 (let! version := recv (blen payload) in ret tt)%py
               else raise (ProtocolError "Unknown message type"))
                (set_sock_in (payload ++ rest) r)).
  { intros t Ht ->.
    rewrite (recv_message_header r (frame_header t (blen payload)) (payload ++ rest)
               [MAGIC_BYTES; t; blen payload] Hin)
      by (apply unpack_frame_header; lia).
    cbn [item nth]. change (negb (MAGIC_BYTES =? MAGIC_BYTES)) with false. cbv iota.
    by destruct (Z.gtb_spec (blen payload) 1000000); [lia|]. }
  assert (Hrecv : recv (blen payload) (set_sock_in (payload ++ rest) r)
                  = Returns payload (set_sock_in rest r)).
  { unfold recv. cbn [sock_in set_sock_in]. unfold blen. rewrite Nat2Z.id.
    by rewrite take_app_length, drop_app_length. }
  split_and!.
  - intros Ht ->. rewrite (Hhdr VERSION_TYPE) by (done || cbn; lia).
    change (VERSION_TYPE =? VERSION_TYPE) with true. cbv iota.
    unfold bind. rewrite Hrecv. by rewrite decide_True.
  - intros Ht Hne. rewrite (Hhdr VERSION_TYPE) by (done || cbn; lia).
    change (VERSION_TYPE =? VERSION_TYPE) with true. cbv iota.
    unfold bind. rewrite Hrecv. by rewrite decide_False.
  - intros Ht. rewrite (Hhdr MAX_VERSION_TYPE) by (done || cbn; lia).
    change (MAX_VERSION_TYPE =? VERSION_TYPE) with false.
    change (MAX_VERSION_TYPE =? BLOCK_TYPE) with false.
    change (MAX_VERSION_TYPE =? TRANSACTION_TYPE) with false.
    change (MAX_VERSION_TYPE =? MAX_VERSION_TYPE) with true. cbv iota.
    unfold bind. by rewrite Hrecv.
Qed.

(** X15: A TRANSACTION frame that announces more than
    MAX_RELAY_OVERSIZE_TRANSACTION_BYTES bytes (and at most 1 000 000) is a
    ProtocolError, raised before any byte of the payload is read. *)
Theorem oversize_transaction_frame_is_rejected_unread
    (r : RelayNetworkClient) (length : Z) (rest : bytes) :
  MAX_RELAY_OVERSIZE_TRANSACTION_BYTES < length <= 1000000 ->
  sock_in r = frame_header TRANSACTION_TYPE length ++ rest ->
  recv_message r
  = Raises (ProtocolError "Got a freely relayed transaction too large") (set_sock_in rest r).
Proof.
  unfold MAX_RELAY_OVERSIZE_TRANSACTION_BYTES. intros Hlen Hin.
  rewrite (recv_message_header r (frame_header TRANSACTION_TYPE length) rest
             [MAGIC_BYTES; TRANSACTION_TYPE; length] Hin)
    by (apply unpack_frame_header; unfold TRANSACTION_TYPE; lia).
  cbn [item nth]. change (negb (MAGIC_BYTES =? MAGIC_BYTES)) with false. cbv iota.
  destruct (Z.gtb_spec length 1000000); [lia|].
  change (TRANSACTION_TYPE =? VERSION_TYPE) with false.
  change (TRANSACTION_TYPE =? BLOCK_TYPE) with false.
  change (TRANSACTION_TYPE =? TRANSACTION_TYPE) with true. cbv iota.
  unfold recv_transaction, bind, get.
  unfold MAX_RELAY_TRANSACTION_BYTES, MAX_RELAY_OVERSIZE_TRANSACTION_BYTES.
  destruct (Z.gtb_spec length 10000); [|lia]. destruct (Z.gtb_spec length 250000); [|lia].
  by rewrite orb_true_r.
Qed.

Lemma recv_message_transaction (r : RelayNetworkClient) (payload rest : bytes) :
  blen payload <= 250000 ->
  reachable (recv_transaction_cache r) ->
  sock_in r = frame_header TRANSACTION_TYPE (blen payload) ++ payload ++ rest ->
  recv_message r
  = Returns tt
      (set_recipient_calls (recipient_calls r ++ [provide_transaction_call payload])
         (set_sock_in rest
            (set_recv_transaction_cache
               (state_of (add payload false (recv_transaction_cache r))) r))).
Proof.
  intros Hlen Hreach Hin.
  pose proof (blen_nonneg payload) as Hnn.
  pose proof (reachable_wf _ Hreach) as Hwf.
  pose proof (reachable_flag_count _ Hreach) as Hfc.
  set (c := recv_transaction_cache r) in *.
  assert (Hadd : add payload false c = Returns tt (state_of (add payload false c))).
  { destruct (contains c payload) eqn:Hc.
    - by rewrite !add_present_wf.
    - by destruct (add_wf_absent c payload false Hwf Hc) as (-> & _). }
  rewrite (recv_message_header r (frame_header TRANSACTION_TYPE (blen payload))
             (payload ++ rest) [MAGIC_BYTES; TRANSACTION_TYPE; blen payload] Hin)
    by (apply unpack_frame_header; unfold TRANSACTION_TYPE; lia).
  cbn [item nth]. change (negb (MAGIC_BYTES =? MAGIC_BYTES)) with false. cbv iota.
  destruct (Z.gtb_spec (blen payload) 1000000); [lia|].
  change (TRANSACTION_TYPE =? VERSION_TYPE) with false.
  change (TRANSACTION_TYPE =? BLOCK_TYPE) with false.
  change (TRANSACTION_TYPE =? TRANSACTION_TYPE) with true. cbv iota.
  unfold recv_transaction. unfold bind at 1, get at 1.
  cbn [recv_transaction_cache set_sock_in]. fold c.
  unfold get_flag_count, MAX_RELAY_TRANSACTION_BYTES,
    MAX_RELAY_OVERSIZE_TRANSACTION_BYTES, MAX_EXTRA_OVERSIZE_TRANSACTIONS.
  destruct (Z.geb_spec (flag_count c) 20) as [?|_]; [lia|].
  destruct (Z.gtb_spec (blen payload) 250000) as [?|_]; [lia|].
  rewrite orb_false_r, andb_false_r.
  unfold bind at 1, recv at 1. cbn [sock_in set_sock_in].
  rewrite take_app_length', drop_app_length' by (unfold blen; lia).
  unfold bind at 1, on_recv_cache at 1. cbn [recv_transaction_cache set_sock_in].
  fold c. rewrite Hadd. reflexivity.
Qed.

(** X16: A TRANSACTION frame of at most MAX_RELAY_OVERSIZE_TRANSACTION_BYTES
    bytes is admitted on every reachable receive cache: the payload is added
    with flag False and handed to the recipient. A payload that is already
    cached is handed on as well, and the cache stays as it is. *)
Theorem transaction_within_the_oversize_limit_is_admitted
    (r : RelayNetworkClient) (payload rest : bytes) :
  blen payload <= MAX_RELAY_OVERSIZE_TRANSACTION_BYTES ->
  reachable (recv_transaction_cache r) ->
  sock_in r = frame_header TRANSACTION_TYPE (blen payload) ++ payload ++ rest ->
  let c' := state_of (add payload false (recv_transaction_cache r)) in
  recv_message r
  = Returns tt
      (set_recipient_calls (recipient_calls r ++ [provide_transaction_call payload])
         (set_sock_in rest (set_recv_transaction_cache c' r))) /\
  contains c' payload = true /\
  (contains (recv_transaction_cache r) payload = true -> c' = recv_transaction_cache r).
Proof.
  intros Hlen Hreach Hin c'. unfold MAX_RELAY_OVERSIZE_TRANSACTION_BYTES in Hlen.
  pose proof (blen_nonneg payload) as Hnn.
  pose proof (reachable_wf _ Hreach) as Hwf.
  pose proof (reachable_flag_count _ Hreach) as Hfc.
  set (c := recv_transaction_cache r) in *.
  assert (Hadd : add payload false c = Returns tt c').
  { destruct (contains c payload) eqn:Hc.
    - unfold c'. by rewrite !add_present_wf.
    - by destruct (add_wf_absent c payload false Hwf Hc) as (-> & _). }
  split_and!.
  - unfold c', c. by apply recv_message_transaction.
  - destruct (contains c payload) eqn:Hc.
    + unfold c'. by rewrite add_present_wf.
    + destruct (add_wf_absent c payload false Hwf Hc) as (_ & Hk & _).
      apply contains_keys; [by apply wf_add|]. unfold c'. rewrite Hk, fmap_app.
      apply elem_of_app. right. left.
  - intros Hc. unfold c'. by rewrite add_present_wf.
Qed.

(** X17: Inside a BLOCK message an index that is not the mark 0xffff and is not
    below the length of the receive cache is a ProtocolError; the two index
    bytes are consumed and the cache is unchanged. *)
Theorem missing_index_is_a_protocol_error
    (n : nat) (block_data : bytes) (r : RelayNetworkClient) (index : Z) (rest : bytes) :
  reachable (recv_transaction_cache r) ->
  len (recv_transaction_cache r) <= index < 0xffff ->
  sock_in r = encode big_endian 2 index ++ rest ->
  recv_block_transactions (S n) block_data r
  = Raises (ProtocolError "Got index for a transaction we didn't have") (set_sock_in rest r).
Proof.
  intros Hreach Hidx Hin. cbn [recv_block_transactions].
  assert (Hnone : get_by_index (recv_transaction_cache r) index = None).
  { rewrite get_by_index_keys by (by apply reachable_wf).
    rewrite len_keys in Hidx. case_bool_decide; [|done].
    rewrite lookup_ge_None_2; [done|lia]. }
  unfold len in Hidx.
  unfold bind at 1. unfold bind at 1, recv at 1. rewrite Hin.
  rewrite take_app_length', drop_app_length' by (by rewrite length_encode).
  unfold bind at 1. rewrite unpack_one by (by rewrite length_encode).
  rewrite decode_encode by (cbn; lia). cbn [lift item nth].
  destruct (Z.eqb_spec index 0xffff); [lia|].
  unfold bind at 1, get at 1. cbn [recv_transaction_cache set_sock_in].
  by rewrite Hnone.
Qed.

Lemma recv_block_upto_trailer (b : Block) (r : RelayNetworkClient) (tail : bytes) :
  length (header b) = 80%nat ->
  Z.of_nat (length (vtx b)) <= 10000 ->
  wf (recv_transaction_cache r) -> max_size (recv_transaction_cache r) <= 0xffff ->
  inline_fits (recv_transaction_cache r) (block_txs b) ->
  sock_in r = block_payload (recv_transaction_cache r) b ++ tail ->
  recv_block (Z.of_nat (length (vtx b))) r
  = (let! raw := recv (3 * 4) in
     let! trailer := lift (unpack big_endian [fmt_I; fmt_I; fmt_I] raw) in
     if decide (trailer = [MAGIC_BYTES; END_BLOCK_TYPE; 0]) then ret tt
     else raise (ProtocolError "Invalid END_BLOCK message after block"))%py
      (set_recipient_calls
         (recipient_calls r
          ++ [provide_block_header_call (header b); provide_block_call (ser_block b)])
         (set_sock_in tail
            (set_recv_transaction_cache
               (remove_all (block_txs b) (recv_transaction_cache r)) r))).
Proof.
  intros Hhdr Hn Hwf Hcap Hfit Hin.
  set (n := Z.of_nat (length (vtx b))) in *.
  unfold recv_block. destruct (Z.gtb_spec n 10000) as [?|_]; [lia|].
  unfold bind at 1, recv at 1. rewrite Hin. unfold block_payload.
  rewrite <- !app_assoc.
  replace (Z.to_nat 80) with (length (header b)) by lia.
  rewrite take_app_length, drop_app_length.
  unfold bind at 1, call_recipient at 1, modify at 1.
  cbn [recipient_calls set_sock_in].
  assert (Hcs : (if n <? 0xfd
                 then (let! c := lift (pack little_endian [fmt_B] [n]) in ret (header b ++ c))%py
                 else if n <? 0xffff
                 then (let! c := lift (pack little_endian [fmt_H] [n]) in ret (header b ++ [xfd] ++ c))%py
                 else if n <? 0xffffffff
                 then (let! c := lift (pack little_endian [fmt_I] [n]) in ret (header b ++ [xfe] ++ c))%py
                 else raise (ProtocolError "WTF?????"))
                = (ret (header b ++ compact_size n) : M RelayNetworkClient bytes)).
  { destruct (Z.ltb_spec n 0xfd).
    - unfold bind. rewrite compact_size_small by (unfold n; lia). done.
    - destruct (Z.ltb_spec n 0xffff); [|lia].
      destruct (compact_size_medium n ltac:(lia)) as [-> ->]. done. }
  rewrite Hcs. clear Hcs. unfold bind at 1, ret at 1.
  unfold n at 1. rewrite Nat2Z.id.
  replace (length (vtx b)) with (length (block_txs b)) at 1 by (unfold block_txs; by rewrite length_map).
  unfold bind at 1.
  erewrite recv_block_transactions_spec; [|reflexivity|done|done|done].
  unfold bind at 1, call_recipient at 1, modify at 1.
  unfold ser_block, block_txs. fold n.
  cbn. rewrite <- !app_assoc. reflexivity.
Qed.

(** X18: The receive loop hands the rebuilt block to the recipient before it
    reads the END_BLOCK frame: when 12 bytes follow the block that are not the
    END_BLOCK header, the ProtocolError is raised after the header and the block
    have been delivered and the block's cached transactions removed. *)
Theorem block_is_delivered_before_the_trailer_is_checked
    (b : Block) (r : RelayNetworkClient) (trailer rest : bytes) (fields : list Z) :
  length (header b) = 80%nat ->
  Z.of_nat (length (vtx b)) <= 10000 ->
  reachable (recv_transaction_cache r) -> max_size (recv_transaction_cache r) <= 0xffff ->
  (forall tx, tx ∈ block_txs b -> blen tx <= 1000000) ->
  sock_in r = frame_header BLOCK_TYPE (Z.of_nat (length (vtx b)))
              ++ block_payload (recv_transaction_cache r) b ++ trailer ++ rest ->
  unpack big_endian [fmt_I; fmt_I; fmt_I] trailer = Ok fields ->
  fields ≠ [MAGIC_BYTES; END_BLOCK_TYPE; 0] ->
  recv_message r
  = Raises (ProtocolError "Invalid END_BLOCK message after block")
      (set_recipient_calls
         (recipient_calls r
          ++ [provide_block_header_call (header b); provide_block_call (ser_block b)])
         (set_sock_in rest
            (set_recv_transaction_cache
               (remove_all (block_txs b) (recv_transaction_cache r)) r))).
Proof.
  intros Hhdr Hn Hreach Hcap Hsmall Hin Hun Hbad.
  pose proof (reachable_wf _ Hreach) as Hwf.
  assert (Hfit : inline_fits (recv_transaction_cache r) (block_txs b)).
  { apply inline_fits_intro; [done| |].
    - intros tx Htx _. by apply Hsmall.
    - intros i j tx _ Hi _. apply Hsmall. by eapply list_elem_of_lookup_2. }
  assert (Hlen : length trailer = 12%nat).
  { unfold unpack in Hun. destruct (decide _) as [Hl|]; [exact Hl|discriminate]. }
  rewrite (recv_message_header r _ _ [MAGIC_BYTES; BLOCK_TYPE; Z.of_nat (length (vtx b))] Hin)
    by (apply unpack_frame_header; unfold BLOCK_TYPE; lia).
  cbn [item nth]. change (negb (MAGIC_BYTES =? MAGIC_BYTES)) with false. cbv iota.
  destruct (Z.gtb_spec (Z.of_nat (length (vtx b))) 1000000) as [?|_]; [lia|].
  change (BLOCK_TYPE =? VERSION_TYPE) with false.
  change (BLOCK_TYPE =? BLOCK_TYPE) with true. cbv iota.
  rewrite (recv_block_upto_trailer b _ (trailer ++ rest)) by done.
  unfold bind at 1, recv at 1. cbn [sock_in set_recipient_calls set_sock_in].
  change (Z.to_nat (3 * 4)) with 12%nat.
  rewrite take_app_length', drop_app_length' by done.
  unfold bind at 1. rewrite Hun. cbn [lift]. rewrite decide_False by done.
  reflexivity.
Qed.

(** *** provide_block *)

Lemma provide_block_general (b : Block) (s : RelayNetworkClient) (junk : bytes) :
  canonical_block b ->
  Z.of_nat (length (vtx b)) < 2 ^ 32 ->
  wf (send_transaction_cache s) -> max_size (send_transaction_cache s) <= 0xffff ->
  inline_fits (send_transaction_cache s) (block_txs b) ->
  provide_block (ser_block b ++ junk) s
  = Returns tt
      (let s' := set_send_transaction_cache
                   (remove_all (block_txs b) (send_transaction_cache s)) s in
       if sock_up s
       then set_sock_out (sock_out s ++ block_wire (send_transaction_cache s) b) s'
       else s').
Proof.
  intros (Hhdr & Hn & Htxs) Hn32 Hwf Hcap Hfit.
  set (n := Z.of_nat (length (vtx b))) in *.
  assert (Hat0 : at_pos (ser_block b ++ junk) 0
                   (header b ++ compact_size n ++ concat (map ser_tx (vtx b)) ++ junk)).
  { unfold ser_block. rewrite <- !app_assoc. apply at_pos_start. }
  apply at_pos_app in Hat0 as Hat1.
  replace (0 + blen (header b)) with 80 in Hat1 by (unfold blen; lia).
  unfold provide_block. unfold bind at 1.
  rewrite (decode_varint_compact_size _ _ n _ ltac:(lia) Hat1). cbn [lift fst snd].
  unfold except_OSError. unfold bind at 1.
  rewrite pack_frame_header by (unfold BLOCK_TYPE; lia). cbn [lift].
  replace (slice (ser_block b ++ junk) 0 80) with (header b).
  2:{ symmetry. replace 80 with (0 + blen (header b)) by (unfold blen; lia).
      by eapply slice_at. }
  apply at_pos_app in Hat1. unfold n at 1. rewrite Nat2Z.id.
  unfold bind at 1.
  rewrite (send_block_transactions_spec _ _ _ _ _ _ Htxs Hat1 Hwf Hcap Hfit).
  unfold bind at 1.
  rewrite pack_frame_header by (unfold END_BLOCK_TYPE; lia). cbn [lift].
  unfold sendall. cbn [sock_up set_send_transaction_cache].
  destruct (sock_up s); [|done].
  unfold block_wire, block_payload. fold n. unfold block_txs.
  cbn [sock_out set_send_transaction_cache]. by rewrite <- !app_assoc.
Qed.

(** X19: [provide_block] reads as many transactions as the count announces and
    ignores every byte after the last of them: the outcome and the state are
    those of the block alone. *)
Theorem provide_block_ignores_what_follows_the_block
    (b : Block) (s : RelayNetworkClient) (junk : bytes) :
  canonical_block b ->
  Z.of_nat (length (vtx b)) < 2 ^ 32 ->
  reachable (send_transaction_cache s) -> max_size (send_transaction_cache s) <= 0xffff ->
  (forall tx, tx ∈ block_txs b -> blen tx <= 1000000) ->
  provide_block (ser_block b ++ junk) s = provide_block (ser_block b) s.
Proof.
  intros Hb Hn Hreach Hcap Hsmall. pose proof (reachable_wf _ Hreach) as Hwf.
  assert (Hfit : inline_fits (send_transaction_cache s) (block_txs b)).
  { apply inline_fits_intro; [done| |].
    - intros tx Htx _. by apply Hsmall.
    - intros i j tx _ Hi _. apply Hsmall. by eapply list_elem_of_lookup_2. }
  rewrite <- (app_nil_r (ser_block b)) at 2. by rewrite !provide_block_general.
Qed.

(** X20: When [sendall] fails, [provide_block] still returns: nothing is
    written, but the transactions of the block have been removed from the send
    cache. *)
Theorem provide_block_with_the_socket_down
    (b : Block) (s : RelayNetworkClient) :
  canonical_block b ->
  Z.of_nat (length (vtx b)) < 2 ^ 32 ->
  reachable (send_transaction_cache s) -> max_size (send_transaction_cache s) <= 0xffff ->
  (forall tx, tx ∈ block_txs b -> blen tx <= 1000000) ->
  sock_up s = false ->
  provide_block (ser_block b) s
  = Returns tt
      (set_send_transaction_cache (remove_all (block_txs b) (send_transaction_cache s)) s)
  /\ forall tx, tx ∈ block_txs b ->
       contains (remove_all (block_txs b) (send_transaction_cache s)) tx = false.
Proof.
  intros Hb Hn Hreach Hcap Hsmall Hdown. pose proof (reachable_wf _ Hreach) as Hwf.
  assert (Hfit : inline_fits (send_transaction_cache s) (block_txs b)).
  { apply inline_fits_intro; [done| |].
    - intros tx Htx _. by apply Hsmall.
    - intros i j tx _ Hi _. apply Hsmall. by eapply list_elem_of_lookup_2. }
  split.
  - rewrite <- (app_nil_r (ser_block b)) at 1. rewrite provide_block_general by done.
    by rewrite Hdown.
  - intros tx Htx.
    destruct (contains (remove_all (block_txs b) (send_transaction_cache s)) tx) eqn:Hc; [|done].
    apply contains_remove_all in Hc as [_ Hc]; [contradiction|done].
Qed.

Lemma provide_block_short (data : bytes) (s : RelayNetworkClient) :
  blen data <= 80 ->
  provide_block data s = Raises StructError s.
Proof.
  intros Hshort. unfold provide_block, bind, decode_varint.
  rewrite unpack_from_short; [done|lia|]. cbn. lia.
Qed.

(** *** provide_transaction *)

Lemma provide_transaction_sends (s : RelayNetworkClient) (tx : bytes) :
  blen tx <= 10000 ->
  wf (send_transaction_cache s) ->
  contains (send_transaction_cache s) tx = false ->
  sock_up s = true ->
  provide_transaction tx s
  = Returns tt
      (set_send_transaction_cache (state_of (add tx false (send_transaction_cache s)))
         (set_sock_out (sock_out s ++ frame_header TRANSACTION_TYPE (blen tx) ++ tx) s)).
Proof.
  intros Hlen Hwf Hc Hup. pose proof (blen_nonneg tx) as Hnn.
  destruct (add_wf_absent _ tx false Hwf Hc) as (Hadd & _).
  unfold provide_transaction. unfold bind at 1, get at 1. rewrite Hc.
  unfold bind at 1. unfold MAX_RELAY_TRANSACTION_BYTES, MAX_RELAY_OVERSIZE_TRANSACTION_BYTES.
  destruct (Z.gtb_spec (blen tx) 10000); [lia|]. cbn [ret].
  destruct (Z.gtb_spec (blen tx) 250000); [lia|].
  unfold except_OSError. unfold bind at 1.
  rewrite pack_frame_header by (unfold TRANSACTION_TYPE; lia). cbn [lift].
  unfold bind at 1, sendall at 1. rewrite Hup.
  unfold on_send_cache. cbn [send_transaction_cache set_sock_out]. rewrite Hadd.
  reflexivity.
Qed.

(** X21: A transaction of at most MAX_RELAY_TRANSACTION_BYTES bytes that is not
    in the send cache is sent as one TRANSACTION frame and added to the send
    cache; a peer that reads the frame with the same receive cache adds it in
    the same way and hands it to its recipient: the two caches stay equal. *)
Theorem transaction_relay_keeps_the_caches_in_step
    (s r : RelayNetworkClient) (c : FlaggedArraySet bytes) (tx rest : bytes) :
  blen tx <= MAX_RELAY_TRANSACTION_BYTES ->
  reachable c ->
  send_transaction_cache s = c -> recv_transaction_cache r = c ->
  contains c tx = false ->
  sock_up s = true ->
  let c' := state_of (add tx false c) in
  let frame := frame_header TRANSACTION_TYPE (blen tx) ++ tx in
  provide_transaction tx s
  = Returns tt (set_send_transaction_cache c' (set_sock_out (sock_out s ++ frame) s)) /\
  recv_message (set_sock_in (frame ++ rest) r)
  = Returns tt
      (set_recipient_calls (recipient_calls r ++ [provide_transaction_call tx])
         (set_sock_in rest (set_recv_transaction_cache c' r))).
Proof.
  intros Hlen Hreach Hs Hr Hc Hup c' frame.
  unfold MAX_RELAY_TRANSACTION_BYTES in Hlen. pose proof (blen_nonneg tx) as Hnn.
  pose proof (reachable_wf _ Hreach) as Hwf.
  destruct (add_wf_absent c tx false Hwf Hc) as (Hadd & _). fold c' in Hadd.
  split.
  - rewrite provide_transaction_sends; [by rewrite Hs|lia|by rewrite Hs..|done].
  - rewrite (recv_message_transaction _ tx rest).
    + cbn. by rewrite Hr.
    + lia.
    + cbn. by rewrite Hr.
    + unfold frame. cbn [sock_in set_sock_in]. by rewrite <- app_assoc.
Qed.

(** X22: [provide_transaction] returns with the client unchanged when the
    transaction is in the send cache, when it is longer than
    MAX_RELAY_OVERSIZE_TRANSACTION_BYTES, and when it is at most
    MAX_RELAY_TRANSACTION_BYTES long and [sendall] fails. *)
Theorem provide_transaction_sends_nothing (s : RelayNetworkClient) (tx : bytes) :
  contains (send_transaction_cache s) tx = true
  \/ MAX_RELAY_OVERSIZE_TRANSACTION_BYTES < blen tx
  \/ (blen tx <= MAX_RELAY_TRANSACTION_BYTES /\ sock_up s = false) ->
  provide_transaction tx s = Returns tt s.
Proof.
  unfold MAX_RELAY_TRANSACTION_BYTES, MAX_RELAY_OVERSIZE_TRANSACTION_BYTES.
  intros Hcase. unfold provide_transaction. unfold bind at 1, get at 1.
  destruct (contains (send_transaction_cache s) tx) eqn:Hc; [done|].
  unfold MAX_RELAY_TRANSACTION_BYTES, MAX_RELAY_OVERSIZE_TRANSACTION_BYTES.
  destruct Hcase as [?|[Hbig|[Hsmall Hdown]]]; [congruence| |].
  - unfold bind. destruct (Z.gtb_spec (blen tx) 10000); [|lia].
    destruct (Z.gtb_spec (blen tx) 250000); [done|lia].
  - pose proof (blen_nonneg tx) as Hnn.
    unfold bind at 1. destruct (Z.gtb_spec (blen tx) 10000); [lia|]. cbn [ret].
    unfold except_OSError. unfold bind at 1.
    rewrite pack_frame_header by (unfold TRANSACTION_TYPE; lia). cbn [lift].
    unfold bind, sendall. by rewrite Hdown.
Qed.

(** ** BitcoinP2PRelayer *)

Lemma length_pack_s (n : nat) (v : bytes) : length (pack_s n v) = n.
Proof. unfold pack_s. rewrite length_app, length_take, length_replicate. lia. Qed.

Lemma pack_s_exact (n : nat) (v : bytes) : length v = n -> pack_s n v = v.
Proof.
  intros <-. unfold pack_s. rewrite firstn_all, Nat.sub_diag. apply app_nil_r.
Qed.

Lemma pack_s_short (n : nat) (v : bytes) :
  (length v < n)%nat -> pack_s n v = v ++ x00 :: replicate (n - length v - 1) x00.
Proof.
  intros Hlt. unfold pack_s. rewrite take_ge by lia.
  replace (n - length v)%nat with (S (n - length v - 1)) at 1 by lia. done.
Qed.

Lemma slice_prefix (x rest : bytes) : slice (x ++ rest) 0 (blen x) = x.
Proof. apply (slice_at (x ++ rest) 0 x rest). apply at_pos_start. Qed.

Lemma slice_take (data : bytes) (n : nat) :
  (n <= length data)%nat -> slice data 0 (Z.of_nat n) = take n data.
Proof.
  intros Hn. rewrite <- (take_drop n data) at 1.
  replace (Z.of_nat n) with (blen (take n data)) by (unfold blen; rewrite length_take; lia).
  apply slice_prefix.
Qed.

Lemma bytes_index_notin (data : bytes) (b : byte) :
  b ∉ data -> bytes_index data b = None.
Proof.
  induction data as [|x data IH]; [done|]. intros Hnot. cbn.
  rewrite decide_False by (intros ->; apply Hnot; left).
  rewrite IH; [done|]. intros Hin. apply Hnot. by right.
Qed.

Lemma bytes_index_first (a rest : bytes) (b : byte) :
  b ∉ a -> bytes_index (a ++ b :: rest) b = Some (blen a).
Proof.
  induction a as [|x a IH]; intros Hnot; cbn.
  - by rewrite decide_True.
  - rewrite decide_False by (intros ->; apply Hnot; left).
    rewrite IH by (intros Hin; apply Hnot; by right).
    cbn. f_equal. unfold blen. cbn [length]. lia.
Qed.

Lemma bytes_index_found (data : bytes) (b : byte) (i : Z) :
  bytes_index data b = Some i ->
  exists a rest, data = a ++ b :: rest /\ (b ∉ a) /\ i = blen a.
Proof.
  revert i. induction data as [|x data IH]; intros i; cbn; [done|].
  destruct (decide (x = b)) as [->|Hne].
  - intros [= <-]. exists [], data. split_and!; [done|apply not_elem_of_nil|done].
  - destruct (bytes_index data b) as [j|] eqn:Hj; [|done]. cbn. intros [= <-].
    destruct (IH j eq_refl) as (a & rest & -> & Hnot & ->).
    exists (x :: a), rest. split_and!; [done| |unfold blen; cbn [length]; lia].
    intros [?|?]%elem_of_cons; [congruence|done].
Qed.

Lemma bytes_index_in (data : bytes) (b : byte) :
  b ∈ data -> is_Some (bytes_index data b).
Proof.
  induction data as [|x data IH]; [by intros ?%elem_of_nil|].
  intros Hin. cbn. destruct (decide (x = b)); [done|].
  apply elem_of_cons in Hin as [->|Hin]; [done|].
  destruct (IH Hin) as [i ->]. done.
Qed.

Lemma p2p_header_parts (hdr : bytes) :
  length hdr = 24%nat ->
  hdr = take 4 hdr ++ take 12 (drop 4 hdr) ++ take 4 (drop 16 hdr) ++ take 4 (drop 20 hdr).
Proof.
  intros Hlen.
  rewrite <- (take_drop 4 hdr) at 1. f_equal.
  rewrite <- (take_drop 12 (drop 4 hdr)) at 1. f_equal. rewrite drop_drop. cbn [Nat.add].
  rewrite <- (take_drop 4 (drop 16 hdr)) at 1. f_equal. rewrite drop_drop. cbn [Nat.add].
  rewrite take_ge; [done|]. rewrite length_drop. lia.
Qed.

Lemma unpack_message_header_fields (magic command len sum : bytes) :
  length magic = 4%nat -> length command = 12%nat ->
  length len = 4%nat -> length sum = 4%nat ->
  unpack_message_header (magic ++ command ++ len ++ sum)
  = Ok (magic, command, decode little_endian len, sum).
Proof.
  intros Hm Hc Hl Hs. unfold unpack_message_header.
  rewrite decide_True by (rewrite !length_app; lia).
  assert (H16 : drop 16 (magic ++ command ++ len ++ sum) = len ++ sum).
  { rewrite (app_assoc magic command). apply drop_app_length'. rewrite length_app. lia. }
  assert (H20 : drop 20 (magic ++ command ++ len ++ sum) = sum).
  { rewrite (app_assoc magic command), (app_assoc _ len sum).
    apply drop_app_length'. rewrite !length_app. lia. }
  rewrite H16, H20.
  rewrite take_app_length' by done.
  rewrite drop_app_length' by done. rewrite !take_app_length' by done.
  rewrite take_ge by lia. done.
Qed.

Section P2PFacts.
Variable sha256 : bytes -> bytes.

Lemma p2p_recv_header_fields (s : BitcoinP2PRelayer)
    (magic command len sum rest : bytes) :
  length magic = 4%nat -> length command = 12%nat ->
  length len = 4%nat -> length sum = 4%nat ->
  p2p_sock_in s = magic ++ command ++ len ++ sum ++ rest ->
  p2p_recv_header s
  = if decide (magic = P2P_MAGIC)
    then Returns (command, decode little_endian len, sum) (set_p2p_sock_in rest s)
    else Raises (ProtocolError "Invalid protocol magic") (set_p2p_sock_in rest s).
Proof.
  intros Hm Hc Hl Hs Hin. unfold p2p_recv_header.
  unfold bind at 1, p2p_recv at 1. rewrite Hin.
  change (Z.to_nat (4 * 3 + 12)) with 24%nat.
  replace (magic ++ command ++ len ++ sum ++ rest)
    with ((magic ++ command ++ len ++ sum) ++ rest) by (by rewrite <- !app_assoc).
  rewrite take_app_length', drop_app_length' by (rewrite !length_app; lia).
  unfold bind at 1. rewrite unpack_message_header_fields by done. cbn [lift].
  by destruct (decide (magic = P2P_MAGIC)).
Qed.

Lemma p2p_recv_header_short (s : BitcoinP2PRelayer) :
  (length (p2p_sock_in s) < 24)%nat ->
  p2p_recv_header s = Raises StructError (set_p2p_sock_in [] s).
Proof.
  intros Hshort. unfold p2p_recv_header, bind, p2p_recv.
  change (Z.to_nat (4 * 3 + 12)) with 24%nat.
  rewrite take_ge, drop_ge by lia. unfold unpack_message_header.
  by rewrite decide_False by lia.
Qed.

Lemma message_bytes_Ok (command data : bytes) :
  blen data < 2 ^ 32 ->
  message_bytes sha256 command data
  = Ok (P2P_MAGIC ++ pack_s 12 command ++ encode little_endian 4 (blen data)
        ++ pack_s 4 (slice (sha256 (sha256 data)) 0 4) ++ data).
Proof.
  intros Hlen. pose proof (blen_nonneg data). unfold message_bytes, pack_message_header.
  rewrite pack_one by (cbn; lia). cbn [rbind code_size].
  rewrite (pack_s_exact 4 P2P_MAGIC) by done. by rewrite <- !app_assoc.
Qed.

Lemma message_bytes_Err (command data : bytes) :
  2 ^ 32 <= blen data -> message_bytes sha256 command data = Err StructError.
Proof.
  intros Hlen. unfold message_bytes, pack_message_header. cbn [pack].
  destruct (Z.ltb_spec (blen data) (256 ^ Z.of_nat (code_size fmt_I))) as [Hlt|_].
  - cbn in Hlt. lia.
  - by rewrite andb_false_r.
Qed.

Lemma message_bytes_frame (command data frame : bytes) :
  message_bytes sha256 command data = Ok frame ->
  blen data < 2 ^ 32 /\
  frame = P2P_MAGIC ++ pack_s 12 command ++ encode little_endian 4 (blen data)
          ++ pack_s 4 (slice (sha256 (sha256 data)) 0 4) ++ data.
Proof.
  intros Hframe. destruct (Z.lt_ge_cases (blen data) (2 ^ 32)) as [Hlt|Hge].
  - split; [done|]. rewrite message_bytes_Ok in Hframe by done.
    apply (f_equal (fun r => match r with Ok a => a | Err _ => [] end)) in Hframe.
    by cbv beta iota in Hframe.
  - by rewrite message_bytes_Err in Hframe.
Qed.

Lemma send_message_up (command data frame : bytes) (s : BitcoinP2PRelayer) :
  message_bytes sha256 command data = Ok frame ->
  p2p_sock_up s = true ->
  send_message sha256 command data s
  = Returns tt (set_p2p_sock_out (p2p_sock_out s ++ frame) s).
Proof.
  intros Hm Hup. unfold send_message, bind. rewrite Hm. cbn [lift].
  unfold p2p_sendall. by rewrite Hup.
Qed.

(** What the loop does with a well-framed message. *)
Lemma p2p_loop_frame (s : BitcoinP2PRelayer) (field command sum data rest : bytes) (i : Z) :
  length field = 12%nat ->
  bytes_index field x00 = Some i -> slice field 0 i = command ->
  length sum = 4%nat ->
  blen data < 2 ^ 32 ->
  p2p_sock_in s
    = P2P_MAGIC ++ field ++ encode little_endian 4 (blen data) ++ sum ++ data ++ rest ->
  p2p_connect_loop_step sha256 s
  = if blen data >? 5000000
    then p2p_reconnects error_processing (set_p2p_sock_in (data ++ rest) s)
    else if decide (sum = slice (sha256 (sha256 data)) 0 4)
    then match p2p_handle_command sha256 command data (set_p2p_sock_in rest s) with
         | Returns _ s2 => p2p_next_message s2
         | Raises e s2 => p2p_reconnects (p2p_catching_clause e) s2
         end
    else p2p_reconnects error_processing (set_p2p_sock_in rest s).
Proof.
  intros Hf Hi Hcmd Hsum Hlen Hin. pose proof (blen_nonneg data) as Hnn.
  unfold p2p_connect_loop_step.
  rewrite (p2p_recv_header_fields s P2P_MAGIC field
             (encode little_endian 4 (blen data)) sum (data ++ rest));
    [|done|done|apply length_encode|done|done].
  rewrite decide_True by done.
  rewrite decode_encode by (cbn; lia).
  rewrite Hi, Hcmd. unfold p2p_handle_message.
  destruct (blen data >? 5000000); [done|].
  unfold bind, p2p_recv. cbn [p2p_sock_in set_p2p_sock_in].
  rewrite take_app_length', drop_app_length' by (unfold blen; lia).
  destruct (decide (sum = slice (sha256 (sha256 data)) 0 4)); [|done].
  replace (set_p2p_sock_in rest (set_p2p_sock_in (data ++ rest) s))
    with (set_p2p_sock_in rest s) by done.
  done.
Qed.

Lemma command_field (command : bytes) :
  x00 ∉ command -> (length command < 12)%nat ->
  length (pack_s 12 command) = 12%nat /\
  bytes_index (pack_s 12 command) x00 = Some (blen command) /\
  slice (pack_s 12 command) 0 (blen command) = command.
Proof.
  intros Hnul Hlen. split_and!; [apply length_pack_s| |].
  - rewrite pack_s_short by done. by apply bytes_index_first.
  - rewrite pack_s_short by done. apply slice_prefix.
Qed.

Hypothesis sha256_length : forall data, length (sha256 data) = 32%nat.

Lemma checksum_field (data : bytes) :
  length (slice (sha256 (sha256 data)) 0 4) = 4%nat /\
  pack_s 4 (slice (sha256 (sha256 data)) 0 4) = slice (sha256 (sha256 data)) 0 4.
Proof.
  assert (Hl : length (slice (sha256 (sha256 data)) 0 4) = 4%nat).
  { rewrite (slice_take _ 4) by (rewrite sha256_length; lia).
    rewrite length_take, sha256_length. lia. }
  split; [done|]. by apply pack_s_exact.
Qed.

Lemma p2p_loop_message (s : BitcoinP2PRelayer) (command data frame rest : bytes) :
  x00 ∉ command -> (length command < 12)%nat ->
  blen data <= 5000000 ->
  message_bytes sha256 command data = Ok frame ->
  p2p_sock_in s = frame ++ rest ->
  p2p_connect_loop_step sha256 s
  = match p2p_handle_command sha256 command data (set_p2p_sock_in rest s) with
    | Returns _ s2 => p2p_next_message s2
    | Raises e s2 => p2p_reconnects (p2p_catching_clause e) s2
    end.
Proof.
  intros Hnul Hlen Hdata Hframe Hin.
  apply message_bytes_frame in Hframe as [_ ->].
  destruct (command_field command Hnul Hlen) as (Hf & Hi & Hc).
  destruct (checksum_field data) as (Hs & Hp). rewrite Hp in Hin.
  rewrite (p2p_loop_frame s (pack_s 12 command) command
             (slice (sha256 (sha256 data)) 0 4) data rest (blen command));
    [|done|done|done|done|lia|by rewrite Hin, <- !app_assoc].
  destruct (Z.gtb_spec (blen data) 5000000); [lia|].
  by rewrite decide_True.
Qed.

End P2PFacts.

Lemma slice_from_start (data : bytes) (n : Z) :
  0 <= n -> slice data 0 n = take (Z.to_nat n) data.
Proof.
  intros Hn. pose proof (blen_nonneg data) as Hb. unfold slice. cbn [Z.ltb Z.compare].
  destruct (Z.ltb_spec n 0); [lia|].
  rewrite (Z.min_l 0) by lia. cbn [Z.to_nat drop]. rewrite Z.sub_0_r.
  destruct (Z.le_ge_cases n (blen data)).
  - by rewrite Z.min_l.
  - rewrite Z.min_r by lia. unfold blen in *. rewrite Nat2Z.id.
    by rewrite firstn_all, take_ge by lia.
Qed.

Ltac no_nul := apply (bool_decide_unpack _); vm_compute; exact I.

Section P2PTheorems.
Variable sha256 : bytes -> bytes.

(** X23: The loop of BitcoinP2PRelayer checks a message in this order: a wrong
    magic is a ProtocolError; then a command field without a zero byte makes
    [index] raise ValueError, caught by the last clause; then a length above 5
    000 000 is a ProtocolError; these three with only the 24 header bytes
    consumed. Last, after the payload is read, a checksum that differs from the
    first four bytes of the double digest is a ProtocolError. *)
Theorem p2p_message_is_checked_in_order
    (s : BitcoinP2PRelayer) (magic field len sum tail : bytes) :
  length magic = 4%nat -> length field = 12%nat ->
  length len = 4%nat -> length sum = 4%nat ->
  p2p_sock_in s = magic ++ field ++ len ++ sum ++ tail ->
  let data_len := decode little_endian len in
  let data := take (Z.to_nat data_len) tail in
  let rest := drop (Z.to_nat data_len) tail in
  (magic ≠ P2P_MAGIC ->
   p2p_connect_loop_step sha256 s
   = p2p_reconnects error_processing (set_p2p_sock_in tail s)) /\
  (magic = P2P_MAGIC -> x00 ∉ field ->
   p2p_connect_loop_step sha256 s
   = p2p_reconnects unknown_error (set_p2p_sock_in tail s)) /\
  (magic = P2P_MAGIC -> x00 ∈ field -> 5000000 < data_len ->
   p2p_connect_loop_step sha256 s
   = p2p_reconnects error_processing (set_p2p_sock_in tail s)) /\
  (magic = P2P_MAGIC -> x00 ∈ field -> data_len <= 5000000 ->
   sum ≠ slice (sha256 (sha256 data)) 0 4 ->
   p2p_connect_loop_step sha256 s
   = p2p_reconnects error_processing (set_p2p_sock_in rest s)).
Proof.
  intros Hm Hf Hl Hs Hin data_len data rest. unfold p2p_connect_loop_step.
  rewrite (p2p_recv_header_fields s magic field len sum tail) by done.
  split_and!.
  - intros Hbad. by rewrite decide_False.
  - intros -> Hnul. rewrite decide_True by done. by rewrite bytes_index_notin.
  - intros -> [i Hi]%bytes_index_in Hbig. rewrite decide_True by done. rewrite Hi.
    unfold p2p_handle_message. fold data_len.
    by destruct (Z.gtb_spec data_len 5000000); [|lia].
  - intros -> [i Hi]%bytes_index_in Hsmall Hsum. rewrite decide_True by done. rewrite Hi.
    unfold p2p_handle_message. fold data_len.
    destruct (Z.gtb_spec data_len 5000000); [lia|].
    unfold bind, p2p_recv. cbn [p2p_sock_in set_p2p_sock_in]. fold data rest.
    by rewrite decide_False.
Qed.

Hypothesis sha256_length : forall data, length (sha256 data) = 32%nat.

(** X24: What [send_message] writes for a command of fewer than 12 bytes without
    a zero byte and a payload of at most 5 000 000 bytes is 24 bytes and the
    payload, and the loop of [connect] reading it passes every check and runs
    the branch of that command on that payload. *)
Theorem p2p_loop_accepts_what_send_message_writes
    (sender : BitcoinP2PRelayer) (command data : bytes) :
  x00 ∉ command -> (length command < 12)%nat ->
  blen data <= 5000000 ->
  p2p_sock_up sender = true ->
  exists frame,
    send_message sha256 command data sender
    = Returns tt (set_p2p_sock_out (p2p_sock_out sender ++ frame) sender) /\
    length frame = (24 + length data)%nat /\
    forall s rest, p2p_sock_in s = frame ++ rest ->
      p2p_connect_loop_step sha256 s
      = match p2p_handle_command sha256 command data (set_p2p_sock_in rest s) with
        | Returns _ s2 => p2p_next_message s2
        | Raises e s2 => p2p_reconnects (p2p_catching_clause e) s2
        end.
Proof.
  intros Hnul Hlen Hdata Hup.
  eexists. split_and!.
  - apply send_message_up; [|done]. apply message_bytes_Ok. lia.
  - destruct (checksum_field sha256 sha256_length data) as [Hs ->].
    rewrite !length_app, length_pack_s, length_encode, Hs. cbn. lia.
  - intros s rest Hin.
    eapply (p2p_loop_message sha256 sha256_length s command data); [done..| |exact Hin].
    apply message_bytes_Ok. lia.
Qed.

(** X25: In BitcoinP2PRelayer struct.error is caught with OSError. It is raised
    when fewer than 24 bytes are left for a header, by a [version] message of
    fewer than 4 payload bytes, and inside the relay client's [provide_block] by
    a [block] message of at most 80 bytes. *)
Theorem struct_errors_count_as_a_lost_connection (s : BitcoinP2PRelayer) :
  ((length (p2p_sock_in s) < 24)%nat ->
   p2p_connect_loop_step sha256 s = p2p_reconnects lost_connect (set_p2p_sock_in [] s)) /\
  (forall data frame rest,
     message_bytes sha256 (list_byte_of_string "version") data = Ok frame ->
     p2p_sock_in s = frame ++ rest ->
     blen data < 4 ->
     p2p_connect_loop_step sha256 s = p2p_reconnects lost_connect (set_p2p_sock_in rest s)) /\
  (forall data frame rest,
     message_bytes sha256 (list_byte_of_string "block") data = Ok frame ->
     p2p_sock_in s = frame ++ rest ->
     blen data <= 80 ->
     p2p_connect_loop_step sha256 s = p2p_reconnects lost_connect (set_p2p_sock_in rest s)).
Proof.
  split_and!.
  - intros Hshort. unfold p2p_connect_loop_step. by rewrite p2p_recv_header_short.
  - intros data frame rest Hframe Hin Hshort.
    rewrite (p2p_loop_message sha256 sha256_length s (list_byte_of_string "version") data frame rest);
      [|no_nul|cbn; lia|lia|done|done].
    unfold p2p_handle_command. rewrite decide_True by done.
    unfold bind, lift, unpack. rewrite slice_from_start by lia.
    rewrite decide_False; [done|]. rewrite length_take. unfold blen in Hshort. cbn. lia.
  - intros data frame rest Hframe Hin Hshort.
    rewrite (p2p_loop_message sha256 sha256_length s (list_byte_of_string "block") data frame rest);
      [|no_nul|cbn; lia|lia|done|done].
    unfold p2p_handle_command.
    rewrite decide_False by discriminate. rewrite decide_False by discriminate.
    rewrite decide_False by discriminate. rewrite decide_False by discriminate.
    rewrite decide_True by done.
    unfold on_data_recipient. cbn [data_recipient set_p2p_sock_in].
    rewrite provide_block_short by done. destruct s; reflexivity.
Qed.

(** X26: A [block] message from bitcoind that carries a canonical block makes
    the loop call [provide_block] on the relay client, which writes the
    compressed block to the relay socket and removes the block's transactions
    from the send cache; the loop goes on. *)
Theorem block_from_bitcoind_goes_out_on_the_relay_socket
    (s : BitcoinP2PRelayer) (b : Block) (frame rest : bytes) :
  let r := data_recipient s in
  canonical_block b ->
  Z.of_nat (length (vtx b)) < 2 ^ 32 ->
  blen (ser_block b) <= 5000000 ->
  reachable (send_transaction_cache r) -> max_size (send_transaction_cache r) <= 0xffff ->
  (forall tx, tx ∈ block_txs b -> blen tx <= 1000000) ->
  sock_up r = true ->
  message_bytes sha256 (list_byte_of_string "block") (ser_block b) = Ok frame ->
  p2p_sock_in s = frame ++ rest ->
  p2p_connect_loop_step sha256 s
  = p2p_next_message
      (set_data_recipient
         (set_sock_out (sock_out r ++ block_wire (send_transaction_cache r) b)
            (set_send_transaction_cache
               (remove_all (block_txs b) (send_transaction_cache r)) r))
         (set_p2p_sock_in rest s)).
Proof.
  intros r Hb Hn Hsize Hreach Hcap Hsmall Hup Hframe Hin.
  pose proof (reachable_wf _ Hreach) as Hwf.
  assert (Hfit : inline_fits (send_transaction_cache r) (block_txs b)).
  { apply inline_fits_intro; [done| |].
    - intros tx Htx _. by apply Hsmall.
    - intros i j tx _ Hi _. apply Hsmall. by eapply list_elem_of_lookup_2. }
  rewrite (p2p_loop_message sha256 sha256_length s (list_byte_of_string "block") (ser_block b) frame rest);
    [|no_nul|cbn; lia|lia|done|done].
  unfold p2p_handle_command.
  rewrite decide_False by discriminate. rewrite decide_False by discriminate.
  rewrite decide_False by discriminate. rewrite decide_False by discriminate.
  rewrite decide_True by done.
  unfold on_data_recipient. cbn [data_recipient set_p2p_sock_in]. fold r.
  rewrite <- (app_nil_r (ser_block b)). rewrite provide_block_general by done.
  rewrite Hup. reflexivity.
Qed.

(** X27: A [tx] message from bitcoind is handed to [provide_transaction] of the
    relay client. A transaction of at most MAX_RELAY_TRANSACTION_BYTES bytes
    that is not cached is sent on and cached; a cached one changes nothing; one
    above that size and not above MAX_RELAY_OVERSIZE_TRANSACTION_BYTES makes
    [provide_transaction] raise NameError, which ends the connection to bitcoind
    in the last [except] clause. *)
Theorem transaction_from_bitcoind_goes_out_on_the_relay_socket
    (s : BitcoinP2PRelayer) (tx frame rest : bytes) :
  let r := data_recipient s in
  reachable (send_transaction_cache r) ->
  sock_up r = true ->
  message_bytes sha256 (list_byte_of_string "tx") tx = Ok frame ->
  p2p_sock_in s = frame ++ rest ->
  (blen tx <= MAX_RELAY_TRANSACTION_BYTES ->
   contains (send_transaction_cache r) tx = false ->
   p2p_connect_loop_step sha256 s
   = p2p_next_message
       (set_data_recipient
          (set_send_transaction_cache (state_of (add tx false (send_transaction_cache r)))
             (set_sock_out (sock_out r ++ frame_header TRANSACTION_TYPE (blen tx) ++ tx) r))
          (set_p2p_sock_in rest s))) /\
  (blen tx <= 5000000 ->
   contains (send_transaction_cache r) tx = true ->
   p2p_connect_loop_step sha256 s = p2p_next_message (set_p2p_sock_in rest s)) /\
  (MAX_RELAY_TRANSACTION_BYTES < blen tx <= MAX_RELAY_OVERSIZE_TRANSACTION_BYTES ->
   contains (send_transaction_cache r) tx = false ->
   p2p_connect_loop_step sha256 s = p2p_reconnects unknown_error (set_p2p_sock_in rest s)).
Proof.
  intros r Hreach Hup Hframe Hin.
  unfold MAX_RELAY_TRANSACTION_BYTES, MAX_RELAY_OVERSIZE_TRANSACTION_BYTES.
  pose proof (reachable_wf _ Hreach) as Hwf.
  assert (Hstep : blen tx <= 5000000 ->
    p2p_connect_loop_step sha256 s
    = match on_data_recipient (provide_transaction tx) (set_p2p_sock_in rest s) with
      | Returns _ s2 => p2p_next_message s2
      | Raises e s2 => p2p_reconnects (p2p_catching_clause e) s2
      end).
  { intros Hsize.
    rewrite (p2p_loop_message sha256 sha256_length s (list_byte_of_string "tx") tx frame rest);
      [|no_nul|cbn; lia|lia|done|done].
    unfold p2p_handle_command.
    rewrite decide_False by discriminate. rewrite decide_False by discriminate.
    rewrite decide_False by discriminate. rewrite decide_False by discriminate.
    rewrite decide_False by discriminate. by rewrite decide_True. }
  split_and!.
  - intros Hlen Hc. rewrite Hstep by lia.
    unfold on_data_recipient. cbn [data_recipient set_p2p_sock_in]. fold r.
    by rewrite provide_transaction_sends.
  - intros Hlen Hc. rewrite Hstep by lia.
    unfold on_data_recipient. cbn [data_recipient set_p2p_sock_in]. fold r.
    unfold provide_transaction, bind, get. rewrite Hc. by destruct s.
  - intros [Hlo Hhi] Hc. rewrite Hstep by lia.
    unfold on_data_recipient. cbn [data_recipient set_p2p_sock_in]. fold r.
    unfold provide_transaction, bind, get. rewrite Hc.
    unfold MAX_RELAY_TRANSACTION_BYTES, MAX_RELAY_OVERSIZE_TRANSACTION_BYTES.
    destruct (Z.gtb_spec (blen tx) 10000); [|lia].
    destruct (Z.gtb_spec (blen tx) 250000); [lia|]. by destruct s.
Qed.

(** X28: With the socket up the loop answers a [version] message of at least 4
    payload bytes with an empty [verack], a [ping] with a [pong] of the same
    payload, and an [inv] with a [getdata] of the same payload. *)
Theorem p2p_replies (s : BitcoinP2PRelayer) (command data frame rest : bytes) :
  p2p_sock_up s = true ->
  blen data <= 5000000 ->
  message_bytes sha256 command data = Ok frame ->
  p2p_sock_in s = frame ++ rest ->
  forall reply,
    (command = list_byte_of_string "version" /\ 4 <= blen data /\
     message_bytes sha256 (list_byte_of_string "verack") [] = Ok reply) \/
    (command = list_byte_of_string "ping" /\
     message_bytes sha256 (list_byte_of_string "pong") data = Ok reply) \/
    (command = list_byte_of_string "inv" /\
     message_bytes sha256 (list_byte_of_string "getdata") data = Ok reply) ->
    p2p_connect_loop_step sha256 s
    = p2p_next_message
        (set_p2p_sock_out (p2p_sock_out s ++ reply) (set_p2p_sock_in rest s)).
Proof.
  intros Hup Hsize Hframe Hin reply Hcase.
  assert (Hnul : (x00 ∉ command) /\ (length command < 12)%nat).
  { destruct Hcase as [(-> & _)|[(-> & _)|(-> & _)]]; (split; [no_nul|cbn; lia]). }
  destruct Hnul as [Hnul Hlen].
  rewrite (p2p_loop_message sha256 sha256_length s command data frame rest) by done.
  unfold p2p_handle_command.
  destruct Hcase as [(-> & Hfour & Hreply)|[(-> & Hreply)|(-> & Hreply)]].
  - rewrite decide_True by done.
    unfold bind at 1, lift, unpack. rewrite slice_from_start by lia.
    rewrite decide_True by (rewrite length_take; unfold blen in Hfour; cbn; lia).
    by rewrite (send_message_up _ _ _ reply).
  - rewrite decide_False by discriminate. rewrite decide_False by discriminate.
    rewrite decide_True by done. by rewrite (send_message_up _ _ _ reply).
  - rewrite decide_False by discriminate. rewrite decide_False by discriminate.
    rewrite decide_False by discriminate.
    rewrite decide_True by done. by rewrite (send_message_up _ _ _ reply).
Qed.

(** X29: A well-framed message whose command is none of [version], [ping],
    [inv], [block] and [tx] is read and has no other effect. *)
Theorem other_commands_are_skipped (s : BitcoinP2PRelayer) (command data frame rest : bytes) :
  x00 ∉ command -> (length command < 12)%nat ->
  blen data <= 5000000 ->
  command ∉ [list_byte_of_string "version"; list_byte_of_string "ping";
             list_byte_of_string "inv"; list_byte_of_string "block";
             list_byte_of_string "tx"] ->
  message_bytes sha256 command data = Ok frame ->
  p2p_sock_in s = frame ++ rest ->
  p2p_connect_loop_step sha256 s = p2p_next_message (set_p2p_sock_in rest s).
Proof.
  intros Hnul Hlen Hsize Hother Hframe Hin.
  rewrite (p2p_loop_message sha256 sha256_length s command data frame rest) by done.
  unfold p2p_handle_command.
  rewrite !not_elem_of_cons in Hother.
  destruct Hother as (? & ? & ? & ? & ? & _).
  rewrite decide_False by done.
  destruct (decide (command = list_byte_of_string "verack")); [done|].
  by rewrite !decide_False by done.
Qed.

(** X30: A TRANSACTION frame of at most MAX_RELAY_OVERSIZE_TRANSACTION_BYTES
    bytes read by the relay client ends in one call on its recipient;
    RelayNetworkToP2PManager passes it to the relayer, which frames the
    transaction as a [tx] message on the bitcoind socket, or returns with
    nothing written when that socket is down. *)
Theorem relayed_transaction_reaches_bitcoind
    (r : RelayNetworkClient) (s : BitcoinP2PRelayer) (tx rest : bytes) :
  blen tx <= MAX_RELAY_OVERSIZE_TRANSACTION_BYTES ->
  reachable (recv_transaction_cache r) ->
  sock_in r = frame_header TRANSACTION_TYPE (blen tx) ++ tx ++ rest ->
  exists r' call frame,
    recv_message r = Returns tt r' /\
    recipient_calls r' = recipient_calls r ++ [call] /\
    message_bytes sha256 (list_byte_of_string "tx") tx = Ok frame /\
    RelayNetworkToP2PManager sha256 call s
    = Returns tt (if p2p_sock_up s
                  then set_p2p_sock_out (p2p_sock_out s ++ frame) s
                  else s).
Proof.
  unfold MAX_RELAY_OVERSIZE_TRANSACTION_BYTES. intros Hlen Hreach Hin.
  eexists _, _, _. split_and!.
  - by apply recv_message_transaction.
  - reflexivity.
  - apply message_bytes_Ok. lia.
  - cbn [RelayNetworkToP2PManager]. unfold p2p_provide_transaction, p2p_except_OSError.
    unfold send_message, bind. rewrite message_bytes_Ok by lia. cbn [lift].
    unfold p2p_sendall. by destruct (p2p_sock_up s).
Qed.

End P2PTheorems.

(** ** These theorems at concrete inputs *)

Lemma reachable_init_1000 : reachable (init (E := bytes) 1000).
Proof. apply reachable_init. lia. Qed.

Lemma reachable_three_cache : reachable three_cache.
Proof. unfold three_cache. repeat apply reachable_add. apply reachable_init_1000. Qed.

Lemma reachable_one_tx_cache : reachable one_tx_cache.
Proof. apply reachable_add, reachable_init_1000. Qed.

Lemma unflagged_client_connected (peer_data : bytes) :
  unflagged_client 1000 (connected peer_data).
Proof.
  unfold unflagged_client, unflagged. cbn.
  split_and!; try done; try apply reachable_init_1000; constructor.
Qed.

Lemma example_digest_length (data : bytes) : length (example_digest data) = 32%nat.
Proof. apply length_pack_s. Qed.

Lemma one_tx_block_small (tx : bytes) : tx ∈ block_txs one_tx_block -> blen tx <= 1000000.
Proof.
  intros Hin. cbn in Hin. apply list_elem_of_singleton in Hin. subst tx. by vm_compute.
Qed.

Lemma cache_indices_are_a_bijection_witness :
  reachable three_cache /\
  (forall e i, get_index three_cache e = Some i <-> get_by_index three_cache i = Some e) /\
  (forall i, is_Some (get_by_index three_cache i) <-> 0 <= i < len three_cache) /\
  (forall e, contains three_cache e = true <-> is_Some (get_index three_cache e)).
Proof.
  split; [exact reachable_three_cache|].
  exact (cache_indices_are_a_bijection three_cache reachable_three_cache).
Defined.

Lemma cache_bookkeeping_invariant_witness :
  reachable three_cache /\
  0 <= len three_cache <= max_size three_cache /\
  0 <= offset three_cache /\
  total three_cache = offset three_cache + len three_cache /\
  get_flag_count three_cache <= 0.
Proof.
  split; [exact reachable_three_cache|].
  exact (cache_bookkeeping_invariant three_cache reachable_three_cache).
Defined.

Lemma add_unflagged_appends_witness :
  contains three_cache [x09] = false /\
  exists s',
    add [x09] false three_cache = Returns tt s' /\
    len s' = (if len three_cache <? max_size three_cache
              then len three_cache + 1 else len three_cache) /\
    get_index s' [x09] = Some (len s' - 1) /\
    get_by_index s' (len s' - 1) = Some [x09] /\
    (forall q j, get_index three_cache q = Some j ->
       if len three_cache <? max_size three_cache then get_index s' q = Some j
       else if j =? 0 then contains s' q = false
       else get_index s' q = Some (j - 1)).
Proof.
  assert (Hc : contains three_cache [x09] = false) by (by vm_compute).
  split; [exact Hc|].
  exact (add_unflagged_appends three_cache [x09] reachable_three_cache Hc).
Defined.

Lemma cache_keeps_the_newest_witness :
  let l := [[x01]; [x02]; [x03]] in
  let s := add_all l (init 2) in
  let kept := drop (length l - Z.to_nat 2) l in
  (forall e, contains s e = true <-> e ∈ kept) /\
  (forall e (n : nat), kept !! n = Some e -> get_index s e = Some (Z.of_nat n)) /\
  len s = Z.min (Z.of_nat (length l)) 2.
Proof.
  apply (cache_keeps_the_newest 2 [[x01]; [x02]; [x03]]).
  - lia.
  - apply (bool_decide_unpack _). by vm_compute.
Defined.

Lemma cache_operations_never_miss_witness :
  remove [x02] three_cache = Returns tt (state_of (remove [x02] three_cache)) /\
  add [x02] false three_cache = Returns tt (state_of (add [x02] false three_cache)) /\
  (add [x02] true three_cache = Returns tt three_cache /\ contains three_cache [x02] = true
   \/ add [x02] true three_cache
      = Raises (AttributeError "flalg_count") (state_of (add [x02] true three_cache))
      /\ contains three_cache [x02] = false).
Proof.
  exact (cache_operations_never_miss three_cache [x02] reachable_three_cache).
Defined.

Lemma decode_varint_reads_by_tag_witness :
  decode_varint [xfd; x34; x12; xaa] 0
  = Ok (if byte_to_Z xfd <? 0xfd then byte_to_Z xfd else le_decode [x34; x12],
        0 + 1 + Z.of_nat (length [x34; x12])).
Proof.
  apply (decode_varint_reads_by_tag [xfd; x34; x12; xaa] 0 xfd [x34; x12] [xaa]).
  - apply at_pos_start.
  - reflexivity.
Defined.


Lemma decode_varint_progress_witness :
  0 <= 0x1234 < 2 ^ 64 /\ 0 < 3 <= 0 + 9 /\ 3 <= blen [xfd; x34; x12; xaa].
Proof.
  apply (decode_varint_progress [xfd; x34; x12; xaa] 0 0x1234 3).
  - lia.
  - reflexivity.
Defined.

Lemma client_caches_stay_unflagged_witness :
  unflagged_client 1000 (state_of (recv_message (connected [x00]))) /\
  unflagged_client 1000 (state_of (provide_transaction [x01] (connected [x00]))) /\
  unflagged_client 1000 (state_of (provide_block [x01] (connected [x00]))).
Proof.
  exact (client_caches_stay_unflagged 1000 (connected [x00]) [x01]
           (unflagged_client_connected [x00])).
Defined.

Lemma frame_header_is_checked_in_order_witness :
  let r := connected (frame_header 7 0 ++ [x2a]) in
  (MAGIC_BYTES ≠ MAGIC_BYTES ->
   recv_message r = Raises (ProtocolError "Invalid magic bytes") (set_sock_in [x2a] r)) /\
  (MAGIC_BYTES = MAGIC_BYTES -> 0 > 1000000 ->
   recv_message r = Raises (ProtocolError "Got message too large") (set_sock_in [x2a] r)) /\
  (MAGIC_BYTES = MAGIC_BYTES -> 0 <= 1000000 -> 7 = END_BLOCK_TYPE \/ 4 < 7 ->
   recv_message r = Raises (ProtocolError "Unknown message type") (set_sock_in [x2a] r)).
Proof.
  intros r.
  apply (frame_header_is_checked_in_order r (frame_header 7 0) [x2a] MAGIC_BYTES 7 0).
  - reflexivity.
  - by vm_compute.
Defined.

Lemma short_frame_header_gives_up_the_connection_witness :
  recv_message (connected [x00]) = Raises StructError (set_sock_in [] (connected [x00])) /\
  connect_loop_step (connected [x00])
  = reconnects unknown_error (set_sock_in [] (connected [x00])).
Proof.
  apply short_frame_header_gives_up_the_connection. cbn. lia.
Defined.

Lemma version_must_match_and_max_version_is_skipped_witness :
  let r := connected (frame_header VERSION_TYPE (blen VERSION_STRING)
                      ++ VERSION_STRING ++ [x2a]) in
  (VERSION_TYPE = VERSION_TYPE -> VERSION_STRING = VERSION_STRING ->
   recv_message r = Returns tt (set_sock_in [x2a] r)) /\
  (VERSION_TYPE = VERSION_TYPE -> VERSION_STRING ≠ VERSION_STRING ->
   recv_message r
   = Raises (ProtocolError "Got back unknown version type") (set_sock_in [x2a] r)) /\
  (VERSION_TYPE = MAX_VERSION_TYPE -> recv_message r = Returns tt (set_sock_in [x2a] r)).
Proof.
  intros r.
  apply (version_must_match_and_max_version_is_skipped r VERSION_TYPE VERSION_STRING [x2a]).
  - by vm_compute.
  - reflexivity.
Defined.

Lemma oversize_transaction_frame_is_rejected_unread_witness :
  let r := connected (frame_header TRANSACTION_TYPE 300000 ++ [x2a]) in
  recv_message r
  = Raises (ProtocolError "Got a freely relayed transaction too large") (set_sock_in [x2a] r).
Proof.
  intros r.
  apply (oversize_transaction_frame_is_rejected_unread r 300000 [x2a]).
  - unfold MAX_RELAY_OVERSIZE_TRANSACTION_BYTES. lia.
  - reflexivity.
Defined.

Lemma transaction_within_the_oversize_limit_is_admitted_witness :
  let tx := ser_tx minimal_tx in
  let r := connected (frame_header TRANSACTION_TYPE (blen tx) ++ tx ++ [x2a]) in
  let c' := state_of (add tx false (recv_transaction_cache r)) in
  recv_message r
  = Returns tt
      (set_recipient_calls (recipient_calls r ++ [provide_transaction_call tx])
         (set_sock_in [x2a] (set_recv_transaction_cache c' r))) /\
  contains c' tx = true /\
  (contains (recv_transaction_cache r) tx = true -> c' = recv_transaction_cache r).
Proof.
  intros tx r.
  apply (transaction_within_the_oversize_limit_is_admitted r tx [x2a]).
  - by vm_compute.
  - apply reachable_init_1000.
  - reflexivity.
Defined.

Lemma missing_index_is_a_protocol_error_witness :
  let r := connected (encode big_endian 2 5 ++ [x2a]) in
  recv_block_transactions 1 [] r
  = Raises (ProtocolError "Got index for a transaction we didn't have") (set_sock_in [x2a] r).
Proof.
  intros r. apply (missing_index_is_a_protocol_error 0 [] r 5 [x2a]).
  - apply reachable_init_1000.
  - by vm_compute.
  - reflexivity.
Defined.

Lemma block_is_delivered_before_the_trailer_is_checked_witness :
  let r := connected (frame_header BLOCK_TYPE 1
                      ++ block_payload (init 1000) one_tx_block
                      ++ frame_header END_BLOCK_TYPE 1 ++ [x2a]) in
  recv_message r
  = Raises (ProtocolError "Invalid END_BLOCK message after block")
      (set_recipient_calls
         (recipient_calls r
          ++ [provide_block_header_call (header one_tx_block);
              provide_block_call (ser_block one_tx_block)])
         (set_sock_in [x2a]
            (set_recv_transaction_cache
               (remove_all (block_txs one_tx_block) (recv_transaction_cache r)) r))).
Proof.
  intros r.
  apply (block_is_delivered_before_the_trailer_is_checked one_tx_block r
           (frame_header END_BLOCK_TYPE 1) [x2a] [MAGIC_BYTES; END_BLOCK_TYPE; 1]).
  - reflexivity.
  - cbn. lia.
  - apply reachable_init_1000.
  - by vm_compute.
  - apply one_tx_block_small.
  - reflexivity.
  - by vm_compute.
  - discriminate.
Defined.

Lemma provide_block_ignores_what_follows_the_block_witness :
  provide_block (ser_block one_tx_block ++ [xff; xff; xff]) one_tx_client
  = provide_block (ser_block one_tx_block) one_tx_client.
Proof.
  apply provide_block_ignores_what_follows_the_block.
  - apply canonical_one_tx_block.
  - cbn. lia.
  - apply reachable_one_tx_cache.
  - by vm_compute.
  - apply one_tx_block_small.
Defined.

Lemma provide_block_with_the_socket_down_witness :
  provide_block (ser_block one_tx_block) offline_client
  = Returns tt
      (set_send_transaction_cache
         (remove_all (block_txs one_tx_block) (send_transaction_cache offline_client))
         offline_client)
  /\ forall tx, tx ∈ block_txs one_tx_block ->
       contains (remove_all (block_txs one_tx_block) (send_transaction_cache offline_client))
         tx = false.
Proof.
  apply provide_block_with_the_socket_down.
  - apply canonical_one_tx_block.
  - cbn. lia.
  - apply reachable_one_tx_cache.
  - by vm_compute.
  - apply one_tx_block_small.
  - reflexivity.
Defined.

Lemma transaction_relay_keeps_the_caches_in_step_witness :
  let tx := ser_tx minimal_tx in
  let c' := state_of (add tx false (init 1000)) in
  let frame := frame_header TRANSACTION_TYPE (blen tx) ++ tx in
  provide_transaction tx (connected [])
  = Returns tt (set_send_transaction_cache c'
                  (set_sock_out (sock_out (connected []) ++ frame) (connected []))) /\
  recv_message (set_sock_in (frame ++ [x2a]) (connected []))
  = Returns tt
      (set_recipient_calls (recipient_calls (connected []) ++ [provide_transaction_call tx])
         (set_sock_in [x2a] (set_recv_transaction_cache c' (connected [])))).
Proof.
  intros tx.
  apply (transaction_relay_keeps_the_caches_in_step
           (connected []) (connected []) (init 1000) tx [x2a]).
  - by vm_compute.
  - apply reachable_init_1000.
  - reflexivity.
  - reflexivity.
  - reflexivity.
  - reflexivity.
Defined.

Lemma provide_transaction_sends_nothing_witness :
  provide_transaction (ser_tx minimal_tx) one_tx_client = Returns tt one_tx_client /\
  provide_transaction (ser_tx minimal_tx) offline_client = Returns tt offline_client /\
  provide_transaction [x01] offline_client = Returns tt offline_client.
Proof.
  split_and!.
  - apply provide_transaction_sends_nothing. left. by vm_compute.
  - apply provide_transaction_sends_nothing. left. by vm_compute.
  - apply provide_transaction_sends_nothing. right. right. split; [by vm_compute|reflexivity].
Defined.

Lemma p2p_message_is_checked_in_order_witness :
  let s := example_relayer (connected [])
             (P2P_MAGIC ++ replicate 12 x41 ++ [x01; x00; x00; x00]
              ++ [x00; x00; x00; x00] ++ [x2a; x2b]) in
  p2p_connect_loop_step example_digest s
  = p2p_reconnects unknown_error (set_p2p_sock_in [x2a; x2b] s).
Proof.
  intros s.
  refine (proj1 (proj2 (p2p_message_is_checked_in_order example_digest s
            P2P_MAGIC (replicate 12 x41) [x01; x00; x00; x00] [x00; x00; x00; x00]
            [x2a; x2b] _ _ _ _ _)) _ _); try reflexivity.
  apply (bool_decide_unpack _). by vm_compute.
Defined.

Lemma p2p_loop_accepts_what_send_message_writes_witness :
  let ping := list_byte_of_string "ping" in
  let sender := example_relayer (connected []) [] in
  exists frame,
    send_message example_digest ping [x07] sender
    = Returns tt (set_p2p_sock_out (p2p_sock_out sender ++ frame) sender) /\
    length frame = (24 + length [x07])%nat /\
    forall s rest, p2p_sock_in s = frame ++ rest ->
      p2p_connect_loop_step example_digest s
      = match p2p_handle_command example_digest ping [x07] (set_p2p_sock_in rest s) with
        | Returns _ s2 => p2p_next_message s2
        | Raises e s2 => p2p_reconnects (p2p_catching_clause e) s2
        end.
Proof.
  intros ping sender.
  apply (p2p_loop_accepts_what_send_message_writes example_digest example_digest_length
           sender ping [x07]).
  - apply (bool_decide_unpack _). by vm_compute.
  - cbn. lia.
  - by vm_compute.
  - reflexivity.
Defined.

Lemma struct_errors_count_as_a_lost_connection_witness :
  let s := example_relayer (connected [])
             (example_frame (list_byte_of_string "version") [x01; x02] ++ [x2a]) in
  p2p_connect_loop_step example_digest s
  = p2p_reconnects lost_connect (set_p2p_sock_in [x2a] s).
Proof.
  intros s.
  refine (proj1 (proj2 (struct_errors_count_as_a_lost_connection example_digest
            example_digest_length s)) [x01; x02] _ [x2a] _ _ _).
  - reflexivity.
  - reflexivity.
  - by vm_compute.
Defined.

Lemma block_from_bitcoind_goes_out_on_the_relay_socket_witness :
  let frame := example_frame (list_byte_of_string "block") (ser_block one_tx_block) in
  let s := example_relayer one_tx_client (frame ++ [x2a]) in
  p2p_connect_loop_step example_digest s
  = p2p_next_message
      (set_data_recipient
         (set_sock_out (sock_out one_tx_client ++ block_wire one_tx_cache one_tx_block)
            (set_send_transaction_cache
               (remove_all (block_txs one_tx_block) one_tx_cache) one_tx_client))
         (set_p2p_sock_in [x2a] s)).
Proof.
  intros frame s.
  apply (block_from_bitcoind_goes_out_on_the_relay_socket example_digest
           example_digest_length s one_tx_block frame [x2a]).
  - apply canonical_one_tx_block.
  - cbn. lia.
  - by vm_compute.
  - apply reachable_one_tx_cache.
  - by vm_compute.
  - apply one_tx_block_small.
  - reflexivity.
  - reflexivity.
  - reflexivity.
Defined.

Lemma transaction_from_bitcoind_goes_out_on_the_relay_socket_witness :
  let tx := ser_tx minimal_tx in
  let frame := example_frame (list_byte_of_string "tx") tx in
  let s := example_relayer (connected []) (frame ++ [x2a]) in
  p2p_connect_loop_step example_digest s
  = p2p_next_message
      (set_data_recipient
         (set_send_transaction_cache (state_of (add tx false (init 1000)))
            (set_sock_out (sock_out (connected [])
                           ++ frame_header TRANSACTION_TYPE (blen tx) ++ tx) (connected [])))
         (set_p2p_sock_in [x2a] s)).
Proof.
  intros tx frame s.
  refine (proj1 (transaction_from_bitcoind_goes_out_on_the_relay_socket example_digest
            example_digest_length s tx frame [x2a] _ _ _ _) _ _).
  - apply reachable_init_1000.
  - reflexivity.
  - reflexivity.
  - reflexivity.
  - by vm_compute.
  - reflexivity.
Defined.

Lemma p2p_replies_witness :
  let s := example_relayer (connected [])
             (example_frame (list_byte_of_string "ping") [x07] ++ [x2a]) in
  p2p_connect_loop_step example_digest s
  = p2p_next_message
      (set_p2p_sock_out
         (p2p_sock_out s ++ example_frame (list_byte_of_string "pong") [x07])
         (set_p2p_sock_in [x2a] s)).
Proof.
  intros s.
  apply (p2p_replies example_digest example_digest_length s
           (list_byte_of_string "ping") [x07]
           (example_frame (list_byte_of_string "ping") [x07]) [x2a]).
  - reflexivity.
  - by vm_compute.
  - reflexivity.
  - reflexivity.
  - right. left. split; reflexivity.
Defined.

Lemma other_commands_are_skipped_witness :
  let s := example_relayer (connected [])
             (example_frame (list_byte_of_string "addr") [x07] ++ [x2a]) in
  p2p_connect_loop_step example_digest s = p2p_next_message (set_p2p_sock_in [x2a] s).
Proof.
  intros s.
  apply (other_commands_are_skipped example_digest example_digest_length s
           (list_byte_of_string "addr") [x07]
           (example_frame (list_byte_of_string "addr") [x07]) [x2a]).
  - apply (bool_decide_unpack _). by vm_compute.
  - cbn. lia.
  - by vm_compute.
  - apply (bool_decide_unpack _). by vm_compute.
  - reflexivity.
  - reflexivity.
Defined.

Lemma relayed_transaction_reaches_bitcoind_witness :
  let tx := ser_tx minimal_tx in
  let r := connected (frame_header TRANSACTION_TYPE (blen tx) ++ tx ++ [x2a]) in
  let s := example_relayer (connected []) [] in
  exists r' call frame,
    recv_message r = Returns tt r' /\
    recipient_calls r' = recipient_calls r ++ [call] /\
    message_bytes example_digest (list_byte_of_string "tx") tx = Ok frame /\
    RelayNetworkToP2PManager example_digest call s
    = Returns tt (if p2p_sock_up s
                  then set_p2p_sock_out (p2p_sock_out s ++ frame) s
                  else s).
Proof.
  intros tx r s.
  apply (relayed_transaction_reaches_bitcoind example_digest r s tx [x2a]).
  - by vm_compute.
  - apply reachable_init_1000.
  - reflexivity.
Defined.
